(** * myailib / openai: the error interpreter and the retry loop

    A shallow embedding of [error-parser.go] (the two parsers
    [ParseOpenAIJsonError] and [ParseOpenAIPlainError], the classifier methods
    and [Error]) and of the retry loop of [generateJsonContent], followed by
    the properties of the specification that concern them.

    Go strings are byte sequences: they are modelled as [list byte].  The
    library functions the program calls ([strings.TrimSpace], [strings.Index],
    [strings.ReplaceAll], [strings.ToLower], [strconv.Atoi], [strconv.Itoa],
    [regexp.FindStringSubmatch], ...) are modelled by their documented
    behaviour on byte strings. *)

From Stdlib Require Import List ZArith Lia Bool Arith.
From Stdlib Require Import Strings.Byte.
From Stdlib Require Strings.String.
Import ListNotations.
Import String.StringSyntax.

Set Implicit Arguments.

(* ================================================================== *)
(** ** Byte strings *)
(* ================================================================== *)

Definition str : Type := list byte.

(** A Go string literal, written as a Rocq string. *)
Definition lit (s : String.string) : str := String.list_byte_of_string s.
Arguments lit s%_string_scope.

(** The numeric value of a byte. *)
Definition code (b : byte) : Z := Z.of_N (Byte.to_N b).

(** The byte whose value is [z mod 256]. *)
Definition byteOf (z : Z) : byte :=
  match Byte.of_N (Z.to_N (z mod 256)) with
  | Some b => b
  | None => x00
  end.

Definition inRange (lo hi : Z) (b : byte) : bool :=
  ((lo <=? code b) && (code b <=? hi))%Z.

Definition str_eqb (a b : str) : bool :=
  if list_eq_dec Byte.byte_eq_dec a b then true else false.

Lemma str_eqb_eq (a b : str) : str_eqb a b = true <-> a = b.
Proof.
  unfold str_eqb. destruct (list_eq_dec Byte.byte_eq_dec a b); split; congruence.
Qed.

Lemma str_eqb_refl (a : str) : str_eqb a a = true.
Proof. now apply str_eqb_eq. Qed.

(** The double quote, the newline, the tab and the backslash. *)
Definition dquote : str := [x22].
Definition newline : str := [x0a].
Definition tab : str := [x09].
Definition backslash : str := [x5c].

(** *** Character classes *)

(** [\s] of the regexp package (RE2): tab, newline, form feed, carriage
    return and space. *)
Definition re_space (b : byte) : bool :=
  match b with
  | x09 | x0a | x0c | x0d | x20 => true
  | _ => false
  end.

(** The ASCII part of [unicode.IsSpace]: [\t \n \v \f \r] and space. *)
Definition asciiSpace (b : byte) : bool :=
  match b with
  | x09 | x0a | x0b | x0c | x0d | x20 => true
  | _ => false
  end.

Definition isDigit (b : byte) : bool := inRange 48 57 b.
Definition isUpper (b : byte) : bool := inRange 65 90 b.
Definition isLower (b : byte) : bool := inRange 97 122 b.
Definition isLetter (b : byte) : bool := isUpper b || isLower b.

(** [\w]: letters, digits and the underscore. *)
Definition isWord (b : byte) : bool :=
  isLetter b || isDigit b || Byte.eqb b x5f.

(* ------------------------------------------------------------------ *)
(** *** strings.HasPrefix, strings.Index, strings.LastIndex,
        strings.Contains, strings.ReplaceAll *)

Fixpoint HasPrefix (s prefix : str) {struct prefix} : bool :=
  match prefix, s with
  | [], _ => true
  | p :: prefix', c :: s' => Byte.eqb p c && HasPrefix s' prefix'
  | _ :: _, [] => false
  end.

(** [indexFrom s sub i] is the index of the first occurrence of [sub] in [s],
    counting the head of [s] as index [i]; [-1] when there is none. *)
Fixpoint indexFrom (s sub : str) (i : Z) : Z :=
  if HasPrefix s sub then i
  else match s with
       | [] => (-1)%Z
       | _ :: s' => indexFrom s' sub (i + 1)
       end.

Definition Index (s sub : str) : Z := indexFrom s sub 0.

(** [lastIndexFrom s sub i best]: the last occurrence, [best] so far. *)
Fixpoint lastIndexFrom (s sub : str) (i best : Z) : Z :=
  let best' := if HasPrefix s sub then i else best in
  match s with
  | [] => best'
  | _ :: s' => lastIndexFrom s' sub (i + 1) best'
  end.

Definition LastIndex (s sub : str) : Z := lastIndexFrom s sub 0 (-1).

Definition Contains (s sub : str) : bool := (0 <=? Index s sub)%Z.

(** [strings.ReplaceAll s old new] for a non-empty [old]: the occurrences are
    replaced from left to right, without overlap.  [skip] counts the bytes of
    an occurrence still to be dropped. *)
Fixpoint replaceFrom (s old new : str) (skip : nat) : str :=
  match s with
  | [] => []
  | c :: s' =>
      match skip with
      | S k => replaceFrom s' old new k
      | O =>
          if HasPrefix s old
          then new ++ replaceFrom s' old new (length old - 1)
          else c :: replaceFrom s' old new 0
      end
  end.

Definition ReplaceAll (s old new : str) : str := replaceFrom s old new 0.

(** Go slices [s[i:]] and [s[:j]] with in-range indices. *)
Definition sliceFrom (s : str) (i : Z) : str := skipn (Z.to_nat i) s.
Definition sliceTo (s : str) (j : Z) : str := firstn (Z.to_nat j) s.

(* ------------------------------------------------------------------ *)
(** *** strings.TrimSpace

    [strings.TrimSpace] removes the leading and trailing runes for which
    [unicode.IsSpace] holds: the six ASCII ones, U+0085, U+00A0, U+1680,
    U+2000..U+200A, U+2028, U+2029, U+202F, U+205F and U+3000.  The runes are
    read here in their UTF-8 encoding.  A byte that starts no valid encoding
    decodes to U+FFFD, which is no space, so trimming stops there. *)

(** General punctuation block: third byte of E2 80 xx that is a space. *)
Definition spaceE280 (b : byte) : bool :=
  inRange 128 138 b ||
  match b with xa8 | xa9 | xaf => true | _ => false end.

(** Number of bytes of the white-space rune at the head of [s]; 0 if the
    first rune is no space. *)
Definition leadingSpace (s : str) : nat :=
  match s with
  | [] => 0
  | b :: t =>
      if asciiSpace b then 1
      else match b, t with
           | xc2, x85 :: _ => 2
           | xc2, xa0 :: _ => 2
           | xe1, x9a :: x80 :: _ => 3
           | xe2, x80 :: c :: _ => if spaceE280 c then 3 else 0
           | xe2, x81 :: x9f :: _ => 3
           | xe3, x80 :: x80 :: _ => 3
           | _, _ => 0
           end
  end.

(** The same for the last rune, on the reversed string. *)
Definition trailingSpaceRev (r : str) : nat :=
  match r with
  | [] => 0
  | b :: t =>
      if asciiSpace b then 1
      else match t with
           | xc2 :: _ =>
               match b with x85 | xa0 => 2 | _ => 0 end
           | x9a :: xe1 :: _ =>
               match b with x80 => 3 | _ => 0 end
           | x80 :: xe2 :: _ => if spaceE280 b then 3 else 0
           | x81 :: xe2 :: _ =>
               match b with x9f => 3 | _ => 0 end
           | x80 :: xe3 :: _ =>
               match b with x80 => 3 | _ => 0 end
           | _ => 0
           end
  end.

Fixpoint trimLeftN (fuel : nat) (s : str) : str :=
  match fuel with
  | O => s
  | S f =>
      match leadingSpace s with
      | O => s
      | n => trimLeftN f (skipn n s)
      end
  end.

Fixpoint trimRightRevN (fuel : nat) (r : str) : str :=
  match fuel with
  | O => r
  | S f =>
      match trailingSpaceRev r with
      | O => r
      | n => trimRightRevN f (skipn n r)
      end
  end.

Definition trimLeft (s : str) : str := trimLeftN (length s) s.
Definition trimRight (s : str) : str :=
  rev (trimRightRevN (length s) (rev s)).

Definition TrimSpace (s : str) : str := trimRight (trimLeft s).

(* ------------------------------------------------------------------ *)
(** *** strconv.Atoi and strconv.Itoa (64-bit [int]) *)

Definition maxInt64 : Z := 9223372036854775807.
Definition minInt64 : Z := -9223372036854775808.

(** Two's-complement wrap-around of 64-bit signed arithmetic. *)
Definition wrap64 (z : Z) : Z :=
  ((z + 9223372036854775808) mod 18446744073709551616 - 9223372036854775808)%Z.

(** The value of a non-empty run of decimal digits. *)
Fixpoint digitsVal (s : str) (acc : Z) : option Z :=
  match s with
  | [] => Some acc
  | b :: s' =>
      if isDigit b then digitsVal s' (acc * 10 + (code b - 48))%Z else None
  end.

(** [strconv.Atoi]: the value and whether the conversion succeeded.  A
    syntax error yields 0, a value out of range the nearest bound. *)
Definition Atoi (s : str) : Z * bool :=
  let '(neg, ds) :=
    match s with
    | x2d :: t => (true, t)
    | x2b :: t => (false, t)
    | _ => (false, s)
    end in
  match ds with
  | [] => (0%Z, false)
  | _ =>
      match digitsVal ds 0 with
      | None => (0%Z, false)
      | Some v =>
          let v' := if neg then (- v)%Z else v in
          if (maxInt64 <? v')%Z then (maxInt64, false)
          else if (v' <? minInt64)%Z then (minInt64, false)
          else (v', true)
      end
  end.

Definition digitByte (d : Z) : byte := byteOf (48 + d).

Fixpoint digitsOf (fuel : nat) (n : Z) (acc : str) : str :=
  match fuel with
  | O => acc
  | S f =>
      if (n <? 10)%Z then digitByte n :: acc
      else digitsOf f (n / 10)%Z (digitByte (n mod 10) :: acc)
  end.

(** [strconv.Itoa]: decimal, with a minus sign for negatives.  A 64-bit
    integer has at most 19 digits. *)
Definition Itoa (n : Z) : str :=
  if (n <? 0)%Z then x2d :: digitsOf 20 (- n) [] else digitsOf 20 n [].

(* ================================================================== *)
(** ** Regular expressions (package regexp)

    The patterns of the program use literals, character classes, greedy
    repetition of a class, alternation, capturing groups and the anchors
    [^] and [$].  [FindStringSubmatch] returns the leftmost match and, among
    the matches that start there, the one a backtracking search finds first;
    [run] is that backtracking search.  All classes of the patterns are
    defined by ASCII bytes or by their complement, and every literal is ASCII,
    so matching byte by byte yields the same spans as matching rune by
    rune. *)
(* ================================================================== *)

Inductive regex : Type :=
| Eps                              (* the empty pattern *)
| Lit (s : str)                    (* a literal string *)
| Cls (p : byte -> bool)           (* one byte of a class *)
| Cat (r1 r2 : regex)              (* r1 r2 *)
| Alt (r1 r2 : regex)              (* r1|r2, r1 preferred *)
| Star (p : byte -> bool)          (* [class]*, greedy *)
| Plus (p : byte -> bool)          (* [class]+, greedy *)
| Grp (i : nat) (r : regex)        (* capturing group number i *)
| Bot                              (* ^ *)
| Eot.                             (* $ *)

(** The text of each group, [None] while the group has not taken part. *)
Definition Caps : Type := list (option str).

Fixpoint setCap (i : nat) (w : str) (c : Caps) : Caps :=
  match c, i with
  | [], _ => []
  | _ :: c', O => Some w :: c'
  | x :: c', S i' => x :: setCap i' w c'
  end.

(** A continuation receives the position reached, the text that remains and
    the groups captured so far. *)
Definition Cont : Type := nat -> str -> Caps -> option Caps.

(** Greedy repetition: take as many bytes of the class as there are, and
    give them back one at a time while the continuation fails. *)
Fixpoint star (p : byte -> bool) (pos : nat) (rest : str)
         (k : nat -> str -> option Caps) : option Caps :=
  match rest with
  | c :: t =>
      if p c then
        match star p (S pos) t k with
        | Some r => Some r
        | None => k pos rest
        end
      else k pos rest
  | [] => k pos rest
  end.

Fixpoint run (r : regex) (pos : nat) (rest : str) (caps : Caps) (k : Cont)
  : option Caps :=
  match r with
  | Eps => k pos rest caps
  | Lit s =>
      if HasPrefix rest s
      then k (pos + length s) (skipn (length s) rest) caps
      else None
  | Cls p =>
      match rest with
      | c :: t => if p c then k (S pos) t caps else None
      | [] => None
      end
  | Cat r1 r2 =>
      run r1 pos rest caps (fun pos' rest' caps' => run r2 pos' rest' caps' k)
  | Alt r1 r2 =>
      match run r1 pos rest caps k with
      | Some res => Some res
      | None => run r2 pos rest caps k
      end
  | Star p => star p pos rest (fun pos' rest' => k pos' rest' caps)
  | Plus p =>
      match rest with
      | c :: t =>
          if p c then star p (S pos) t (fun pos' rest' => k pos' rest' caps)
          else None
      | [] => None
      end
  | Grp i r1 =>
      run r1 pos rest caps
          (fun pos' rest' caps' =>
             k pos' rest' (setCap i (firstn (pos' - pos) rest) caps'))
  | Bot => if Nat.eqb pos 0 then k pos rest caps else None
  | Eot => match rest with [] => k pos rest caps | _ :: _ => None end
  end.

Definition accept : Cont := fun _ _ caps => Some caps.

(** The unanchored search: the first start position at which the pattern,
    as group 0, matches.  [n] is the number of groups of the pattern. *)
Fixpoint search (re : regex) (n : nat) (pos : nat) (rest : str)
  : option Caps :=
  match run (Grp 0 re) pos rest (repeat None (S n)) accept with
  | Some caps => Some caps
  | None =>
      match rest with
      | [] => None
      | _ :: t => search re n (S pos) t
      end
  end.

Definition capText (c : option str) : str :=
  match c with Some w => w | None => [] end.

(** [FindStringSubmatch]: the text of the match and of the groups, or the
    empty (nil) slice when there is no match. *)
Definition FindStringSubmatch (re : regex) (n : nat) (s : str) : list str :=
  match search re n 0 s with
  | Some caps => map capText caps
  | None => []
  end.

(** Go's indexing [m[i]]. *)
Definition at_ (m : list str) (i : nat) : str := nth i m [].

(** Concatenation of patterns. *)
Fixpoint seq (rs : list regex) : regex :=
  match rs with
  | [] => Eps
  | [r] => r
  | r :: rs' => Cat r (seq rs')
  end.

(** Classes of the program's patterns. *)
Definition notQuote (b : byte) : bool := negb (Byte.eqb b x22).
Definition notColon (b : byte) : bool := negb (Byte.eqb b x3a).
Definition notSpace (b : byte) : bool := negb (re_space b).
Definition anyButNewline (b : byte) : bool := negb (Byte.eqb b x0a).
Definition letterOrSpace (b : byte) : bool := isLetter b || Byte.eqb b x20.
Definition wordDashDot (b : byte) : bool :=
  isWord b || Byte.eqb b x2d || Byte.eqb b x2e.
Definition wordDash (b : byte) : bool := isWord b || Byte.eqb b x2d.
Definition digitOrDot (b : byte) : bool := isDigit b || Byte.eqb b x2e.

(** [(GET|POST|PUT|PATCH|DELETE)] *)
Definition verbs : regex :=
  Alt (Lit (lit "GET"))
      (Alt (Lit (lit "POST"))
           (Alt (Lit (lit "PUT"))
                (Alt (Lit (lit "PATCH")) (Lit (lit "DELETE"))))).

Definition threeDigits : regex :=
  Cat (Cls isDigit) (Cat (Cls isDigit) (Cls isDigit)).

(** The header of the JSON dialect, with Q for the double quote:
    [^(GET|POST|PUT|PATCH|DELETE)\s+Q([^Q]+)Q\s*:\s*(\d{3})\s+([A-Za-z ]+)\s+] *)
Definition jsonHeadRe : regex :=
  seq [ Bot; Grp 1 verbs; Plus re_space;
        Lit dquote; Grp 2 (Plus notQuote); Lit dquote;
        Star re_space; Lit (lit ":"); Star re_space;
        Grp 3 threeDigits; Plus re_space;
        Grp 4 (Plus letterOrSpace); Plus re_space ].

(** The header of the plain dialect:
    [^(GET|POST|PUT|PATCH|DELETE)\s+(\S+):\s+(\d{3})\s+([A-Za-z ]+)\s+-\s+( .* )$], the last group being any run of bytes other than newline. *)
Definition plainHeadRe : regex :=
  seq [ Bot; Grp 1 verbs; Plus re_space;
        Grp 2 (Plus notSpace); Lit (lit ":"); Plus re_space;
        Grp 3 threeDigits; Plus re_space;
        Grp 4 (Plus letterOrSpace); Plus re_space;
        Lit (lit "-"); Plus re_space;
        Grp 5 (Star anyButNewline); Eot ].

(** The rate-limit message:
    [Rate limit reached for ([\w\-.]+) in (organization|project) ([\w-]+) on ([^:]+): Limit (\d+), Used (\d+), Requested (\d+)\. Please try again in ([0-9.]+)s\. Visit (\S+)] *)
Definition rateRe : regex :=
  seq [ Lit (lit "Rate limit reached for "); Grp 1 (Plus wordDashDot);
        Lit (lit " in ");
        Grp 2 (Alt (Lit (lit "organization")) (Lit (lit "project")));
        Lit (lit " "); Grp 3 (Plus wordDash);
        Lit (lit " on "); Grp 4 (Plus notColon);
        Lit (lit ": Limit "); Grp 5 (Plus isDigit);
        Lit (lit ", Used "); Grp 6 (Plus isDigit);
        Lit (lit ", Requested "); Grp 7 (Plus isDigit);
        Lit (lit ". Please try again in "); Grp 8 (Plus digitOrDot);
        Lit (lit "s. Visit "); Grp 9 (Plus notSpace) ].

(** *** What a match is: the declarative reading of the patterns *)

Inductive Matches : regex -> nat -> str -> str -> Caps -> Caps -> Prop :=
| MEps pos rest c : Matches Eps pos [] rest c c
| MLit s pos rest c : Matches (Lit s) pos s rest c c
| MCls p b pos rest c : p b = true -> Matches (Cls p) pos [b] rest c c
| MCat r1 r2 pos w1 w2 rest c c1 c2 :
    Matches r1 pos w1 (w2 ++ rest) c c1 ->
    Matches r2 (pos + length w1) w2 rest c1 c2 ->
    Matches (Cat r1 r2) pos (w1 ++ w2) rest c c2
| MAltL r1 r2 pos w rest c c' :
    Matches r1 pos w rest c c' -> Matches (Alt r1 r2) pos w rest c c'
| MAltR r1 r2 pos w rest c c' :
    Matches r2 pos w rest c c' -> Matches (Alt r1 r2) pos w rest c c'
| MStar p pos w rest c :
    forallb p w = true -> Matches (Star p) pos w rest c c
| MPlus p pos w rest c :
    w <> [] -> forallb p w = true -> Matches (Plus p) pos w rest c c
| MGrp i r pos w rest c c' :
    Matches r pos w rest c c' -> Matches (Grp i r) pos w rest c (setCap i w c')
| MBot rest c : Matches Bot 0 [] rest c c
| MEot pos c : Matches Eot pos [] [] c c.

(* ================================================================== *)
(** ** float64 (strconv.ParseFloat, multiplication, math.Round, conversion)

    The program parses the text of group 8 of [rateRe], a run of digits and
    dots, multiplies the result by [float64(time.Second)], possibly after
    [math.Round], and converts the product to [time.Duration], a 64-bit
    count of nanoseconds.  Only non-negative values and +Inf arise.  A finite
    value is kept as [Fin m e], which stands for m * 2^e; every operation
    rounds its exact result to the nearest binary64 value, ties to even. *)
(* ================================================================== *)

Inductive float64 : Type :=
| Fin (m e : Z)
| PosInf.

(** The integer nearest to num/den, ties to even (0 <= num, 0 < den). *)
Definition roundNE (num den : Z) : Z :=
  let q := (num / den)%Z in
  let r := (num mod den)%Z in
  if (2 * r <? den)%Z then q
  else if (den <? 2 * r)%Z then (q + 1)%Z
  else if Z.even q then q else (q + 1)%Z.

(** floor (log2 (num/den)) for 0 < num, 0 < den. *)
Definition binExp (num den : Z) : Z :=
  let l := (Z.log2 num - Z.log2 den)%Z in
  let above :=
    if (0 <=? l)%Z then (den * 2 ^ l <=? num)%Z
    else (den <=? num * 2 ^ (- l))%Z in
  if above then l else (l - 1)%Z.

(** The binary64 value nearest to num/den: 53 significant bits, exponent of
    the last bit at least -1074, +Inf from 2^1024 on. *)
Definition toFloat64 (num den : Z) : float64 :=
  if (num =? 0)%Z then Fin 0 0
  else
    let e := Z.max (binExp num den - 52) (-1074) in
    let m := if (0 <=? e)%Z then roundNE num (den * 2 ^ e)
             else roundNE (num * 2 ^ (- e)) den in
    if (971 <? e)%Z then PosInf
    else if (e =? 971)%Z && (m =? 2 ^ 53)%Z then PosInf
    else Fin m e.

(** Splits a string at its first dot. *)
Fixpoint splitDot (s : str) : str * option str :=
  match s with
  | [] => ([], None)
  | x2e :: t => ([], Some t)
  | b :: t => let '(i, f) := splitDot t in (b :: i, f)
  end.

(** [strconv.ParseFloat(s, 64)] on a run of digits and dots: the value and
    whether the conversion succeeded.  A syntax error (no digit, or a second
    dot) yields 0; a literal too large yields +Inf and an error. *)
Definition ParseFloat (s : str) : float64 * bool :=
  let '(ip, fp) := splitDot s in
  let fr := match fp with Some f => f | None => [] end in
  match ip ++ fr with
  | [] => (Fin 0 0, false)
  | ds =>
      match digitsVal ds 0 with
      | None => (Fin 0 0, false)
      | Some mant =>
          match toFloat64 mant (10 ^ Z.of_nat (length fr)) with
          | PosInf => (PosInf, false)
          | x => (x, true)
          end
      end
  end.

(** [x * float64(n)] for a positive integer [n] below 2^53. *)
Definition fmulInt (x : float64) (n : Z) : float64 :=
  match x with
  | PosInf => PosInf
  | Fin m e =>
      if (0 <=? e)%Z then toFloat64 (m * n * 2 ^ e) 1
      else toFloat64 (m * n) (2 ^ (- e))
  end.

(** [x > 0] *)
Definition fpositive (x : float64) : bool :=
  match x with
  | PosInf => true
  | Fin m _ => (0 <? m)%Z
  end.

(** [math.Round]: the nearest integer, halves away from zero. *)
Definition math_Round (x : float64) : float64 :=
  match x with
  | PosInf => PosInf
  | Fin m e =>
      if (0 <=? e)%Z then x
      else Fin ((m + 2 ^ (- e - 1)) / 2 ^ (- e)) 0
  end.

(** [time.Second] and [time.Millisecond], in nanoseconds. *)
Definition Second : Z := 1000000000.
Definition Millisecond : Z := 1000000.

Section Conversion.

(** The conversion of a float to [int64] discards the fraction.  For a
    value that does not fit, the result is implementation-dependent (the
    Go specification); it is the parameter [convOverflow]. *)
Variable convOverflow : Z.

Definition toInt64 (x : float64) : Z :=
  match x with
  | PosInf => convOverflow
  | Fin m e =>
      let v := if (0 <=? e)%Z then (m * 2 ^ e)%Z else (m / 2 ^ (- e))%Z in
      if (v <=? maxInt64)%Z then v else convOverflow
  end.

(** [time.Duration(sec * float64(time.Second))] *)
Definition secondsToDuration (sec : float64) : Z :=
  toInt64 (fmulInt sec Second).

End Conversion.

(* ================================================================== *)
(** ** The decoded body (encoding/json)

    The body is decoded into an anonymous struct, [shell], that accepts the
    nested form [{error: {message, type, param, code}}] and the flat form
    with the four fields at top level. *)
(* ================================================================== *)

Record innerErr : Type := mkInner {
  ie_Message : str;
  ie_Type : str;
  ie_Param : option str;
  ie_Code : str
}.

Record shell : Type := mkShell {
  sh_Error : option innerErr;
  sh_Message : str;
  sh_Type : str;
  sh_Param : option str;
  sh_Code : str
}.

Definition zeroInner : innerErr := mkInner [] [] None [].
Definition zeroShell : shell := mkShell None [] [] None [].

(** *** A reference decoder

    [json.Unmarshal] is a parameter of the development below.  To evaluate
    the parsers on concrete texts, [refUnmarshal] decodes JSON texts made of
    objects, arrays, strings with the single-character escapes, numbers and
    the three literals; a key selects a field when it equals the field's
    name up to the case of ASCII letters, a [null] leaves a string field as
    it is, a value of the wrong kind is an error.  It rejects unicode
    escapes, which the texts evaluated below do not contain. *)

#[local] Unset Elimination Schemes.
Inductive json : Type :=
| JNull
| JBool (b : bool)
| JNum
| JStr (s : str)
| JArr (l : list json)
| JObj (l : list (str * json)).
#[local] Set Elimination Schemes.

Definition jsonSpace (b : byte) : bool :=
  match b with x20 | x09 | x0a | x0d => true | _ => false end.

Fixpoint skipWs (s : str) : str :=
  match s with
  | b :: t => if jsonSpace b then skipWs t else s
  | [] => []
  end.

(** The contents of a string literal, after the opening quote. *)
Fixpoint parseString (s : str) : option (str * str) :=
  match s with
  | [] => None
  | x22 :: t => Some ([], t)
  | x5c :: e :: t =>
      let esc :=
        match e with
        | x22 => Some x22 | x5c => Some x5c | x2f => Some x2f
        | x62 => Some x08 | x66 => Some x0c | x6e => Some x0a
        | x72 => Some x0d | x74 => Some x09
        | _ => None
        end in
      match esc, parseString t with
      | Some c, Some (w, r) => Some (c :: w, r)
      | _, _ => None
      end
  | x5c :: [] => None
  | b :: t =>
      if (code b <? 32)%Z then None
      else match parseString t with
           | Some (w, r) => Some (b :: w, r)
           | None => None
           end
  end.

Fixpoint skipDigits (s : str) : str :=
  match s with
  | b :: t => if isDigit b then skipDigits t else s
  | [] => []
  end.

Definition someDigits (s : str) : option str :=
  match s with
  | b :: t => if isDigit b then Some (skipDigits t) else None
  | [] => None
  end.

(** A number: an optional minus sign, an integer part without leading zero,
    an optional fraction and an optional exponent. *)
Definition parseNumber (s : str) : option str :=
  let s1 := match s with x2d :: t => t | _ => s end in
  let afterInt :=
    match s1 with
    | x30 :: t => Some t
    | _ => someDigits s1
    end in
  match afterInt with
  | None => None
  | Some s2 =>
      let afterFrac :=
        match s2 with
        | x2e :: t => someDigits t
        | _ => Some s2
        end in
      match afterFrac with
      | None => None
      | Some s3 =>
          match s3 with
          | x65 :: t | x45 :: t =>
              someDigits (match t with x2b :: u | x2d :: u => u | _ => t end)
          | _ => Some s3
          end
      end
  end.

Fixpoint parseValue (fuel : nat) (s : str) : option (json * str) :=
  match fuel with
  | O => None
  | S f =>
      let members :=
        fix members (n : nat) (s : str) : option (list (str * json) * str) :=
          match n with
          | O => None
          | S n' =>
              match skipWs s with
              | x22 :: t =>
                  match parseString t with
                  | Some (key, r) =>
                      match skipWs r with
                      | x3a :: r1 =>
                          match parseValue f r1 with
                          | Some (v, r2) =>
                              match skipWs r2 with
                              | x2c :: r3 =>
                                  match members n' r3 with
                                  | Some (ms, r4) => Some ((key, v) :: ms, r4)
                                  | None => None
                                  end
                              | x7d :: r3 => Some ([(key, v)], r3)
                              | _ => None
                              end
                          | None => None
                          end
                      | _ => None
                      end
                  | None => None
                  end
              | _ => None
              end
          end in
      let elements :=
        fix elements (n : nat) (s : str) : option (list json * str) :=
          match n with
          | O => None
          | S n' =>
              match parseValue f s with
              | Some (v, r) =>
                  match skipWs r with
                  | x2c :: r1 =>
                      match elements n' r1 with
                      | Some (vs, r2) => Some (v :: vs, r2)
                      | None => None
                      end
                  | x5d :: r1 => Some ([v], r1)
                  | _ => None
                  end
              | None => None
              end
          end in
      match skipWs s with
      | x7b :: t =>
          match skipWs t with
          | x7d :: r => Some (JObj [], r)
          | _ =>
              match members (length t) t with
              | Some (ms, r) => Some (JObj ms, r)
              | None => None
              end
          end
      | x5b :: t =>
          match skipWs t with
          | x5d :: r => Some (JArr [], r)
          | _ =>
              match elements (length t) t with
              | Some (vs, r) => Some (JArr vs, r)
              | None => None
              end
          end
      | x22 :: t =>
          match parseString t with
          | Some (w, r) => Some (JStr w, r)
          | None => None
          end
      | x74 :: x72 :: x75 :: x65 :: r => Some (JBool true, r)
      | x66 :: x61 :: x6c :: x73 :: x65 :: r => Some (JBool false, r)
      | x6e :: x75 :: x6c :: x6c :: r => Some (JNull, r)
      | t =>
          match parseNumber t with
          | Some r => Some (JNum, r)
          | None => None
          end
      end
  end.

Definition lowerByte (b : byte) : byte :=
  if isUpper b then byteOf (code b + 32) else b.

Definition keyIs (key : str) (name : String.string) : bool :=
  str_eqb (map lowerByte key) (lit name).
Arguments keyIs key name%_string_scope.

Definition setString (v : json) (old : str) : option str :=
  match v with
  | JStr s => Some s
  | JNull => Some old
  | _ => None
  end.

Definition setParam (v : json) : option (option str) :=
  match v with
  | JStr s => Some (Some s)
  | JNull => Some None
  | _ => None
  end.

Fixpoint fillInner (ms : list (str * json)) (e : innerErr) : option innerErr :=
  match ms with
  | [] => Some e
  | (key, v) :: ms' =>
      let e' :=
        if keyIs key "message" then
          option_map (fun s => mkInner s (ie_Type e) (ie_Param e) (ie_Code e))
                     (setString v (ie_Message e))
        else if keyIs key "type" then
          option_map (fun s => mkInner (ie_Message e) s (ie_Param e) (ie_Code e))
                     (setString v (ie_Type e))
        else if keyIs key "param" then
          option_map (fun p => mkInner (ie_Message e) (ie_Type e) p (ie_Code e))
                     (setParam v)
        else if keyIs key "code" then
          option_map (fun s => mkInner (ie_Message e) (ie_Type e) (ie_Param e) s)
                     (setString v (ie_Code e))
        else Some e in
      match e' with
      | Some e1 => fillInner ms' e1
      | None => None
      end
  end.

Fixpoint fillShell (ms : list (str * json)) (h : shell) : option shell :=
  match ms with
  | [] => Some h
  | (key, v) :: ms' =>
      let h' :=
        if keyIs key "error" then
          match v with
          | JNull =>
              Some (mkShell None (sh_Message h) (sh_Type h) (sh_Param h)
                            (sh_Code h))
          | JObj ims =>
              let cur := match sh_Error h with
                         | Some e => e
                         | None => zeroInner
                         end in
              option_map
                (fun e => mkShell (Some e) (sh_Message h) (sh_Type h)
                                  (sh_Param h) (sh_Code h))
                (fillInner ims cur)
          | _ => None
          end
        else if keyIs key "message" then
          option_map
            (fun s => mkShell (sh_Error h) s (sh_Type h) (sh_Param h) (sh_Code h))
            (setString v (sh_Message h))
        else if keyIs key "type" then
          option_map
            (fun s => mkShell (sh_Error h) (sh_Message h) s (sh_Param h)
                              (sh_Code h))
            (setString v (sh_Type h))
        else if keyIs key "param" then
          option_map
            (fun p => mkShell (sh_Error h) (sh_Message h) (sh_Type h) p
                              (sh_Code h))
            (setParam v)
        else if keyIs key "code" then
          option_map
            (fun s => mkShell (sh_Error h) (sh_Message h) (sh_Type h)
                              (sh_Param h) s)
            (setString v (sh_Code h))
        else Some h in
      match h' with
      | Some h1 => fillShell ms' h1
      | None => None
      end
  end.

Definition refUnmarshal (data : str) : option shell :=
  match parseValue (S (length data)) data with
  | Some (JObj ms, r) =>
      match skipWs r with
      | [] => fillShell ms zeroShell
      | _ :: _ => None
      end
  | _ => None
  end.

(* ================================================================== *)
(** ** UTF-8 and strings.ToLower *)
(* ================================================================== *)

Definition RuneError : Z := 65533.

(** [utf8.AppendRune]: the UTF-8 encoding of a rune; surrogates and values
    beyond U+10FFFF are encoded as U+FFFD. *)
Definition encodeRune (r : Z) : str :=
  if (r <? 0)%Z then [xef; xbf; xbd]
  else if (r <? 128)%Z then [byteOf r]
  else if (r <? 2048)%Z then
    [byteOf (192 + r / 64); byteOf (128 + r mod 64)]
  else if ((55296 <=? r) && (r <=? 57343))%Z then [xef; xbf; xbd]
  else if (r <? 65536)%Z then
    [byteOf (224 + r / 4096); byteOf (128 + (r / 64) mod 64);
     byteOf (128 + r mod 64)]
  else if (r <=? 1114111)%Z then
    [byteOf (240 + r / 262144); byteOf (128 + (r / 4096) mod 64);
     byteOf (128 + (r / 64) mod 64); byteOf (128 + r mod 64)]
  else [xef; xbf; xbd].

Definition isCont (b : byte) : bool := inRange 128 191 b.

(** The admissible second byte after a three- or four-byte lead
    (the accept ranges of package utf8). *)
Definition second3 (b0 b1 : byte) : bool :=
  match b0 with
  | xe0 => inRange 160 191 b1
  | xed => inRange 128 159 b1
  | _ => isCont b1
  end.

Definition second4 (b0 b1 : byte) : bool :=
  match b0 with
  | xf0 => inRange 144 191 b1
  | xf4 => inRange 128 143 b1
  | _ => isCont b1
  end.

(** [utf8.DecodeRuneInString] on the string [b0 :: t]: the rune and the
    number of bytes it takes beyond [b0].  A byte that starts no valid
    encoding is the rune U+FFFD of width 1. *)
Definition decodeRune (b0 : byte) (t : str) : Z * nat :=
  let bad := (RuneError, 0) in
  if (code b0 <? 128)%Z then (code b0, 0)
  else if inRange 194 223 b0 then
    match t with
    | b1 :: _ =>
        if isCont b1
        then (((code b0 - 192) * 64 + (code b1 - 128))%Z, 1)
        else bad
    | _ => bad
    end
  else if inRange 224 239 b0 then
    match t with
    | b1 :: b2 :: _ =>
        if second3 b0 b1 && isCont b2
        then (((code b0 - 224) * 4096 + (code b1 - 128) * 64
               + (code b2 - 128))%Z, 2)
        else bad
    | _ => bad
    end
  else if inRange 240 244 b0 then
    match t with
    | b1 :: b2 :: b3 :: _ =>
        if second4 b0 b1 && isCont b2 && isCont b3
        then (((code b0 - 240) * 262144 + (code b1 - 128) * 4096
               + (code b2 - 128) * 64 + (code b3 - 128))%Z, 3)
        else bad
    | _ => bad
    end
  else bad.

Section Interpreter.

(** [unicode.ToLower] on a rune above U+007F is given by the Unicode
    tables; it is a parameter. *)
Variable unicodeLower : Z -> Z.

(** [json.Unmarshal(data, &shell)] on a zero [shell]: the decoded value,
    or [None] for an error.  When the first call of the parser fails on a
    text that is syntactically valid, the second call receives the same
    JSON value and fails again; when it fails on the syntax, nothing was
    stored.  So the second call always starts from a zero [shell] as far as
    the result is concerned, and a function of the text describes both
    calls. *)
Variable json_Unmarshal : str -> option shell.

(** The result of converting an out-of-range float to [int64]. *)
Variable convOverflow : Z.

Definition unicode_ToLower (r : Z) : Z :=
  if (r <=? 127)%Z then
    (if ((65 <=? r) && (r <=? 90))%Z then r + 32 else r)%Z
  else unicodeLower r.

(** What [strings.Map] writes for one rune of the input: nothing when the
    mapping is negative. *)
Definition lowered (r : Z) : str :=
  let r' := unicode_ToLower r in
  if (r' <? 0)%Z then [] else encodeRune r'.

(** [strings.ToLower]: the runes of [s], decoded as [range] does, each
    mapped by [unicode.ToLower] and encoded again. *)
Fixpoint ToLower (s : str) : str :=
  match s with
  | [] => []
  | b0 :: t =>
      let '(r, more) := decodeRune b0 t in
      lowered r ++
        match more, t with
        | 1, _ :: t1 => ToLower t1
        | 2, _ :: _ :: t2 => ToLower t2
        | 3, _ :: _ :: _ :: t3 => ToLower t3
        | _, _ => ToLower t
        end
  end.

(* ---------------------------------------------------------------- *)
(** ** error-parser.go: the data model *)

Record OpenAIRateInfo : Type := mkRateInfo {
  Model : str;
  ScopeType : str;
  ScopeID : str;
  Metric : str;
  Limit : Z;
  Used : Z;
  Requested : Z;
  RetryAfter : Z;          (* time.Duration: nanoseconds *)
  DocsURL : str
}.

Record OpenAIError : Type := mkError {
  Method : str;
  URL : str;
  Status : Z;
  Reason : str;
  Message : str;
  Type_ : str;
  Param : option str;
  Code : str;
  RateInfo : option OpenAIRateInfo
}.

(** Assignments to the fields of [e]. *)
Definition withMessage (e : OpenAIError) (v : str) : OpenAIError :=
  mkError (Method e) (URL e) (Status e) (Reason e) v (Type_ e) (Param e)
          (Code e) (RateInfo e).
Definition withType (e : OpenAIError) (v : str) : OpenAIError :=
  mkError (Method e) (URL e) (Status e) (Reason e) (Message e) v (Param e)
          (Code e) (RateInfo e).
Definition withParam (e : OpenAIError) (v : option str) : OpenAIError :=
  mkError (Method e) (URL e) (Status e) (Reason e) (Message e) (Type_ e) v
          (Code e) (RateInfo e).
Definition withCode (e : OpenAIError) (v : str) : OpenAIError :=
  mkError (Method e) (URL e) (Status e) (Reason e) (Message e) (Type_ e)
          (Param e) v (RateInfo e).
Definition withRateInfo (e : OpenAIError) (v : option OpenAIRateInfo)
  : OpenAIError :=
  mkError (Method e) (URL e) (Status e) (Reason e) (Message e) (Type_ e)
          (Param e) (Code e) v.

(** A parser returns the pair [(e, nil)] or [(nil, err)]. *)
Inductive result : Type :=
| Ok (e : OpenAIError)
| Fail (err : str).

(** [(e *OpenAIError) Error()]; the receiver may be nil. *)
Definition Error (e : option OpenAIError) : str :=
  match e with
  | None => lit "<nil>"
  | Some e =>
      Method e ++ lit " " ++ URL e ++ lit ": " ++ Itoa (Status e)
        ++ lit " " ++ Reason e ++ lit " - " ++ Message e
  end.

Definition IsRateLimit (e : option OpenAIError) : bool :=
  match e with
  | None => false
  | Some e =>
      if (Status e =? 429)%Z then true
      else if str_eqb (Code e) (lit "rate_limit_exceeded") then true
      else
        let msg := ToLower (Message e) in
        Contains msg (lit "rate limit")
  end.

Definition IsAuth (e : option OpenAIError) : bool :=
  match e with
  | None => false
  | Some e =>
      if ((Status e =? 401) || (Status e =? 403))%Z then true
      else if str_eqb (Code e) (lit "invalid_api_key")
              || str_eqb (Code e) (lit "invalid_api_key_header")
              || str_eqb (Code e) (lit "account_deactivated")
              || str_eqb (Code e) (lit "organization_deactivated")
      then true
      else false
  end.

Definition IsServerError (e : option OpenAIError) : bool :=
  match e with
  | None => false
  | Some e => ((500 <=? Status e) && (Status e <=? 599))%Z
  end.

(* ---------------------------------------------------------------- *)
(** ** error-parser.go: the parsers *)

(** [n, _ := strconv.Atoi(s)] *)
Definition atoiValue (s : str) : Z := fst (Atoi s).

(** Steps 3 (second half) and 4 of [ParseOpenAIJsonError]: the fields of
    the decoded body, the rate-limit details, the default code. *)
Definition jsonFinish (e : OpenAIError) (sh : shell) : result :=
  let e :=
    match sh_Error sh with
    | Some inner =>
        let e := withMessage e (ie_Message inner) in
        let e := withType e (ie_Type inner) in
        let e := withParam e (ie_Param inner) in
        withCode e (ie_Code inner)
    | None =>
        let e := withMessage e (sh_Message sh) in
        let e := withType e (sh_Type sh) in
        let e := withParam e (sh_Param sh) in
        withCode e (sh_Code sh)
    end in
  let rm := FindStringSubmatch rateRe 9 (Message e) in
  let e :=
    if Nat.eqb (length rm) 10 then
      let limit := atoiValue (at_ rm 5) in
      let used := atoiValue (at_ rm 6) in
      let req := atoiValue (at_ rm 7) in
      let sec := fst (ParseFloat (at_ rm 8)) in
      withRateInfo e
        (Some {| Model := at_ rm 1;
                 ScopeType := at_ rm 2;
                 ScopeID := at_ rm 3;
                 Metric := TrimSpace (at_ rm 4);
                 Limit := limit;
                 Used := used;
                 Requested := req;
                 RetryAfter := secondsToDuration convOverflow sec;
                 DocsURL := at_ rm 9 |})
    else e in
  let e :=
    if str_eqb (Code e) [] && (Status e =? 429)%Z
       && Contains (ToLower (Message e)) (lit "rate limit")
    then withCode e (lit "rate_limit_exceeded")
    else e in
  Ok e.

Definition ParseOpenAIJsonError (raw : str) : result :=
  let raw := TrimSpace raw in
  let m := FindStringSubmatch jsonHeadRe 4 raw in
  if Nat.eqb (length m) 5 then
    let e :=
      {| Method := at_ m 1;
         URL := at_ m 2;
         Status := (let '(s, ok) := Atoi (at_ m 3) in if ok then s else 0%Z);
         Reason := TrimSpace (at_ m 4);
         Message := []; Type_ := []; Param := None; Code := [];
         RateInfo := None |} in
    let i := Index raw (lit "{") in
    if (i =? -1)%Z then Ok e
    else
      let jsonPart := TrimSpace (sliceFrom raw i) in
      let jsonPart := ReplaceAll jsonPart (lit "\n") newline in
      let jsonPart := ReplaceAll jsonPart (lit "\t") tab in
      match json_Unmarshal jsonPart with
      | Some sh => jsonFinish e sh
      | None =>
          let last := LastIndex jsonPart (lit "}") in
          if (0 <? last)%Z then
            match json_Unmarshal (sliceTo jsonPart (last + 1)) with
            | Some sh => jsonFinish e sh
            | None => Ok (withMessage e (TrimSpace jsonPart))
            end
          else Ok (withMessage e (TrimSpace jsonPart))
      end
  else Fail (lit "unrecognized header format").

(** The two stages of [ParseOpenAIJsonError] on their own, to state what the
    parser does with them: the error filled from the header (step 1), and the
    text handed to the decoder (step 2). *)
Definition jsonHeader (raw : str) : option OpenAIError :=
  let raw := TrimSpace raw in
  let m := FindStringSubmatch jsonHeadRe 4 raw in
  if Nat.eqb (length m) 5 then
    Some {| Method := at_ m 1;
            URL := at_ m 2;
            Status := (let '(s, ok) := Atoi (at_ m 3) in if ok then s else 0%Z);
            Reason := TrimSpace (at_ m 4);
            Message := []; Type_ := []; Param := None; Code := [];
            RateInfo := None |}
  else None.

Definition jsonBody (raw : str) : option str :=
  let raw := TrimSpace raw in
  let i := Index raw (lit "{") in
  if (i =? -1)%Z then None
  else
    let jsonPart := TrimSpace (sliceFrom raw i) in
    let jsonPart := ReplaceAll jsonPart (lit "\n") newline in
    Some (ReplaceAll jsonPart (lit "\t") tab).

(** The decoding of step 3 with its tolerance of a truncated body: the
    whole text, else the text up to the last closing brace. *)
Definition decodeBody (jsonPart : str) : option shell :=
  match json_Unmarshal jsonPart with
  | Some sh => Some sh
  | None =>
      let last := LastIndex jsonPart (lit "}") in
      if (0 <? last)%Z then json_Unmarshal (sliceTo jsonPart (last + 1))
      else None
  end.

(** The fields of the decoded body that the parser reads: those of the
    nested object when the body has one. *)
Definition shellMessage (sh : shell) : str :=
  match sh_Error sh with Some i => ie_Message i | None => sh_Message sh end.
Definition shellType (sh : shell) : str :=
  match sh_Error sh with Some i => ie_Type i | None => sh_Type sh end.
Definition shellParam (sh : shell) : option str :=
  match sh_Error sh with Some i => ie_Param i | None => sh_Param sh end.
Definition shellCode (sh : shell) : str :=
  match sh_Error sh with Some i => ie_Code i | None => sh_Code sh end.

Definition ParseOpenAIPlainError (raw : str) : result :=
  let raw := TrimSpace raw in
  let m := FindStringSubmatch plainHeadRe 5 raw in
  if negb (Nat.eqb (length m) 6) then Fail (lit "unrecognized error format")
  else
    let status := atoiValue (at_ m 3) in
    let e :=
      {| Method := at_ m 1;
         URL := at_ m 2;
         Status := status;
         Reason := TrimSpace (at_ m 4);
         Message := TrimSpace (at_ m 5);
         Type_ := []; Param := None; Code := []; RateInfo := None |} in
    let rm := FindStringSubmatch rateRe 9 (Message e) in
    let e :=
      if Nat.eqb (length rm) 10 then
        let limit := atoiValue (at_ rm 5) in
        let used := atoiValue (at_ rm 6) in
        let req := atoiValue (at_ rm 7) in
        let sec := fst (ParseFloat (at_ rm 8)) in
        let sec := if fpositive sec then math_Round sec else sec in
        let ri :=
          {| Model := at_ rm 1;
             ScopeType := at_ rm 2;
             ScopeID := at_ rm 3;
             Metric := TrimSpace (at_ rm 4);
             Limit := limit;
             Used := used;
             Requested := req;
             RetryAfter := secondsToDuration convOverflow sec;
             DocsURL := at_ rm 9 |} in
        let e := withRateInfo e (Some ri) in
        let metricLower := ToLower (Metric ri) in
        let e :=
          if Contains metricLower (lit "token") then withType e (lit "tokens")
          else if Contains metricLower (lit "requests")
               then withType e (lit "requests")
               else withType e [] in
        if (Status e =? 429)%Z
           && Contains (ToLower (Message e)) (lit "rate limit")
        then withCode e (lit "rate_limit_exceeded")
        else e
      else e in
    Ok e.

(* ---------------------------------------------------------------- *)
(** ** The retry loop of generateJsonContent

    The request [client.Chat.Completions.New] is an external call: the
    [k]-th call answers [api k], a completion or an error whose text is
    [err.Error()].  The loop is run on a state that counts the calls and
    records the calls and the sleeps in order. *)

Variable Completion : Type.

Inductive response : Type :=
| Answer (c : Completion)
| Failure (rawError : str).

Variable api : nat -> response.

Inductive event : Type :=
| EvCall
| EvSleep (d : Z).

Record world : Type := mkWorld {
  calls : nat;
  trace : list event
}.

Definition callApi (w : world) : response * world :=
  (api (calls w), mkWorld (S (calls w)) (trace w ++ [EvCall])).

Definition sleep (d : Z) (w : world) : world :=
  mkWorld (calls w) (trace w ++ [EvSleep d]).

(** How the function leaves the loop: it returns the error (wrapped by
    [log.WrapError]), or goes on with [chatCompletion]. *)
Inductive outcome : Type :=
| Returned (err : str)
| Proceeds (chatCompletion : option Completion).

(** [for range n { ... }] followed by [if err != nil { return }]; the
    variables [chatCompletion] and [err] are those of the function. *)
Fixpoint retryLoop (n : nat) (chatCompletion : option Completion)
         (err : option str) (w : world) : outcome * world :=
  match n with
  | O =>
      match err with
      | Some rawError => (Returned rawError, w)
      | None => (Proceeds chatCompletion, w)
      end
  | S n' =>
      let '(r, w) := callApi w in
      match r with
      | Failure rawError =>
          let r1 :=
            match ParseOpenAIJsonError rawError with
            | Fail _ => ParseOpenAIPlainError rawError
            | Ok e => Ok e
            end in
          match r1 with
          | Fail _ => (Returned rawError, w)
          | Ok e =>
              match RateInfo e with
              | Some ri =>
                  if (Status e =? 429)%Z
                     && str_eqb (Code e) (lit "rate_limit_exceeded")
                  then
                    let w := sleep (wrap64 (RetryAfter ri + 100 * Millisecond)) w in
                    retryLoop n' None (Some rawError) w
                  else (Returned rawError, w)
              | None => (Returned rawError, w)
              end
          end
      | Answer c => (Proceeds (Some c), w)
      end
  end.

(** What one round of the loop does with the text of an error: the first
    parser, then the second if the first rejects the header. *)
Definition parseRawError (rawError : str) : result :=
  match ParseOpenAIJsonError rawError with
  | Fail _ => ParseOpenAIPlainError rawError
  | Ok e => Ok e
  end.

(** The condition under which the loop sleeps [d] and goes on. *)
Definition Retryable (rawError : str) (d : Z) : Prop :=
  exists e ri,
    parseRawError rawError = Ok e /\
    Status e = 429%Z /\ Code e = lit "rate_limit_exceeded" /\
    RateInfo e = Some ri /\
    d = wrap64 (RetryAfter ri + 100 * Millisecond).

Definition generateJsonContent_retry : outcome * world :=
  retryLoop 3 None None (mkWorld 0 []).

End Interpreter.

Arguments Failure {Completion} rawError.
Arguments Returned {Completion} err.

(* ================================================================== *)
(** ** Lines of a reply: strings.Split, strings.Join, stripJSONWrapper *)
(* ================================================================== *)

(** [explode] of the strings package: the UTF-8 sequences of [s], one
    string each (what [Split] returns for an empty separator). *)
Fixpoint explode (fuel : nat) (s : str) : list str :=
  match fuel, s with
  | S f, b0 :: t =>
      let size := S (snd (decodeRune b0 t)) in
      firstn size s :: explode f (skipn size s)
  | _, _ => []
  end.

(** The loop of [genSplit]: cut at each occurrence of [sep], left to right,
    occurrences not overlapping. *)
Fixpoint splitLoop (fuel : nat) (s sep : str) : list str :=
  match fuel with
  | O => [s]
  | S f =>
      let m := Index s sep in
      if (m <? 0)%Z then [s]
      else sliceTo s m
             :: splitLoop f (sliceFrom s (m + Z.of_nat (length sep))) sep
  end.

(** [strings.Split(s, sep)] *)
Definition Split (s sep : str) : list str :=
  match sep with
  | [] => explode (length s) s
  | _ => splitLoop (length s) s sep
  end.

(** [strings.Join(elems, sep)] *)
Fixpoint Join (elems : list str) (sep : str) : str :=
  match elems with
  | [] => []
  | [x] => x
  | x :: rest => x ++ sep ++ Join rest sep
  end.

(** The slice expression [a[lo:hi]] on a slice whose capacity is its
    length, as [Split] returns it; [None] is the run-time panic for bounds
    out of range. *)
Definition sliceList (a : list str) (lo hi : nat) : option (list str) :=
  if (lo <=? hi) && (hi <=? length a)
  then Some (firstn (hi - lo) (skipn lo a))
  else None.

(** A line that is the opening fence, and one that is the closing fence:
    the comparisons [xmsg == ...] and [ymsg == ...] after trimming. *)
Definition opens (l : str) : Prop := TrimSpace l = lit "```json".
Definition closes (l : str) : Prop := TrimSpace l = lit "```".

(** What a scan of [stripJSONWrapper] ends with. *)
Inductive scan : Type :=
| Return (r : option str)
| Goes.

(** The inner loop, [for y, ymsg := range msgList[x:]], at index [y] with
    [rest] the elements still to visit. *)
Fixpoint closingFence (msgList : list str) (x y : nat) (rest : list str)
  : scan :=
  match rest with
  | [] => Goes
  | ymsg :: rest' =>
      if str_eqb (TrimSpace ymsg) (lit "```")
      then Return (option_map (fun l => Join l newline)
                              (sliceList msgList (x + 1) (x + y)))
      else closingFence msgList x (S y) rest'
  end.

(** The outer loop, [for x, xmsg := range msgList], at index [x]. *)
Fixpoint openingFence (data : str) (msgList : list str) (x : nat)
         (rest : list str) : option str :=
  match rest with
  | [] => Some data
  | xmsg :: rest' =>
      if str_eqb (TrimSpace xmsg) (lit "```json") then
        match closingFence msgList x 0 (skipn x msgList) with
        | Return r => r
        | Goes => openingFence data msgList (S x) rest'
        end
      else openingFence data msgList (S x) rest'
  end.

(** [stripJSONWrapper]; [None] stands for a panic. *)
Definition stripJSONWrapper (data : str) : option str :=
  let msgList := Split data newline in
  openingFence data msgList 0 msgList.

(** The name handed to [openai.File] in [getFilePart]: the last element of
    [fileReader.Name()] split at the slashes, the empty string when there is
    none.  [Name] of an opened file is the name that was given to
    [os.Open], here [fileName]. *)
Definition lastElement (s : list str) : str :=
  if (0 <? length s) then nth (length s - 1) s [] else [].

Definition uploadName (fileName : str) : str :=
  lastElement (Split fileName (lit "/")).

(* ================================================================== *)
(** ** Ranges of the floats of the model *)
(* ================================================================== *)

(** A float of the model that is not negative. *)
Definition nonneg (x : float64) : Prop :=
  match x with
  | PosInf => True
  | Fin m _ => (0 <= m)%Z
  end.

(** A float of the model between 0 and 2^k. *)
Definition atMost (x : float64) (k : Z) : Prop :=
  match x with
  | PosInf => False
  | Fin m e =>
      (0 <= m)%Z /\
      if (0 <=? e)%Z then (m * 2 ^ e <= 2 ^ k)%Z else (m <= 2 ^ (k - e))%Z
  end.

(* ================================================================== *)
(** ** The costs of the calls: AddCosts, TotalCosts *)
(* ================================================================== *)

(** The fields of [openai.CompletionUsage] that [AddCosts] reads. *)
Record CompletionUsage : Type := mkUsage {
  u_PromptTokens : Z;
  u_CompletionTokens : Z;
  u_TotalTokens : Z
}.

Section Costs.

(** The float64 values and the operations on them that the two methods
    use: the conversion of an int64, division, multiplication, addition,
    and the constants 0.0, 1000.0, 0.005 and 0.015.  What follows holds
    whatever their rounding. *)
Variable F : Type.
Variable ofInt64 : Z -> F.
Variable fdiv fmul fadd : F -> F -> F.
Variable f0 f1000 f0_005 f0_015 : F.

Record chatCosts : Type := mkCosts {
  PromptTokens : Z;
  CompletionTokens : Z;
  PromptPrice : F;
  CompletionPrice : F;
  TotalCost : F
}.

(** [AddCosts] on the slice [ai.Costs], the only field it changes (the
    calls of [log.Debug] are left out). *)
Definition AddCosts (Costs : list chatCosts) (usage : CompletionUsage)
  : list chatCosts :=
  let promptPrice := f0_005 in
  let completionPrice := f0_015 in
  let pt := ofInt64 (u_PromptTokens usage) in
  let ct := ofInt64 (u_CompletionTokens usage) in
  let cost := fadd (fmul (fdiv pt f1000) promptPrice)
                   (fmul (fdiv ct f1000) completionPrice) in
  Costs ++ [ {| PromptTokens := u_PromptTokens usage;
                CompletionTokens := u_CompletionTokens usage;
                PromptPrice := promptPrice;
                CompletionPrice := completionPrice;
                TotalCost := cost |} ].

(** [TotalCosts]: the loop [total += cost.TotalCost] from 0.0. *)
Definition TotalCosts (Costs : list chatCosts) : F :=
  fold_left (fun total cost => fadd total (TotalCost cost)) Costs f0.

End Costs.

(** The decimal that a seconds text denotes, as [strconv.ParseFloat] reads
    it: the number [mant] written by the digits before and after the dot,
    over [den], the power of ten of the digits after the dot. *)
Definition decimalOf (s : str) : option (Z * Z) :=
  let '(ip, fp) := splitDot s in
  let fr := match fp with Some f => f | None => [] end in
  match digitsVal (ip ++ fr) 0 with
  | Some mant => Some (mant, (10 ^ Z.of_nat (length fr))%Z)
  | None => None
  end.

(** The number of digits before the dot. *)
Definition integerDigits (s : str) : nat := length (fst (splitDot s)).

(* ================================================================== *)
(** ** Inputs of the examples *)
(* ================================================================== *)


(** An instance of the Unicode table for the examples: the capital letters
    of Latin-1, the dotted capital I and the Kelvin sign.  The inputs below
    are ASCII, on which the table is not consulted. *)
Definition exampleLower (r : Z) : Z :=
  if ((192 <=? r) && (r <=? 222) && negb (r =? 215))%Z then (r + 32)%Z
  else if (r =? 304)%Z then 105%Z
  else if (r =? 8490)%Z then 107%Z
  else r.

(** A complete input of the JSON dialect whose body carries a code of its
    own: POST, status 429, message [Rate limit hit], code [quota]. *)
Definition quotaInput : str :=
  lit "POST " ++ dquote ++ lit "https://api.openai.com/v1/chat/completions"
    ++ dquote ++ lit ": 429 Too Many Requests {" ++ dquote ++ lit "message"
    ++ dquote ++ lit ": " ++ dquote ++ lit "Rate limit hit" ++ dquote
    ++ lit ", " ++ dquote ++ lit "code" ++ dquote ++ lit ": " ++ dquote
    ++ lit "quota" ++ dquote ++ lit "}".

(** The same header with a body that the decoder accepts only up to its
    last closing brace. *)
Definition truncatedInput : str :=
  lit "POST " ++ dquote ++ lit "https://api.openai.com/v1/chat/completions"
    ++ dquote ++ lit ": 429 Too Many Requests {" ++ dquote ++ lit "message"
    ++ dquote ++ lit ": " ++ dquote ++ lit "Rate limit hit" ++ dquote
    ++ lit "} and more".

(** The input of the repository's test of the JSON dialect. *)
Definition rateLimitMessage (retry : str) : str :=
  lit "Rate limit reached for gpt-4.1 in organization org-YvWUPqaYaDO3IEven3giqHwj on tokens per min (TPM): Limit 30000, Used 30000, Requested 1741. Please try again in "
    ++ retry
    ++ lit "s. Visit https://platform.openai.com/account/rate-limits to learn more.".

Definition rateLimitJsonInput : str :=
  lit "POST " ++ dquote ++ lit "https://api.openai.com/v1/chat/completions"
    ++ dquote ++ lit ": 429 Too Many Requests {" ++ newline
    ++ lit "        " ++ dquote ++ lit "message" ++ dquote ++ lit ": "
    ++ dquote ++ rateLimitMessage (lit "3.482") ++ dquote ++ lit "," ++ newline
    ++ lit "        " ++ dquote ++ lit "type" ++ dquote ++ lit ": "
    ++ dquote ++ lit "tokens" ++ dquote ++ lit "," ++ newline
    ++ lit "        " ++ dquote ++ lit "param" ++ dquote ++ lit ": null,"
    ++ newline
    ++ lit "        " ++ dquote ++ lit "code" ++ dquote ++ lit ": "
    ++ dquote ++ lit "rate_limit_exceeded" ++ dquote ++ newline
    ++ lit "    }".

(** The plain dialect, as in the repository's second test. *)
Definition rateLimitPlainInput : str :=
  lit "POST https://api.openai.com/v1/chat/completions: 429 Too Many Requests - "
    ++ rateLimitMessage (lit "3.789").

(** The rate-limit message under a status that is not 429. *)
Definition rateLimit503Input : str :=
  lit "POST https://api.openai.com/v1/chat/completions: 503 Service Unavailable - "
    ++ rateLimitMessage (lit "3.789").

(** An error with the fields of a plain rate-limit reply. *)
Definition exampleError : OpenAIError :=
  {| Method := lit "POST";
     URL := lit "https://api.openai.com/v1/chat/completions";
     Status := 429;
     Reason := lit "Too Many Requests";
     Message := lit "Rate limit reached";
     Type_ := []; Param := None; Code := []; RateInfo := None |}.

(** A header of the JSON dialect with nothing after its reason. *)
Definition headerOnlyInput : str :=
  lit "POST " ++ dquote ++ lit "https://api.openai.com/v1/chat/completions"
    ++ dquote ++ lit ": 429 Too Many Requests".

(** A reply that wraps its JSON in a fence, and one without a fence. *)
Definition fencedLines : list str :=
  [lit "Here is the result:"; lit "```json"; lit "{"; lit "}"; lit "```";
   lit "Done."].

Definition unfencedReply : str := lit "{" ++ newline ++ lit "}".

(** A service that fails once with the rate-limit reply of the JSON dialect
    and answers the second call. *)
Definition failsOnce (k : nat) : response unit :=
  match k with
  | O => Failure rateLimitJsonInput
  | S _ => Answer tt
  end.

(** A plain reply with status 429 whose message names the rate limit
    without the sentence of the details. *)
Definition plainNoDetailsInput : str :=
  lit "POST https://api.openai.com/v1/chat/completions: 429 Too Many Requests - Rate limit reached".

(** A reply of the JSON dialect whose body lacks its closing brace. *)
Definition unclosedBodyInput : str :=
  lit "POST " ++ dquote ++ lit "https://api.openai.com/v1/chat/completions"
    ++ dquote ++ lit ": 429 Too Many Requests {" ++ dquote ++ lit "message"
    ++ dquote ++ lit ": " ++ dquote ++ lit "Rate limit hit" ++ dquote.

(** Inputs of the JSON dialect, built from a header and a body. *)
Definition jsonInput (verb url status reason body : str) : str :=
  verb ++ lit " " ++ dquote ++ url ++ dquote ++ lit ": " ++ status
    ++ lit " " ++ reason ++ lit " " ++ body.

Definition messageBody (message : str) : str :=
  lit "{" ++ dquote ++ lit "message" ++ dquote ++ lit ": " ++ dquote
    ++ message ++ dquote ++ lit "}".

(** A server error whose body carries a code and no message. *)
Definition noMessageInput : str :=
  jsonInput (lit "POST") (lit "https://api.openai.com/v1/chat/completions")
    (lit "500") (lit "Internal Server Error")
    (lit "{" ++ dquote ++ lit "code" ++ dquote ++ lit ": " ++ dquote
       ++ lit "server_error" ++ dquote ++ lit "}").

(** Three digits that are no status between 100 and 599. *)
Definition status999Input : str :=
  jsonInput (lit "GET") (lit "http://x/y") (lit "999") (lit "Unknown")
    (messageBody (lit "m")).

Definition status042Input : str :=
  jsonInput (lit "GET") (lit "http://x/y") (lit "042") (lit "Odd")
    (messageBody (lit "m")).

(** A quoted URL that holds a space. *)
Definition urlSpaceInput : str :=
  jsonInput (lit "GET") (lit "http://x/a b") (lit "404") (lit "Not Found")
    (messageBody (lit "m")).

(** A reason that is one space. *)
Definition blankReasonInput : str :=
  jsonInput (lit "POST") (lit "http://x/y") (lit "429") (lit " ")
    (messageBody (lit "m")).

(** A message that starts with a space. *)
Definition paddedMessageInput : str :=
  jsonInput (lit "GET") (lit "http://x/y") (lit "404") (lit "Not Found")
    (messageBody (lit " m")).

(** A body of two lines that is not JSON. *)
Definition twoLineBodyInput : str :=
  jsonInput (lit "GET") (lit "http://x/y") (lit "502") (lit "Bad Gateway")
    (lit "{upstream" ++ newline ++ lit "failed").


(* ================================================================== *)
(** * Properties *)
(* ================================================================== *)

(** ** The search is sound for the declarative reading *)

Lemma HasPrefix_split (s p : str) :
  HasPrefix s p = true -> s = p ++ skipn (length p) s.
Proof.
  revert s; induction p as [|a p IH]; intros s H; [reflexivity|].
  destruct s as [|c s]; [discriminate|]. simpl in H.
  apply andb_true_iff in H. destruct H as [H1 H2].
  apply Byte.byte_dec_bl in H1. subst c. simpl. f_equal. now apply IH.
Qed.

Lemma HasPrefix_app (p rest : str) : HasPrefix (p ++ rest) p = true.
Proof.
  induction p as [|a p IH]; [reflexivity|]. simpl.
  rewrite IH, andb_true_r. now apply Byte.byte_dec_lb.
Qed.

Lemma star_sound p : forall input pos k res,
  star p pos input k = Some res ->
  exists w rest, input = w ++ rest /\ forallb p w = true /\
                 k (pos + length w) rest = Some res.
Proof.
  induction input as [|c t IH]; intros pos k res H; simpl in H.
  - exists [], []. simpl. rewrite Nat.add_0_r. auto.
  - destruct (p c) eqn:Hc.
    + destruct (star p (S pos) t k) eqn:Hs.
      * inversion H; subst. apply IH in Hs.
        destruct Hs as (w & rest & -> & Hw & Hk).
        exists (c :: w), rest. simpl. rewrite Hc, Hw. repeat split.
        now rewrite Nat.add_succ_r.
      * exists [], (c :: t). simpl. rewrite Nat.add_0_r. auto.
    + exists [], (c :: t). simpl. rewrite Nat.add_0_r. auto.
Qed.

Lemma run_sound : forall r pos input caps k res,
  run r pos input caps k = Some res ->
  exists w rest c',
    input = w ++ rest /\ Matches r pos w rest caps c' /\
    k (pos + length w) rest c' = Some res.
Proof.
  induction r; intros pos input caps k res H; simpl in H.
  - exists [], input, caps. simpl. rewrite Nat.add_0_r.
    repeat split; auto. constructor.
  - destruct (HasPrefix input s) eqn:Hp; [|discriminate].
    exists s, (skipn (length s) input), caps. repeat split; auto.
    + now apply HasPrefix_split.
    + constructor.
  - destruct input as [|c t]; [discriminate|].
    destruct (p c) eqn:Hc; [|discriminate].
    exists [c], t, caps. simpl. rewrite Nat.add_1_r. repeat split; auto.
    now constructor.
  - apply IHr1 in H. destruct H as (w1 & rest1 & c1 & -> & M1 & H).
    apply IHr2 in H. destruct H as (w2 & rest2 & c2 & -> & M2 & H).
    exists (w1 ++ w2), rest2, c2. rewrite <- app_assoc. repeat split.
    + econstructor; eauto.
    + now rewrite length_app, Nat.add_assoc.
  - destruct (run r1 pos input caps k) eqn:H1.
    + inversion H; subst. apply IHr1 in H1.
      destruct H1 as (w & rest & c' & -> & M & Hk).
      exists w, rest, c'. repeat split; auto. now apply MAltL.
    + apply IHr2 in H. destruct H as (w & rest & c' & -> & M & Hk).
      exists w, rest, c'. repeat split; auto. now apply MAltR.
  - apply star_sound in H. destruct H as (w & rest & -> & Hw & Hk).
    exists w, rest, caps. repeat split; auto. now constructor.
  - destruct input as [|c t]; [discriminate|].
    destruct (p c) eqn:Hc; [|discriminate].
    apply star_sound in H. destruct H as (w & rest & -> & Hw & Hk).
    exists (c :: w), rest, caps. repeat split.
    + constructor; [discriminate|]. simpl. now rewrite Hc.
    + simpl. now rewrite Nat.add_succ_r.
  - apply IHr in H. destruct H as (w & rest & c' & -> & M & Hk).
    exists w, rest, (setCap i w c'). repeat split.
    + now constructor.
    + replace (pos + length w - pos) with (length w) in Hk by lia.
      rewrite firstn_app, Nat.sub_diag, firstn_all in Hk. simpl in Hk.
      now rewrite app_nil_r in Hk.
  - destruct (Nat.eqb pos 0) eqn:Hp; [|discriminate].
    apply Nat.eqb_eq in Hp. subst pos.
    exists [], input, caps. repeat split; auto. constructor.
  - destruct input; [|discriminate].
    exists [], [], caps. simpl. rewrite Nat.add_0_r. repeat split; auto.
    constructor.
Qed.

Lemma setCap_length i w c : length (setCap i w c) = length c.
Proof.
  revert i; induction c as [|x c IH]; intros [|i]; simpl; auto.
Qed.

Lemma Matches_length r pos w rest c c' :
  Matches r pos w rest c c' -> length c' = length c.
Proof.
  induction 1; auto; try congruence.
  now rewrite setCap_length.
Qed.

Lemma run_group0 re pos s c0 caps :
  run (Grp 0 re) pos s c0 accept = Some caps ->
  exists w rest c',
    s = w ++ rest /\ Matches re pos w rest c0 c' /\ caps = setCap 0 w c'.
Proof.
  intros H. apply run_sound in H.
  destruct H as (w & rest & c1 & -> & M & Hk).
  unfold accept in Hk. inversion Hk; subst. inversion M; subst.
  exists w, rest, c'. auto.
Qed.

(** The search finds a match of the whole pattern, as group 0, somewhere in
    the text. *)
Lemma search_sound re n : forall s pos caps,
  search re n pos s = Some caps ->
  exists a w b c',
    s = a ++ w ++ b /\
    Matches re (pos + length a) w b (repeat None (S n)) c' /\
    caps = setCap 0 w c'.
Proof.
  induction s as [|x s IH]; intros pos caps H; simpl in H.
  all: match type of H with
       | match ?R with _ => _ end = _ => destruct R eqn:Hr
       end.
  - inversion H; subst. apply run_group0 in Hr.
    destruct Hr as (w & rest & c' & E & M & ->).
    exists [], w, rest, c'. simpl. rewrite Nat.add_0_r. auto.
  - discriminate.
  - inversion H; subst. apply run_group0 in Hr.
    destruct Hr as (w & rest & c' & E & M & ->).
    exists [], w, rest, c'. simpl. rewrite Nat.add_0_r. auto.
  - apply IH in H. destruct H as (a & w & b & c' & -> & M & ->).
    exists (x :: a), w, b, c'. simpl. rewrite Nat.add_succ_r. auto.
Qed.

Lemma FindStringSubmatch_length re n s :
  FindStringSubmatch re n s = [] \/
  length (FindStringSubmatch re n s) = S n.
Proof.
  unfold FindStringSubmatch. destruct (search re n 0 s) as [caps|] eqn:H; auto.
  right. apply search_sound in H. destruct H as (a & w & b & c' & _ & M & ->).
  rewrite length_map, setCap_length. apply Matches_length in M.
  now rewrite M, repeat_length.
Qed.

(** ** Searching for a byte or a substring *)

Lemma HasPrefix_byte (s : str) (c : byte) :
  HasPrefix s [c] = true <-> exists t, s = c :: t.
Proof.
  destruct s as [|b t]; simpl.
  - split; [discriminate|]. intros [t H]. discriminate.
  - rewrite andb_true_r. split.
    + intros H. apply Byte.byte_dec_bl in H. subst. eauto.
    + intros [t' H]. inversion H; subst. now apply Byte.byte_dec_lb.
Qed.

Lemma HasPrefix_byte_false (s : str) (b c : byte) :
  b <> c -> HasPrefix (b :: s) [c] = false.
Proof.
  intros H. destruct (HasPrefix (b :: s) [c]) eqn:E; auto.
  apply HasPrefix_byte in E. destruct E as [t E]. congruence.
Qed.

Lemma indexFrom_byte (c : byte) : forall (a t : str) (i : Z),
  ~ In c a -> indexFrom (a ++ c :: t) [c] i = (i + Z.of_nat (length a))%Z.
Proof.
  induction a as [|b a IH]; intros t i H.
  - cbn [app indexFrom]. replace (HasPrefix (c :: t) [c]) with true.
    + simpl. lia.
    + symmetry. apply HasPrefix_byte. eauto.
  - cbn [app indexFrom]. rewrite HasPrefix_byte_false.
    + rewrite IH; [|intros F; apply H; now right].
      cbn [length]. lia.
    + intros ->. apply H. now left.
Qed.

Lemma indexFrom_absent (c : byte) : forall (s : str) (i : Z),
  ~ In c s -> indexFrom s [c] i = (-1)%Z.
Proof.
  induction s as [|b s IH]; intros i H; [reflexivity|].
  cbn [indexFrom]. rewrite HasPrefix_byte_false.
  - apply IH. intros F. apply H. now right.
  - intros ->. apply H. now left.
Qed.

Lemma lastIndexFrom_absent (c : byte) : forall (s : str) (i best : Z),
  ~ In c s -> lastIndexFrom s [c] i best = best.
Proof.
  induction s as [|b s IH]; intros i best H; [reflexivity|].
  cbn [lastIndexFrom]. rewrite HasPrefix_byte_false.
  - apply IH. intros F. apply H. now right.
  - intros ->. apply H. now left.
Qed.

(** [LastIndex] for a byte: either the byte does not occur, or the text
    splits at its last occurrence. *)
Lemma lastIndexFrom_spec (c : byte) : forall (s : str) (i best : Z),
  (~ In c s /\ lastIndexFrom s [c] i best = best) \/
  (exists a t, s = a ++ c :: t /\ ~ In c t /\
               lastIndexFrom s [c] i best = (i + Z.of_nat (length a))%Z).
Proof.
  induction s as [|b s IH]; intros i best.
  - left. split; auto.
  - cbn [lastIndexFrom].
    destruct (Byte.byte_eq_dec b c) as [->|Hb].
    + replace (HasPrefix (c :: s) [c]) with true
        by (symmetry; apply HasPrefix_byte; eauto).
      right. destruct (IH (i + 1)%Z i) as [[Hn E]|(a & t & -> & Ht & E)].
      * exists [], s. repeat split; auto. rewrite E. simpl. lia.
      * exists (c :: a), t. repeat split; auto. rewrite E.
        cbn [length]. lia.
    + rewrite HasPrefix_byte_false by auto.
      destruct (IH (i + 1)%Z best) as [[Hn E]|(a & t & -> & Ht & E)].
      * left. split; auto. intros [F|F]; auto.
      * right. exists (b :: a), t. repeat split; auto. rewrite E.
        cbn [length]. lia.
Qed.

Lemma LastIndex_byte (c : byte) (s : str) :
  (~ In c s /\ LastIndex s [c] = (-1)%Z) \/
  (exists a t, s = a ++ c :: t /\ ~ In c t /\
               LastIndex s [c] = Z.of_nat (length a) /\
               sliceTo s (LastIndex s [c] + 1) = a ++ [c]).
Proof.
  unfold LastIndex.
  destruct (lastIndexFrom_spec c s 0 (-1)) as [H|(a & t & -> & Ht & E)]; auto.
  right. exists a, t. repeat split; auto. unfold sliceTo. rewrite E.
  replace (Z.to_nat (0 + Z.of_nat (length a) + 1)) with (length (a ++ [c]))
    by (rewrite length_app; simpl; lia).
  change (a ++ c :: t) with (a ++ [c] ++ t). rewrite app_assoc.
  rewrite firstn_app, Nat.sub_diag, firstn_all. simpl. now rewrite app_nil_r.
Qed.

Lemma indexFrom_found (sub b : str) : forall (a : str) (i : Z),
  (0 <= i)%Z -> (0 <= indexFrom (a ++ sub ++ b) sub i)%Z.
Proof.
  induction a as [|x a IH]; intros i Hi.
  - cbn [app]. destruct sub as [|y sub].
    + destruct b; simpl; lia.
    + cbn [app indexFrom].
      change (y :: sub ++ b) with ((y :: sub) ++ b).
      now rewrite HasPrefix_app.
  - cbn [app indexFrom].
    destruct (HasPrefix (x :: a ++ sub ++ b) sub); [lia|].
    apply IH. lia.
Qed.

Lemma Contains_app (a sub b : str) : Contains (a ++ sub ++ b) sub = true.
Proof.
  unfold Contains, Index. apply Z.leb_le. apply indexFrom_found. lia.
Qed.

(** ** strings.TrimSpace *)

Lemma trimLeftN_split : forall (fuel : nat) (s : str),
  exists a, s = a ++ trimLeftN fuel s.
Proof.
  induction fuel as [|f IH]; intros s; [exists []; reflexivity|].
  cbn [trimLeftN]. destruct (leadingSpace s) as [|n]; [exists []; reflexivity|].
  destruct (IH (skipn (S n) s)) as (a & E).
  exists (firstn (S n) s ++ a). rewrite <- app_assoc, <- E.
  symmetry. apply firstn_skipn.
Qed.

Lemma trimRightRevN_split : forall (fuel : nat) (r : str),
  exists a, r = a ++ trimRightRevN fuel r.
Proof.
  induction fuel as [|f IH]; intros r; [exists []; reflexivity|].
  cbn [trimRightRevN].
  destruct (trailingSpaceRev r) as [|n]; [exists []; reflexivity|].
  destruct (IH (skipn (S n) r)) as (a & E).
  exists (firstn (S n) r ++ a). rewrite <- app_assoc, <- E.
  symmetry. apply firstn_skipn.
Qed.

Lemma trimLeftN_done : forall (fuel : nat) (s : str),
  length s <= fuel -> leadingSpace (trimLeftN fuel s) = 0.
Proof.
  induction fuel as [|f IH]; intros s H.
  - destruct s; [reflexivity|simpl in H; lia].
  - cbn [trimLeftN]. destruct (leadingSpace s) as [|n] eqn:E; [exact E|].
    apply IH. rewrite length_skipn. lia.
Qed.

Lemma trimRightRevN_done : forall (fuel : nat) (r : str),
  length r <= fuel -> trailingSpaceRev (trimRightRevN fuel r) = 0.
Proof.
  induction fuel as [|f IH]; intros r H.
  - destruct r; [reflexivity|simpl in H; lia].
  - cbn [trimRightRevN].
    destruct (trailingSpaceRev r) as [|n] eqn:E; [exact E|].
    apply IH. rewrite length_skipn. lia.
Qed.

(** A prefix of a text that starts with no space starts with no space. *)
Lemma leadingSpace_prefix (u v : str) :
  leadingSpace (u ++ v) = 0 -> leadingSpace u = 0.
Proof.
  destruct u as [|b t]; [reflexivity|]. cbn [app]. unfold leadingSpace.
  destruct (asciiSpace b); [auto|].
  destruct t as [|c1 t]; [intros _; destruct b; reflexivity|].
  destruct t as [|c2 t]; cbn [app].
  - destruct b; try (intros _; reflexivity);
      destruct c1; try (intros _; reflexivity); auto.
  - destruct b; auto; destruct c1; auto.
Qed.

(** The trimmed text is a piece of the text, and neither starts nor ends
    with a space. *)
Lemma TrimSpace_split (s : str) : exists a b, s = a ++ TrimSpace s ++ b.
Proof.
  unfold TrimSpace, trimRight, trimLeft.
  destruct (trimLeftN_split (length s) s) as (a & Ea).
  set (x := trimLeftN (length s) s) in *.
  destruct (trimRightRevN_split (length x) (rev x)) as (b & Eb).
  exists a, (rev b). rewrite <- rev_app_distr, <- Eb, rev_involutive.
  exact Ea.
Qed.

Lemma TrimSpace_trailing (s : str) : trailingSpaceRev (rev (TrimSpace s)) = 0.
Proof.
  unfold TrimSpace, trimRight. rewrite rev_involutive.
  apply trimRightRevN_done. now rewrite length_rev.
Qed.

Lemma TrimSpace_leading (s : str) : leadingSpace (TrimSpace s) = 0.
Proof.
  unfold TrimSpace, trimRight.
  set (x := trimLeft s).
  assert (Hx : leadingSpace x = 0) by (apply trimLeftN_done; reflexivity).
  destruct (trimRightRevN_split (length x) (rev x)) as (b & Eb).
  apply (f_equal (@rev byte)) in Eb.
  rewrite rev_involutive, rev_app_distr in Eb.
  rewrite Eb in Hx. exact (leadingSpace_prefix _ _ Hx).
Qed.

Lemma TrimSpace_fixed (s : str) :
  leadingSpace s = 0 -> trailingSpaceRev (rev s) = 0 -> TrimSpace s = s.
Proof.
  intros Hl Hr. unfold TrimSpace.
  assert (E : trimLeft s = s).
  { unfold trimLeft. destruct (length s); [reflexivity|].
    cbn [trimLeftN]. now rewrite Hl. }
  rewrite E. unfold trimRight. destruct (length s).
  - apply rev_involutive.
  - cbn [trimRightRevN]. rewrite Hr. apply rev_involutive.
Qed.

Lemma TrimSpace_idempotent (s : str) : TrimSpace (TrimSpace s) = TrimSpace s.
Proof.
  apply TrimSpace_fixed; [apply TrimSpace_leading|apply TrimSpace_trailing].
Qed.

(** The end of a text stays free of space when the text is appended to one
    that ends with an ASCII space. *)
Lemma trailingSpaceRev_context (r rest : str) :
  r <> [] -> trailingSpaceRev r = 0 ->
  trailingSpaceRev (r ++ x20 :: rest) = 0.
Proof.
  destruct r as [|b t]; [congruence|]. intros _. cbn [app].
  unfold trailingSpaceRev. destruct (asciiSpace b); [auto|].
  destruct t as [|c1 t]; [intros _; reflexivity|].
  destruct t as [|c2 t]; cbn [app].
  - destruct c1; auto.
  - destruct c1; auto.
Qed.

Lemma re_space_asciiSpace (b : byte) : re_space b = true -> asciiSpace b = true.
Proof. destruct b; simpl; congruence. Qed.

Lemma leadingSpace_head (b : byte) (t : str) :
  leadingSpace (b :: t) = 0 -> re_space b = false.
Proof.
  unfold leadingSpace. destruct (re_space b) eqn:E; [|reflexivity].
  rewrite (re_space_asciiSpace _ E). discriminate.
Qed.

Lemma trailingSpaceRev_head (b : byte) (t : str) :
  trailingSpaceRev (b :: t) = 0 -> asciiSpace b = false.
Proof.
  unfold trailingSpaceRev. destruct (asciiSpace b); [discriminate|reflexivity].
Qed.

(** ** Three-digit numbers *)

Lemma digitByte_spec (d : Z) :
  (0 <= d <= 9)%Z ->
  code (digitByte d) = (48 + d)%Z /\ isDigit (digitByte d) = true.
Proof.
  intros H.
  assert (d = 0 \/ d = 1 \/ d = 2 \/ d = 3 \/ d = 4 \/ d = 5 \/ d = 6 \/
          d = 7 \/ d = 8 \/ d = 9)%Z as K by lia.
  repeat (destruct K as [->|K]; [split; reflexivity|]).
  subst. split; reflexivity.
Qed.

Lemma isDigit_code (b : byte) : isDigit b = true -> (48 <= code b <= 57)%Z.
Proof. unfold isDigit, inRange. lia. Qed.

Lemma Atoi_three (d1 d2 d3 : byte) :
  isDigit d1 = true -> isDigit d2 = true -> isDigit d3 = true ->
  Atoi [d1; d2; d3] =
  (((code d1 - 48) * 100 + (code d2 - 48) * 10 + (code d3 - 48))%Z, true).
Proof.
  intros H1 H2 H3.
  pose proof (isDigit_code _ H1) as K1.
  pose proof (isDigit_code _ H2) as K2. pose proof (isDigit_code _ H3) as K3.
  assert (E : Atoi [d1; d2; d3] =
              match digitsVal [d1; d2; d3] 0 with
              | None => (0%Z, false)
              | Some v =>
                  if (maxInt64 <? v)%Z then (maxInt64, false)
                  else if (v <? minInt64)%Z then (minInt64, false)
                  else (v, true)
              end).
  { destruct d1; try discriminate H1; reflexivity. }
  rewrite E. cbn [digitsVal]. rewrite H1, H2, H3.
  set (v := (((0 * 10 + (code d1 - 48)) * 10 + (code d2 - 48)) * 10
             + (code d3 - 48))%Z).
  replace (maxInt64 <? v)%Z with false
    by (symmetry; apply Z.ltb_ge; unfold maxInt64; lia).
  replace (v <? minInt64)%Z with false
    by (symmetry; apply Z.ltb_ge; unfold minInt64; lia).
  f_equal. lia.
Qed.

Lemma Itoa_three (n : Z) :
  (100 <= n <= 999)%Z ->
  Itoa n = [digitByte (n / 100); digitByte ((n / 10) mod 10);
            digitByte (n mod 10)].
Proof.
  intros H. unfold Itoa.
  replace (n <? 0)%Z with false by (symmetry; apply Z.ltb_ge; lia).
  cbn [digitsOf].
  replace (n <? 10)%Z with false by (symmetry; apply Z.ltb_ge; lia).
  replace (n / 10 <? 10)%Z with false
    by (symmetry; apply Z.ltb_ge; apply Z.div_le_lower_bound; lia).
  replace (n / 10 / 10 <? 10)%Z with true.
  - rewrite Z.div_div by lia. reflexivity.
  - symmetry. apply Z.ltb_lt. rewrite Z.div_div by lia.
    apply Z.div_lt_upper_bound; lia.
Qed.

(** Printing a status of three digits and reading it again. *)
Lemma Itoa_Atoi_three (n : Z) :
  (100 <= n <= 999)%Z ->
  exists d1 d2 d3,
    Itoa n = [d1; d2; d3] /\ isDigit d1 = true /\ isDigit d2 = true /\
    isDigit d3 = true /\ Atoi [d1; d2; d3] = (n, true).
Proof.
  intros H. rewrite (Itoa_three H).
  assert (H1 : (0 <= n / 100 <= 9)%Z).
  { split; [apply Z.div_pos; lia|].
    apply Z.lt_succ_r. apply Z.div_lt_upper_bound; lia. }
  assert (H2 : (0 <= (n / 10) mod 10 <= 9)%Z)
    by (pose proof (Z.mod_pos_bound (n / 10) 10); lia).
  assert (H3 : (0 <= n mod 10 <= 9)%Z)
    by (pose proof (Z.mod_pos_bound n 10); lia).
  destruct (digitByte_spec H1) as [C1 D1].
  destruct (digitByte_spec H2) as [C2 D2].
  destruct (digitByte_spec H3) as [C3 D3].
  do 3 eexists. split; [reflexivity|]. repeat (split; [assumption|]).
  rewrite (Atoi_three _ _ _ D1 D2 D3). f_equal.
  rewrite C1, C2, C3.
  pose proof (Z.div_mod n 10). pose proof (Z.div_mod (n / 10) 10).
  replace (n / 100)%Z with (n / 10 / 10)%Z
    by (rewrite Z.div_div by lia; reflexivity).
  lia.
Qed.

(** ** The sign of RetryAfter *)

Lemma roundNE_nonneg (num den : Z) :
  (0 <= num)%Z -> (0 < den)%Z -> (0 <= roundNE num den)%Z.
Proof.
  intros Hn Hd. unfold roundNE.
  pose proof (Z.div_pos num den Hn Hd).
  repeat match goal with |- context [if ?c then _ else _] => destruct c end;
    lia.
Qed.

Lemma toFloat64_nonneg (num den : Z) :
  (0 <= num)%Z -> (0 < den)%Z -> nonneg (toFloat64 num den).
Proof.
  intros Hn Hd. unfold toFloat64.
  destruct (num =? 0)%Z; [cbn; lia|]. cbv zeta.
  set (e := Z.max (binExp num den - 52) (-1074)).
  destruct (971 <? e)%Z; [exact I|].
  destruct ((e =? 971)%Z && _); [exact I|].
  cbn [nonneg]. destruct (Z.leb_spec 0 e).
  - apply roundNE_nonneg; [exact Hn|]. apply Z.mul_pos_pos; [exact Hd|].
    apply Z.pow_pos_nonneg; lia.
  - apply roundNE_nonneg; [|exact Hd]. apply Z.mul_nonneg_nonneg; [exact Hn|].
    apply Z.pow_nonneg. lia.
Qed.

Lemma digitsVal_nonneg : forall (s : str) (acc v : Z),
  digitsVal s acc = Some v -> (0 <= acc)%Z -> (0 <= v)%Z.
Proof.
  induction s as [|b s IH]; intros acc v H Ha.
  - inversion H. lia.
  - cbn [digitsVal] in H. destruct (isDigit b) eqn:Hb; [|discriminate].
    pose proof (isDigit_code _ Hb). apply (IH _ _ H). lia.
Qed.

Lemma ParseFloat_nonneg (s : str) : nonneg (fst (ParseFloat s)).
Proof.
  unfold ParseFloat. destruct (splitDot s) as [ip fp].
  set (fr := match fp with Some f => f | None => [] end).
  destruct (ip ++ fr) as [|b ds] eqn:E; [cbn; lia|].
  destruct (digitsVal (b :: ds) 0) as [mant|] eqn:D; [|cbn; lia].
  pose proof (@digitsVal_nonneg (b :: ds) 0 mant D ltac:(lia)) as Hm.
  assert (Hp : (0 < 10 ^ Z.of_nat (length fr))%Z)
    by (apply Z.pow_pos_nonneg; lia).
  pose proof (@toFloat64_nonneg mant _ Hm Hp) as N.
  destruct (toFloat64 mant (10 ^ Z.of_nat (length fr))); [exact N|exact I].
Qed.

Lemma math_Round_nonneg (x : float64) : nonneg x -> nonneg (math_Round x).
Proof.
  destruct x as [m e|]; [|auto]. cbn [math_Round nonneg]. intros H.
  destruct (Z.leb_spec 0 e); [exact H|]. cbn [nonneg].
  apply Z.div_pos.
  - assert (0 <= 2 ^ (- e - 1))%Z by (apply Z.pow_nonneg; lia). lia.
  - apply Z.pow_pos_nonneg; lia.
Qed.

Lemma fmulInt_nonneg (x : float64) (n : Z) :
  nonneg x -> (0 <= n)%Z -> nonneg (fmulInt x n).
Proof.
  destruct x as [m e|]; [|auto]. cbn [fmulInt nonneg]. intros H Hn.
  destruct (Z.leb_spec 0 e).
  - apply toFloat64_nonneg; [|lia].
    apply Z.mul_nonneg_nonneg; [apply Z.mul_nonneg_nonneg; lia|].
    apply Z.pow_nonneg. lia.
  - apply toFloat64_nonneg; [apply Z.mul_nonneg_nonneg; lia|].
    apply Z.pow_pos_nonneg; lia.
Qed.

Lemma toInt64_range (c : Z) (x : float64) :
  nonneg x -> toInt64 c x = c \/ (0 <= toInt64 c x <= maxInt64)%Z.
Proof.
  destruct x as [m e|]; [|left; reflexivity]. cbn [toInt64 nonneg]. intros H.
  cbv zeta.
  set (v := if (0 <=? e)%Z then (m * 2 ^ e)%Z else (m / 2 ^ (- e))%Z).
  assert (Hv : (0 <= v)%Z).
  { subst v. destruct (Z.leb_spec 0 e).
    - apply Z.mul_nonneg_nonneg; [exact H|]. apply Z.pow_nonneg. lia.
    - apply Z.div_pos; [exact H|]. apply Z.pow_pos_nonneg; lia. }
  destruct (Z.leb_spec v maxInt64); [right; lia|left; reflexivity].
Qed.

Lemma secondsToDuration_range (c : Z) (x : float64) :
  nonneg x ->
  secondsToDuration c x = c \/ (0 <= secondsToDuration c x <= maxInt64)%Z.
Proof.
  intros H. unfold secondsToDuration. apply toInt64_range.
  apply fmulInt_nonneg; [exact H|]. unfold Second. lia.
Qed.

(** ** A bound on RetryAfter *)

Lemma atMost_nonneg (x : float64) (k : Z) : atMost x k -> nonneg x.
Proof. destruct x; cbn; tauto. Qed.

Lemma roundNE_le (a b N : Z) :
  (0 <= a)%Z -> (0 < b)%Z -> (a <= N * b)%Z -> (roundNE a b <= N)%Z.
Proof.
  intros Ha Hb H. unfold roundNE.
  pose proof (Z.div_mod a b ltac:(lia)) as E.
  pose proof (Z.mod_pos_bound a b Hb) as R.
  assert (Q : (a / b <= N)%Z).
  { apply Z.div_le_upper_bound; [exact Hb|]. lia. }
  destruct (Z.ltb_spec (2 * (a mod b)) b); [exact Q|].
  assert (Q' : (a / b < N)%Z).
  { destruct (Z.eq_dec (a / b) N) as [F|F]; [|lia].
    rewrite F in E. nia. }
  repeat match goal with |- context [if ?c then _ else _] => destruct c end;
    lia.
Qed.

Lemma binExp_le (num den : Z) :
  (0 < num)%Z -> (0 < den)%Z -> (0 <= binExp num den)%Z ->
  (den * 2 ^ binExp num den <= num)%Z.
Proof.
  intros Hn Hd. unfold binExp. cbv zeta.
  set (l := (Z.log2 num - Z.log2 den)%Z).
  destruct (Z.leb_spec 0 l) as [Hl|Hl].
  - destruct (Z.leb_spec (den * 2 ^ l) num) as [A|A]; [intros _; exact A|].
    intros H.
    pose proof (Z.log2_spec num Hn) as Sn.
    pose proof (Z.log2_spec den Hd) as Sd.
    pose proof (Z.log2_nonneg den) as Ld.
    assert (P : (2 ^ Z.succ (Z.log2 den) * 2 ^ (l - 1)
                 = 2 ^ Z.log2 num)%Z).
    { rewrite <- Z.pow_add_r by lia. f_equal. subst l. lia. }
    assert (0 < 2 ^ (l - 1))%Z by (apply Z.pow_pos_nonneg; lia).
    nia.
  - destruct (den <=? num * 2 ^ (- l))%Z; lia.
Qed.

Lemma toFloat64_atMost (num den k : Z) :
  (0 <= num)%Z -> (0 < den)%Z -> (0 <= k <= 1023)%Z ->
  (num <= 2 ^ k * den)%Z -> atMost (toFloat64 num den) k.
Proof.
  intros Hn Hd Hk H. unfold toFloat64.
  destruct (Z.eqb_spec num 0) as [E0|E0].
  { cbn. split; [lia|]. apply Z.pow_nonneg; lia. }
  cbv zeta.
  set (e := Z.max (binExp num den - 52) (-1074)).
  assert (P2k : (0 < 2 ^ k)%Z) by (apply Z.pow_pos_nonneg; lia).
  destruct (Z.leb_spec 0 e) as [He|He].
  - assert (Ee : (binExp num den = e + 52)%Z) by (subst e; lia).
    assert (Hek : (e + 52 <= k)%Z).
    { pose proof (@binExp_le num den ltac:(lia) Hd ltac:(lia)) as B.
      rewrite Ee in B.
      destruct (Z.le_gt_cases (e + 52) k) as [L|G]; [exact L|exfalso].
      assert (2 ^ k < 2 ^ (e + 52))%Z by (apply Z.pow_lt_mono_r; lia).
      nia. }
    assert (Pe : (0 < 2 ^ e)%Z) by (apply Z.pow_pos_nonneg; lia).
    assert (Ek : (2 ^ k = 2 ^ (k - e) * 2 ^ e)%Z).
    { rewrite <- Z.pow_add_r by lia. f_equal; lia. }
    assert (M : (roundNE num (den * 2 ^ e) <= 2 ^ (k - e))%Z).
    { apply roundNE_le; [exact Hn|apply Z.mul_pos_pos; assumption|].
      rewrite Ek in H.
      replace (2 ^ (k - e) * (den * 2 ^ e))%Z
        with (2 ^ (k - e) * 2 ^ e * den)%Z by ring.
      exact H. }
    assert (M0 : (0 <= roundNE num (den * 2 ^ e))%Z)
      by (apply roundNE_nonneg; [exact Hn|apply Z.mul_pos_pos; assumption]).
    replace (971 <? e)%Z with false by (symmetry; apply Z.ltb_ge; lia).
    assert (Hs : ((e =? 971)%Z
                  && (roundNE num (den * 2 ^ e) =? 2 ^ 53)%Z) = false).
    { destruct (Z.eqb_spec e 971) as [E9|E9]; [|reflexivity]. cbn [andb].
      apply Z.eqb_neq.
      assert (2 ^ (k - e) <= 2 ^ 52)%Z by (apply Z.pow_le_mono_r; lia).
      assert (2 ^ 52 < 2 ^ 53)%Z by reflexivity. lia. }
    rewrite Hs. cbn [atMost].
    replace (0 <=? e)%Z with true by (symmetry; apply Z.leb_le; lia).
    split; [exact M0|]. rewrite Ek. nia.
  - replace (971 <? e)%Z with false by (symmetry; apply Z.ltb_ge; lia).
    replace (e =? 971)%Z with false by (symmetry; apply Z.eqb_neq; lia).
    cbn [andb atMost].
    replace (0 <=? e)%Z with false by (symmetry; apply Z.leb_gt; lia).
    assert (Pe : (0 < 2 ^ (- e))%Z) by (apply Z.pow_pos_nonneg; lia).
    split.
    + apply roundNE_nonneg; [nia|exact Hd].
    + apply roundNE_le; [nia|exact Hd|].
      replace (k - e)%Z with (k + - e)%Z by lia.
      rewrite Z.pow_add_r by lia. nia.
Qed.

Lemma digitsVal_bound : forall (s : str) (acc v : Z),
  digitsVal s acc = Some v -> (0 <= acc)%Z ->
  (v < (acc + 1) * 10 ^ Z.of_nat (length s))%Z.
Proof.
  induction s as [|b s IH]; intros acc v H Ha.
  - inversion H; subst. cbn. lia.
  - cbn [digitsVal] in H. destruct (isDigit b) eqn:Hb; [|discriminate].
    pose proof (isDigit_code _ Hb) as Hc.
    pose proof (IH _ _ H ltac:(lia)) as B.
    cbn [length]. rewrite Nat2Z.inj_succ, Z.pow_succ_r by lia.
    assert (0 < 10 ^ Z.of_nat (length s))%Z by (apply Z.pow_pos_nonneg; lia).
    nia.
Qed.

Lemma digitsVal_app : forall (s t : str) (acc v : Z),
  digitsVal (s ++ t) acc = Some v ->
  exists u, digitsVal s acc = Some u /\ digitsVal t u = Some v.
Proof.
  induction s as [|b s IH]; intros t acc v H.
  - exists acc. auto.
  - cbn [app digitsVal] in *. destruct (isDigit b); [|discriminate].
    now apply IH.
Qed.

(** The value of a decimal with at most nine digits before the dot lies
    below 2^30. *)
Lemma ParseFloat_atMost (s : str) :
  length (fst (splitDot s)) <= 9 -> atMost (fst (ParseFloat s)) 30.
Proof.
  unfold ParseFloat. destruct (splitDot s) as [ip fp]. cbn [fst]. intros Hl.
  set (fr := match fp with Some f => f | None => [] end).
  assert (Z0 : atMost (Fin 0 0) 30) by (cbn; lia).
  destruct (ip ++ fr) as [|b ds] eqn:E; [exact Z0|].
  destruct (digitsVal (b :: ds) 0) as [mant|] eqn:D; [|exact Z0].
  rewrite <- E in D.
  destruct (digitsVal_app _ _ _ D) as (u & Du & Dv).
  pose proof (digitsVal_nonneg _ Du ltac:(lia)) as U0.
  pose proof (digitsVal_bound _ Du ltac:(lia)) as U1.
  pose proof (digitsVal_nonneg _ Dv U0) as V0.
  pose proof (digitsVal_bound _ Dv U0) as V1.
  assert (Hp : (0 < 10 ^ Z.of_nat (length fr))%Z)
    by (apply Z.pow_pos_nonneg; lia).
  assert (Hi : (10 ^ Z.of_nat (length ip) <= 10 ^ 9)%Z)
    by (apply Z.pow_le_mono_r; lia).
  assert (A : atMost (toFloat64 mant (10 ^ Z.of_nat (length fr))) 30).
  { apply toFloat64_atMost; [exact V0|exact Hp|lia|].
    change (2 ^ 30)%Z with 1073741824%Z. change (10 ^ 9)%Z with 1000000000%Z in Hi.
    cbn [Z.add] in U1. nia. }
  destruct (toFloat64 mant (10 ^ Z.of_nat (length fr))); [exact A|destruct A].
Qed.

Lemma math_Round_atMost (x : float64) (k : Z) :
  (0 <= k)%Z -> atMost x k -> atMost (math_Round x) k.
Proof.
  intros Hk. destruct x as [m e|]; [|auto]. cbn [math_Round atMost].
  destruct (Z.leb_spec 0 e) as [He|He]; intros (H0 & H).
  - cbn [atMost]. replace (0 <=? e)%Z with true by (symmetry; apply Z.leb_le; lia).
    auto.
  - cbn [atMost]. change (0 <=? 0)%Z with true.
    assert (Pe : (0 < 2 ^ (- e))%Z) by (apply Z.pow_pos_nonneg; lia).
    assert (Ph : (0 <= 2 ^ (- e - 1))%Z) by (apply Z.pow_nonneg; lia).
    assert (Eh : (2 ^ (- e) = 2 * 2 ^ (- e - 1))%Z).
    { rewrite <- Z.pow_succ_r by lia. f_equal; lia. }
    assert (Ek : (2 ^ (k - e) = 2 ^ k * 2 ^ (- e))%Z).
    { rewrite <- Z.pow_add_r by lia. f_equal; lia. }
    split; [apply Z.div_pos; lia|].
    rewrite Z.pow_0_r, Z.mul_1_r.
    assert (0 < 2 ^ k)%Z by (apply Z.pow_pos_nonneg; lia).
    assert (((m + 2 ^ (- e - 1)) / 2 ^ (- e) < 2 ^ k + 1)%Z); [|lia].
    apply Z.div_lt_upper_bound; [exact Pe|]. rewrite Ek in H. nia.
Qed.

Lemma fmulInt_Second_atMost (x : float64) :
  atMost x 30 -> atMost (fmulInt x Second) 60.
Proof.
  destruct x as [m e|]; [|auto]. cbn [fmulInt atMost].
  unfold Second.
  assert (S30 : (1000000000 <= 2 ^ 30)%Z) by (cbn; lia).
  assert (E60 : (2 ^ 60 = 2 ^ 30 * 2 ^ 30)%Z) by reflexivity.
  destruct (Z.leb_spec 0 e) as [He|He]; intros (H0 & H).
  - assert (Pe : (0 < 2 ^ e)%Z) by (apply Z.pow_pos_nonneg; lia).
    apply toFloat64_atMost; [nia|lia|lia|]. rewrite E60. nia.
  - assert (Pe : (0 < 2 ^ (- e))%Z) by (apply Z.pow_pos_nonneg; lia).
    assert (Ek : (2 ^ (30 - e) = 2 ^ 30 * 2 ^ (- e))%Z).
    { rewrite <- Z.pow_add_r by lia. f_equal; lia. }
    apply toFloat64_atMost; [nia|exact Pe|lia|]. rewrite E60. nia.
Qed.

Lemma toInt64_atMost (c : Z) (x : float64) :
  atMost x 60 -> (0 <= toInt64 c x <= 2 ^ 60)%Z.
Proof.
  destruct x as [m e|]; [|intros []]. cbn [toInt64 atMost].
  cbv zeta.
  assert (M : (2 ^ 60 <= maxInt64)%Z) by (unfold maxInt64; cbn; lia).
  destruct (Z.leb_spec 0 e) as [He|He]; intros (H0 & H).
  - assert (Pe : (0 < 2 ^ e)%Z) by (apply Z.pow_pos_nonneg; lia).
    replace (m * 2 ^ e <=? maxInt64)%Z with true
      by (symmetry; apply Z.leb_le; lia).
    split; [nia|exact H].
  - assert (Pe : (0 < 2 ^ (- e))%Z) by (apply Z.pow_pos_nonneg; lia).
    assert (Ek : (2 ^ (60 - e) = 2 ^ 60 * 2 ^ (- e))%Z).
    { rewrite <- Z.pow_add_r by lia. f_equal; lia. }
    assert (Q : (m / 2 ^ (- e) <= 2 ^ 60)%Z).
    { apply Z.div_le_upper_bound; [exact Pe|]. lia. }
    assert (Q0 : (0 <= m / 2 ^ (- e))%Z) by (apply Z.div_pos; lia).
    replace (m / 2 ^ (- e) <=? maxInt64)%Z with true
      by (symmetry; apply Z.leb_le; lia).
    split; assumption.
Qed.

(** ** The precision of RetryAfter *)

Lemma roundNE_error (a b : Z) :
  (0 <= a)%Z -> (0 < b)%Z ->
  (- b <= 2 * (roundNE a b * b - a) <= b)%Z.
Proof.
  intros Ha Hb. unfold roundNE.
  pose proof (Z.div_mod a b ltac:(lia)) as E.
  pose proof (Z.mod_pos_bound a b Hb) as R.
  repeat match goal with |- context [if ?c then _ else _] =>
    let H := fresh in destruct c eqn:H end;
    repeat match goal with
    | H : (_ <? _)%Z = true |- _ => apply Z.ltb_lt in H
    | H : (_ <? _)%Z = false |- _ => apply Z.ltb_ge in H
    end; nia.
Qed.



(** The float nearest to a positive num/den of at most 2^k, k <= 51: its
    last bit has a negative exponent e <= k - 52, and it lies within half
    of 2^e of num/den. *)
Lemma toFloat64_error (num den k : Z) :
  (0 < num)%Z -> (0 < den)%Z -> (0 <= k <= 51)%Z ->
  (num <= 2 ^ k * den)%Z ->
  exists m e,
    toFloat64 num den = Fin m e /\ (0 <= m)%Z /\ (e <= k - 52)%Z /\
    (m <= 2 ^ (k - e))%Z /\
    (- den <= 2 * (m * den - num * 2 ^ (- e)) <= den)%Z.
Proof.
  intros Hn Hd Hk H.
  pose proof (@toFloat64_atMost num den k ltac:(lia) Hd ltac:(lia) H) as A.
  unfold toFloat64 in *.
  replace (num =? 0)%Z with false in * by (symmetry; apply Z.eqb_neq; lia).
  cbv zeta in *.
  set (e := Z.max (binExp num den - 52) (-1074)) in *.
  assert (He : (e <= k - 52)%Z).
  { destruct (Z.le_gt_cases (binExp num den) k) as [L|G]; [subst e; lia|].
    exfalso.
    pose proof (@binExp_le num den Hn Hd ltac:(lia)) as B.
    assert (2 ^ k < 2 ^ binExp num den)%Z by (apply Z.pow_lt_mono_r; lia).
    nia. }
  replace (0 <=? e)%Z with false in * by (symmetry; apply Z.leb_gt; lia).
  replace (971 <? e)%Z with false in * by (symmetry; apply Z.ltb_ge; lia).
  replace (e =? 971)%Z with false in * by (symmetry; apply Z.eqb_neq; lia).
  cbn [andb] in *. cbn [atMost] in A.
  replace (0 <=? e)%Z with false in A by (symmetry; apply Z.leb_gt; lia).
  destruct A as (M0 & M1).
  assert (Pe : (0 < 2 ^ (- e))%Z) by (apply Z.pow_pos_nonneg; lia).
  do 2 eexists. split; [reflexivity|]. split; [exact M0|].
  split; [exact He|]. split; [exact M1|].
  apply roundNE_error; [nia|exact Hd].
Qed.


Lemma ParseFloat_decimal (s ip : str) (fp : option str) (mant : Z) :
  splitDot s = (ip, fp) ->
  digitsVal (ip ++ match fp with Some f => f | None => [] end) 0
    = Some mant ->
  fst (ParseFloat s) =
  toFloat64 mant
    (10 ^ Z.of_nat (length match fp with Some f => f | None => [] end)).
Proof.
  intros Hs Hd. unfold ParseFloat. rewrite Hs.
  set (fr := match fp with Some f => f | None => [] end).
  assert (Hd' : digitsVal (ip ++ fr) 0 = Some mant) by exact Hd.
  destruct (ip ++ fr) as [|b ds] eqn:E.
  - cbn in Hd'. inversion Hd'; subst. reflexivity.
  - rewrite Hd'.
    destruct (toFloat64 mant (10 ^ Z.of_nat (length fr))) eqn:T;
      cbn [fst]; symmetry; exact T.
Qed.

(** The arithmetic of the two roundings: a value m/A within 1/(2A) of
    mant/D, its product with G within 1/(2B) of m'/B, and the integer part R
    of m'/B. *)
Lemma two_roundings (mant D m A m' B R G : Z) :
  (0 < D)%Z -> (0 <= mant)%Z -> (0 <= m)%Z -> (0 < G)%Z ->
  (32 * G <= A)%Z -> (32 <= B)%Z ->
  (- D <= 2 * (m * D - mant * A) <= D)%Z ->
  (- A <= 2 * (m' * A - m * G * B) <= A)%Z ->
  (R * B <= m' < R * B + B)%Z ->
  (- 33 * D <= 32 * (R * D - mant * G) <= D)%Z.
Proof.
  intros HD Hmant Hm HG HA HB E1 E2 HR.
  set (T := (R * D - mant * G)%Z).
  assert (PA : (0 < A)%Z) by lia.
  assert (PAB : (0 < 2 * A * B)%Z) by nia.
  assert (K : (32 * (D * (G * B + A)) <= 2 * A * B * D)%Z).
  { assert (32 * (G * B) <= A * B)%Z by nia.
    assert (32 * A <= A * B)%Z by nia.
    nia. }
  assert (U : (2 * A * B * T <= D * (G * B + A))%Z).
  { subst T.
    assert (S1 : (2 * (R * B) * (A * D) <= 2 * m' * (A * D))%Z) by nia.
    assert (S2 : (2 * m' * A * D <= (2 * m * G * B + A) * D)%Z) by nia.
    assert (S3 : (2 * m * D * (G * B) <= (2 * mant * A + D) * (G * B))%Z)
      by nia.
    nia. }
  assert (L : (- (D * (G * B + A)) < 2 * A * B * (T + D))%Z).
  { subst T.
    assert (S1 : (2 * m' * (A * D) < 2 * (R * B + B) * (A * D))%Z) by nia.
    assert (S2 : ((2 * m * G * B - A) * D <= 2 * m' * A * D)%Z) by nia.
    assert (S3 : ((2 * mant * A - D) * (G * B) <= 2 * m * D * (G * B))%Z)
      by nia.
    nia. }
  split.
  - assert (- (2 * A * B * D) < 2 * A * B * (32 * (T + D)))%Z by nia.
    assert (- D < 32 * (T + D))%Z by nia. lia.
  - assert (2 * A * B * (32 * T) <= 2 * A * B * D)%Z by nia.
    nia.
Qed.

Lemma pow2_split (k a : Z) :
  (0 <= k)%Z -> (0 <= a)%Z -> (2 ^ (k + a) = 2 ^ k * 2 ^ a)%Z.
Proof. intros. now rewrite Z.pow_add_r. Qed.

Lemma secondsToDuration_zero (c e : Z) :
  secondsToDuration c (Fin 0 e) = 0%Z.
Proof.
  unfold secondsToDuration, fmulInt.
  destruct (0 <=? e)%Z; reflexivity.
Qed.

(** The JSON parser's duration for the decimal mant/D of at most 2^17
    seconds. *)
Lemma json_seconds_precision (c mant D : Z) :
  (0 <= mant)%Z -> (0 < D)%Z -> (mant <= 2 ^ 17 * D)%Z ->
  (- 33 * D
   <= 32 * (secondsToDuration c (toFloat64 mant D) * D - mant * 10 ^ 9)
   <= D)%Z.
Proof.
  intros Hm HD Hb.
  destruct (Z.eq_dec mant 0) as [->|M0].
  { change (toFloat64 0 D) with (Fin 0 0).
    rewrite secondsToDuration_zero. lia. }
  destruct (@toFloat64_error mant D 17 ltac:(lia) HD ltac:(lia) Hb)
    as (m & e & -> & m0 & He & Mb & E1).
  assert (PA : (0 < 2 ^ (- e))%Z) by (apply Z.pow_pos_nonneg; lia).
  assert (A35 : (2 ^ 35 <= 2 ^ (- e))%Z) by (apply Z.pow_le_mono_r; lia).
  assert (V35 : (2 ^ 35 = 34359738368)%Z) by reflexivity.
  assert (V9 : (10 ^ 9 = 1000000000)%Z) by reflexivity.
  destruct (Z.eq_dec m 0) as [->|M1].
  { rewrite secondsToDuration_zero. nia. }
  unfold secondsToDuration. cbn [fmulInt].
  replace (0 <=? e)%Z with false by (symmetry; apply Z.leb_gt; lia).
  assert (Mb' : (m * Second <= 2 ^ 47 * 2 ^ (- e))%Z).
  { replace (17 - e)%Z with (17 + - e)%Z in Mb by lia.
    rewrite pow2_split in Mb by lia.
    assert (2 ^ 17 * 1000000000 <= 2 ^ 47)%Z by (cbn; lia).
    unfold Second. nia. }
  destruct (@toFloat64_error (m * Second) (2 ^ (- e)) 47
              ltac:(unfold Second; lia) PA ltac:(lia) Mb')
    as (m' & e' & -> & m0' & He' & Mb2 & E2).
  assert (PB : (0 < 2 ^ (- e'))%Z) by (apply Z.pow_pos_nonneg; lia).
  assert (B5 : (2 ^ 5 <= 2 ^ (- e'))%Z) by (apply Z.pow_le_mono_r; lia).
  assert (V5 : (2 ^ 5 = 32)%Z) by reflexivity.
  cbn [toInt64]. cbv zeta.
  replace (0 <=? e')%Z with false by (symmetry; apply Z.leb_gt; lia).
  assert (Q : (m' / 2 ^ (- e') <= 2 ^ 47)%Z).
  { apply Z.div_le_upper_bound; [exact PB|].
    replace (47 - e')%Z with (47 + - e')%Z in Mb2 by lia.
    rewrite pow2_split in Mb2 by lia. lia. }
  assert (V47 : (2 ^ 47 <= maxInt64)%Z) by (unfold maxInt64; cbn; lia).
  replace (m' / 2 ^ (- e') <=? maxInt64)%Z with true
    by (symmetry; apply Z.leb_le; lia).
  pose proof (Z.div_mod m' (2 ^ (- e')) ltac:(lia)) as Dm.
  pose proof (Z.mod_pos_bound m' (2 ^ (- e')) PB) as Rm.
  rewrite V9.
  apply (@two_roundings mant D m (2 ^ (- e)) m' (2 ^ (- e'))
           (m' / 2 ^ (- e')) 1000000000); try lia.
  unfold Second in E2. exact E2.
Qed.


Lemma decimal_bound (ip fr : str) (mant : Z) (n : nat) :
  digitsVal (ip ++ fr) 0 = Some mant -> length ip <= n ->
  (0 <= mant < 10 ^ Z.of_nat n * 10 ^ Z.of_nat (length fr))%Z.
Proof.
  intros D Hl.
  destruct (digitsVal_app _ _ _ D) as (u & Du & Dv).
  pose proof (digitsVal_nonneg _ Du ltac:(lia)) as U0.
  pose proof (digitsVal_bound _ Du ltac:(lia)) as U1.
  pose proof (digitsVal_nonneg _ Dv U0) as V0.
  pose proof (digitsVal_bound _ Dv U0) as V1.
  assert (Hp : (0 < 10 ^ Z.of_nat (length fr))%Z)
    by (apply Z.pow_pos_nonneg; lia).
  assert (Hi : (10 ^ Z.of_nat (length ip) <= 10 ^ Z.of_nat n)%Z)
    by (apply Z.pow_le_mono_r; lia).
  cbn [Z.add] in U1. split; [exact V0|]. nia.
Qed.

Lemma decimalOf_value (s : str) (mant D : Z) :
  decimalOf s = Some (mant, D) -> integerDigits s <= 5 ->
  fst (ParseFloat s) = toFloat64 mant D /\
  (0 <= mant)%Z /\ (0 < D)%Z /\ (mant <= 2 ^ 17 * D)%Z.
Proof.
  unfold decimalOf, integerDigits.
  destruct (splitDot s) as [ip fp] eqn:Es. cbv zeta. cbn [fst].
  destruct (digitsVal _ 0) as [v|] eqn:Ed; [|discriminate].
  intros H Hl. inversion H; subst; clear H.
  split; [exact (@ParseFloat_decimal s ip fp mant Es Ed)|].
  pose proof (@decimal_bound ip _ mant 5 Ed Hl) as B.
  assert (P : (0 < 10 ^ Z.of_nat
                      (length match fp with Some f => f | None => [] end))%Z)
    by (apply Z.pow_pos_nonneg; lia).
  change (10 ^ Z.of_nat 5)%Z with 100000%Z in B.
  change (2 ^ 17)%Z with 131072%Z.
  split; [lia|]. split; [exact P|]. nia.
Qed.


(** ** ASCII white space around a text *)

Lemma trimLeftN_fuel : forall (f1 f2 : nat) (s : str),
  length s <= f1 -> length s <= f2 -> trimLeftN f1 s = trimLeftN f2 s.
Proof.
  induction f1 as [|f1 IH]; intros f2 s H1 H2.
  - destruct s; [|simpl in H1; lia]. destruct f2; reflexivity.
  - destruct f2 as [|f2].
    + destruct s; [reflexivity|simpl in H2; lia].
    + cbn [trimLeftN]. destruct (leadingSpace s) as [|n] eqn:E; [reflexivity|].
      apply IH; rewrite length_skipn; lia.
Qed.

Lemma trimRightRevN_fuel : forall (f1 f2 : nat) (r : str),
  length r <= f1 -> length r <= f2 -> trimRightRevN f1 r = trimRightRevN f2 r.
Proof.
  induction f1 as [|f1 IH]; intros f2 s H1 H2.
  - destruct s; [|simpl in H1; lia]. destruct f2; reflexivity.
  - destruct f2 as [|f2].
    + destruct s; [reflexivity|simpl in H2; lia].
    + cbn [trimRightRevN].
      destruct (trailingSpaceRev s) as [|n] eqn:E; [reflexivity|].
      apply IH; rewrite length_skipn; lia.
Qed.

Lemma trimLeft_pad (a s : str) :
  forallb asciiSpace a = true -> trimLeft (a ++ s) = trimLeft s.
Proof.
  induction a as [|b a IH]; [reflexivity|]. cbn [forallb app]. intros H.
  apply andb_true_iff in H. destruct H as [Hb Ha].
  rewrite <- (IH Ha). unfold trimLeft. cbn [length trimLeftN leadingSpace].
  rewrite Hb. reflexivity.
Qed.

Lemma trimRightRevN_pad : forall (b r : str) (f : nat),
  forallb asciiSpace b = true -> length r <= f ->
  trimRightRevN (length b + f) (b ++ r) = trimRightRevN f r.
Proof.
  induction b as [|x b IH]; intros r f H Hf; [reflexivity|].
  cbn [forallb] in H. apply andb_true_iff in H. destruct H as [Hx Hb].
  cbn [length app Nat.add trimRightRevN trailingSpaceRev]. rewrite Hx.
  cbn [skipn]. now apply IH.
Qed.

Lemma trimRight_pad (s b : str) :
  forallb asciiSpace b = true -> trimRight (s ++ b) = trimRight s.
Proof.
  intros H. unfold trimRight. f_equal. rewrite rev_app_distr.
  rewrite (@trimRightRevN_fuel (length (s ++ b)) (length (rev b) + length s)).
  - rewrite trimRightRevN_pad; [reflexivity| |rewrite length_rev; lia].
    rewrite forallb_forall in *. intros x Hx. apply H. now apply in_rev.
  - rewrite !length_app, !length_rev. lia.
  - rewrite !length_app, !length_rev. lia.
Qed.

Lemma leadingSpace_le (s : str) : leadingSpace s <= length s.
Proof.
  destruct s as [|h t]; [reflexivity|]. unfold leadingSpace.
  destruct (asciiSpace h); [simpl; lia|].
  destruct t as [|c1 t]; [destruct h; simpl; lia|].
  destruct t as [|c2 t].
  - destruct h; try (simpl; lia); destruct c1; simpl; lia.
  - destruct h; try (simpl; lia); destruct c1; try (simpl; lia);
      try (destruct (spaceE280 c2); simpl; lia);
      destruct c2; simpl; lia.
Qed.

Lemma leadingSpace_pad (x b : str) :
  x <> [] -> forallb asciiSpace b = true ->
  leadingSpace (x ++ b) = leadingSpace x.
Proof.
  destruct x as [|h t]; [congruence|]. intros _ H. cbn [app].
  unfold leadingSpace. destruct (asciiSpace h); [reflexivity|].
  destruct t as [|c1 t]; cbn [app].
  - destruct b as [|b0 b]; [reflexivity|].
    cbn [forallb] in H. apply andb_true_iff in H. destruct H as [H0 _].
    destruct b0; try discriminate H0; destruct h; reflexivity.
  - destruct t as [|c2 t]; cbn [app].
    + destruct b as [|b0 b]; [reflexivity|].
      cbn [forallb] in H. apply andb_true_iff in H. destruct H as [H0 _].
      destruct b0; try discriminate H0;
        destruct h; try reflexivity; destruct c1; reflexivity.
    + destruct h; try reflexivity; destruct c1; reflexivity.
Qed.

Lemma trimLeft_blank (b : str) :
  forallb asciiSpace b = true -> trimLeft b = [].
Proof.
  intros H. rewrite <- (app_nil_r b). now rewrite (@trimLeft_pad b [] H).
Qed.

Lemma trimLeftN_right_pad : forall (f : nat) (x b : str),
  forallb asciiSpace b = true -> length (x ++ b) <= f ->
  exists b', forallb asciiSpace b' = true /\
             trimLeftN f (x ++ b) = trimLeftN f x ++ b'.
Proof.
  induction f as [|f IH]; intros x b H Hf.
  - exists b. split; [exact H|reflexivity].
  - destruct x as [|h t].
    + exists []. split; [reflexivity|]. cbn [app].
      change (trimLeftN (S f) []) with (@nil byte). cbn [app].
      rewrite (@trimLeftN_fuel (S f) (length b) b Hf (le_n _)).
      now apply trimLeft_blank.
    + cbn [trimLeftN].
      rewrite (@leadingSpace_pad (h :: t) b ltac:(discriminate) H).
      pose proof (leadingSpace_le (h :: t)) as Hle.
      destruct (leadingSpace (h :: t)) as [|n]; [exists b; auto|].
      rewrite skipn_app.
      replace (S n - length (h :: t)) with 0 by lia. cbn [skipn].
      apply IH; [exact H|].
      rewrite length_app in *. rewrite length_skipn. cbn [length] in *. lia.
Qed.

Lemma TrimSpace_pad (a s b : str) :
  forallb asciiSpace a = true -> forallb asciiSpace b = true ->
  TrimSpace (a ++ s ++ b) = TrimSpace s.
Proof.
  intros Ha Hb. unfold TrimSpace. rewrite (@trimLeft_pad a (s ++ b) Ha).
  destruct (@trimLeftN_right_pad (length (s ++ b)) s b Hb (le_n _))
    as (b' & Hb' & E).
  unfold trimLeft at 1. rewrite E.
  rewrite (@trimRight_pad _ b' Hb'). f_equal. unfold trimLeft.
  apply trimLeftN_fuel; [rewrite length_app; lia|lia].
Qed.

(** ** What the header patterns capture *)

Ltac inv_matches :=
  repeat match goal with
  | H : Matches (Cat _ _) _ _ _ _ _ |- _ => inversion H; clear H; subst
  | H : Matches (Grp _ _) _ _ _ _ _ |- _ => inversion H; clear H; subst
  | H : Matches (Alt _ _) _ _ _ _ _ |- _ => inversion H; clear H; subst
  | H : Matches (Lit _) _ _ _ _ _ |- _ => inversion H; clear H; subst
  | H : Matches (Cls _) _ _ _ _ _ |- _ => inversion H; clear H; subst
  | H : Matches (Plus _) _ _ _ _ _ |- _ => inversion H; clear H; subst
  | H : Matches (Star _) _ _ _ _ _ |- _ => inversion H; clear H; subst
  | H : Matches Bot _ _ _ _ _ |- _ => inversion H; clear H; subst
  | H : Matches Eot _ _ _ _ _ |- _ => inversion H; clear H; subst
  | H : Matches Eps _ _ _ _ _ |- _ => inversion H; clear H; subst
  end.

Definition isVerb (v : str) : Prop :=
  v = lit "GET" \/ v = lit "POST" \/ v = lit "PUT" \/ v = lit "PATCH" \/
  v = lit "DELETE".

Lemma Matches_verbs pos w rest c c' :
  Matches verbs pos w rest c c' -> isVerb w /\ c' = c.
Proof.
  unfold verbs, isVerb. intros H. inv_matches; auto 10.
Qed.

Lemma Matches_threeDigits pos w rest c c' :
  Matches threeDigits pos w rest c c' ->
  c' = c /\
  exists d1 d2 d3, w = [d1; d2; d3] /\ isDigit d1 = true /\
                   isDigit d2 = true /\ isDigit d3 = true.
Proof.
  unfold threeDigits. intros H. inv_matches. split; auto.
  do 3 eexists. simpl. eauto.
Qed.

(** The shape of a text on which the header of the JSON dialect matches. *)
Lemma jsonHeadRe_match (s : str) :
  FindStringSubmatch jsonHeadRe 4 s <> [] ->
  exists verb ws1 url ws2 ws3 digits ws4 reason ws5 rest,
    s = verb ++ ws1 ++ dquote ++ url ++ dquote ++ ws2 ++ lit ":" ++ ws3
          ++ digits ++ ws4 ++ reason ++ ws5 ++ rest /\
    isVerb verb /\
    ws1 <> [] /\ forallb re_space ws1 = true /\
    url <> [] /\ forallb notQuote url = true /\
    forallb re_space ws2 = true /\ forallb re_space ws3 = true /\
    (exists d1 d2 d3, digits = [d1; d2; d3] /\ isDigit d1 = true /\
                      isDigit d2 = true /\ isDigit d3 = true) /\
    ws4 <> [] /\ forallb re_space ws4 = true /\
    reason <> [] /\ forallb letterOrSpace reason = true /\
    ws5 <> [] /\ forallb re_space ws5 = true /\
    FindStringSubmatch jsonHeadRe 4 s =
      [verb ++ ws1 ++ dquote ++ url ++ dquote ++ ws2 ++ lit ":" ++ ws3
          ++ digits ++ ws4 ++ reason ++ ws5; verb; url; digits; reason].
Proof.
  unfold FindStringSubmatch.
  destruct (search jsonHeadRe 4 0 s) as [caps|] eqn:H; [|congruence].
  intros _. apply search_sound in H.
  destruct H as (a & w & b & c' & -> & M & ->).
  unfold jsonHeadRe in M. cbn [seq] in M.
  inversion M as [| | |? ? ? ? ? ? ? ? ? M0 M1| | | | | | |]; subst; clear M.
  inversion M0; subst; clear M0.
  match goal with H : 0 = _ |- _ =>
    destruct a; [clear H|discriminate H] end.
  cbn [length Nat.add app] in *.
  repeat match goal with
  | H : Matches (Cat _ _) _ _ _ _ _ |- _ => inversion H; clear H; subst
  end.
  repeat match goal with
  | H : Matches (Grp _ _) _ _ _ _ _ |- _ => inversion H; clear H; subst
  | H : Matches (Lit _) _ _ _ _ _ |- _ => inversion H; clear H; subst
  | H : Matches (Plus _) _ _ _ _ _ |- _ => inversion H; clear H; subst
  | H : Matches (Star _) _ _ _ _ _ |- _ => inversion H; clear H; subst
  | H : Matches verbs _ _ _ _ _ |- _ =>
      apply Matches_verbs in H; destruct H as [? ->]
  | H : Matches threeDigits _ _ _ _ _ |- _ =>
      apply Matches_threeDigits in H; destruct H as [-> ?]
  end.
  repeat rewrite <- app_assoc.
  do 10 eexists.
  split; [reflexivity|].
  repeat (split; [eassumption|]).
  reflexivity.
Qed.



Lemma skipn_length_app (a b : str) : skipn (length a) (a ++ b) = b.
Proof.
  rewrite skipn_app, Nat.sub_diag, skipn_all. reflexivity.
Qed.

(** A matching header and what [jsonHeader] makes of it. *)
Lemma jsonHeader_match (raw : str) (e0 : OpenAIError) :
  jsonHeader raw = Some e0 ->
  exists verb ws1 url ws2 ws3 digits ws4 reason ws5 rest,
    TrimSpace raw =
      verb ++ ws1 ++ dquote ++ url ++ dquote ++ ws2 ++ lit ":" ++ ws3
        ++ digits ++ ws4 ++ reason ++ ws5 ++ rest /\
    isVerb verb /\
    ws1 <> [] /\ forallb re_space ws1 = true /\
    url <> [] /\ forallb notQuote url = true /\
    forallb re_space ws2 = true /\ forallb re_space ws3 = true /\
    (exists d1 d2 d3, digits = [d1; d2; d3] /\ isDigit d1 = true /\
                      isDigit d2 = true /\ isDigit d3 = true) /\
    ws4 <> [] /\ forallb re_space ws4 = true /\
    reason <> [] /\ forallb letterOrSpace reason = true /\
    ws5 <> [] /\ forallb re_space ws5 = true /\
    e0 = {| Method := verb; URL := url;
            Status := (let '(s, ok) := Atoi digits in if ok then s else 0%Z);
            Reason := TrimSpace reason;
            Message := []; Type_ := []; Param := None; Code := [];
            RateInfo := None |}.
Proof.
  unfold jsonHeader. intros H.
  destruct (FindStringSubmatch jsonHeadRe 4 (TrimSpace raw)) eqn:E;
    [discriminate|].
  rewrite <- E in H.
  destruct (@jsonHeadRe_match (TrimSpace raw)) as
      (verb & ws1 & url & ws2 & ws3 & digits & ws4 & reason & ws5 & rest & Es
       & H1 & H2 & H3 & H4 & H5 & H6 & H7 & H8 & H9 & H10 & H11 & H12 & H13
       & H14 & Em); [congruence|].
  rewrite Em in H. cbn in H. inversion H; subst; clear H.
  exists verb, ws1, url, ws2, ws3, digits, ws4, reason, ws5, rest.
  repeat (split; [assumption|]). reflexivity.
Qed.

(** ** Running the search on a text of known shape

    Greedy repetition takes the longest run of the class.  The lemmas below
    give the result of [run] when the continuation succeeds there, or fails
    there and succeeds one byte earlier. *)

Definition stops (p : byte -> bool) (rest : str) : bool :=
  match rest with
  | [] => true
  | b :: _ => negb (p b)
  end.

Lemma stops_app (p : byte -> bool) (w rest : str) :
  w <> [] -> stops p w = true -> stops p (w ++ rest) = true.
Proof. destruct w; [congruence|auto]. Qed.

Lemma star_stop (p : byte -> bool) (rest : str) (pos : nat)
      (k : nat -> str -> option Caps) :
  stops p rest = true -> star p pos rest k = k pos rest.
Proof.
  destruct rest as [|b t]; [reflexivity|]. simpl. intros H.
  apply negb_true_iff in H. now rewrite H.
Qed.

Lemma star_max (p : byte -> bool) :
  forall (w rest : str) (pos : nat) (k : nat -> str -> option Caps) r,
    forallb p w = true -> stops p rest = true ->
    k (pos + length w) rest = Some r ->
    star p pos (w ++ rest) k = Some r.
Proof.
  induction w as [|x w IH]; intros rest pos k r Hw Hs Hk.
  - cbn [app]. rewrite star_stop by assumption.
    now rewrite Nat.add_0_r in Hk.
  - cbn [app star]. simpl in Hw. apply andb_true_iff in Hw.
    destruct Hw as [Hx Hw]. rewrite Hx.
    rewrite (IH rest (S pos) k r); auto.
    cbn [length] in Hk. now rewrite Nat.add_succ_r in Hk.
Qed.

Lemma star_back1 (p : byte -> bool) :
  forall (w : str) (x : byte) (rest : str) (pos : nat)
         (k : nat -> str -> option Caps) r,
    forallb p w = true -> p x = true -> stops p rest = true ->
    k (pos + length w + 1) rest = None ->
    k (pos + length w) (x :: rest) = Some r ->
    star p pos (w ++ x :: rest) k = Some r.
Proof.
  induction w as [|y w IH]; intros x rest pos k r Hw Hx Hs Hn Hk.
  - cbn [app star]. rewrite Hx. rewrite star_stop by assumption.
    cbn [length] in *. rewrite Nat.add_0_r in *. rewrite Nat.add_1_r in Hn.
    now rewrite Hn.
  - cbn [app star]. simpl in Hw. apply andb_true_iff in Hw.
    destruct Hw as [Hy Hw]. rewrite Hy.
    rewrite (IH x rest (S pos) k r); auto; cbn [length] in *.
    + replace (S pos + length w + 1) with (pos + S (length w) + 1) by lia.
      exact Hn.
    + replace (S pos + length w) with (pos + S (length w)) by lia.
      exact Hk.
Qed.

Lemma firstn_matched (pos : nat) (w rest : str) :
  firstn (pos + length w - pos) (w ++ rest) = w.
Proof.
  replace (pos + length w - pos) with (length w) by lia.
  rewrite firstn_app, Nat.sub_diag, firstn_all. simpl. apply app_nil_r.
Qed.

Section Forward.

Variables (R : regex) (k : Cont).

Lemma run_Cat_Bot (s : str) (c : Caps) :
  run (Cat Bot R) 0 s c k = run R 0 s c k.
Proof. reflexivity. Qed.

Lemma run_Cat_Eot (pos : nat) (c : Caps) :
  run Eot pos [] c k = k pos [] c.
Proof. reflexivity. Qed.

Lemma run_Cat_Lit (l rest : str) (pos : nat) (c : Caps) :
  run (Cat (Lit l) R) pos (l ++ rest) c k = run R (pos + length l) rest c k.
Proof.
  cbn [run]. now rewrite HasPrefix_app, skipn_length_app.
Qed.

Lemma run_Cat_Plus_max (p : byte -> bool) (w rest : str) (pos : nat)
      (c : Caps) r :
  w <> [] -> forallb p w = true -> stops p rest = true ->
  run R (pos + length w) rest c k = Some r ->
  run (Cat (Plus p) R) pos (w ++ rest) c k = Some r.
Proof.
  destruct w as [|x w]; [congruence|]. intros _ Hw Hs Hk.
  simpl in Hw. apply andb_true_iff in Hw. destruct Hw as [Hx Hw].
  cbn [run app]. rewrite Hx.
  apply star_max; auto.
  cbn [length] in Hk. now rewrite Nat.add_succ_r in Hk.
Qed.

Lemma run_Cat_GrpPlus_max (i : nat) (p : byte -> bool) (w rest : str)
      (pos : nat) (c : Caps) r :
  w <> [] -> forallb p w = true -> stops p rest = true ->
  run R (pos + length w) rest (setCap i w c) k = Some r ->
  run (Cat (Grp i (Plus p)) R) pos (w ++ rest) c k = Some r.
Proof.
  destruct w as [|x w]; [congruence|]. intros _ Hw Hs Hk.
  simpl in Hw. apply andb_true_iff in Hw. destruct Hw as [Hx Hw].
  cbn [run app]. rewrite Hx.
  apply star_max; auto.
  change (x :: w ++ rest) with ((x :: w) ++ rest).
  replace (S pos + length w) with (pos + length (x :: w))
    by (cbn [length]; lia).
  now rewrite firstn_matched.
Qed.

Lemma run_Cat_GrpPlus_back1 (i : nat) (p : byte -> bool) (w : str) (x : byte)
      (rest : str) (pos : nat) (c : Caps) r :
  w <> [] -> forallb p w = true -> p x = true -> stops p rest = true ->
  run R (pos + length w + 1) rest (setCap i (w ++ [x]) c) k = None ->
  run R (pos + length w) (x :: rest) (setCap i w c) k = Some r ->
  run (Cat (Grp i (Plus p)) R) pos (w ++ x :: rest) c k = Some r.
Proof.
  destruct w as [|y w]; [congruence|]. intros _ Hw Hx Hs Hn Hk.
  simpl in Hw. apply andb_true_iff in Hw. destruct Hw as [Hy Hw].
  cbn [run app]. rewrite Hy.
  apply star_back1; auto.
  - change (y :: w ++ x :: rest) with ((y :: w) ++ [x] ++ rest).
    rewrite app_assoc.
    replace (S pos + length w + 1) with (pos + length ((y :: w) ++ [x]))
      by (rewrite length_app; cbn [length]; lia).
    rewrite firstn_matched.
    replace (pos + length ((y :: w) ++ [x])) with (pos + length (y :: w) + 1)
      by (rewrite length_app; cbn [length]; lia).
    exact Hn.
  - change (y :: w ++ x :: rest) with ((y :: w) ++ x :: rest).
    replace (S pos + length w) with (pos + length (y :: w))
      by (cbn [length]; lia).
    now rewrite firstn_matched.
Qed.

Lemma run_Cat_GrpStar_max (i : nat) (p : byte -> bool) (w rest : str)
      (pos : nat) (c : Caps) r :
  forallb p w = true -> stops p rest = true ->
  run R (pos + length w) rest (setCap i w c) k = Some r ->
  run (Cat (Grp i (Star p)) R) pos (w ++ rest) c k = Some r.
Proof.
  intros Hw Hs Hk. cbn [run]. apply star_max; auto.
  now rewrite firstn_matched.
Qed.

Lemma run_Cat_Grp_verbs (i : nat) (v rest : str) (pos : nat) (c : Caps) :
  isVerb v ->
  run (Cat (Grp i verbs) R) pos (v ++ rest) c k =
  run R (pos + length v) rest (setCap i v c) k.
Proof.
  intros [ -> | [ -> | [ -> | [ -> | -> ] ] ] ];
    cbn [run verbs]; cbn.
  all: match goal with
       | |- context [firstn (?p + ?n - ?p) _] =>
           replace (p + n - p) with n by lia
       end; cbn [firstn].
  all: try (destruct (run R _ _ _ k); reflexivity).
Qed.

Lemma run_Cat_Grp_threeDigits (i : nat) (d1 d2 d3 : byte) (rest : str)
      (pos : nat) (c : Caps) :
  isDigit d1 = true -> isDigit d2 = true -> isDigit d3 = true ->
  run (Cat (Grp i threeDigits) R) pos ([d1; d2; d3] ++ rest) c k =
  run R (pos + 3) rest (setCap i [d1; d2; d3] c) k.
Proof.
  intros H1 H2 H3. cbn [run threeDigits app]. rewrite H1, H2, H3.
  replace (S (S (S pos))) with (pos + 3) by lia.
  replace (pos + 3 - pos) with 3 by lia. reflexivity.
Qed.

End Forward.

Lemma search_here (re : regex) (n pos : nat) (s : str) (caps : Caps) :
  run (Grp 0 re) pos s (repeat None (S n)) accept = Some caps ->
  search re n pos s = Some caps.
Proof.
  intros H. destruct s; cbn [search]; now rewrite H.
Qed.
Section LowerCase.

Variable unicodeLower : Z -> Z.
Local Abbreviation lower := (ToLower unicodeLower).

Lemma isCont_high (b : byte) : isCont b = true -> (128 <= code b)%Z.
Proof. unfold isCont, inRange. lia. Qed.

Lemma second3_high (b0 b1 : byte) :
  second3 b0 b1 = true -> (128 <= code b1)%Z.
Proof.
  unfold second3. destruct b0; try apply isCont_high; unfold inRange; lia.
Qed.

Lemma second4_high (b0 b1 : byte) :
  second4 b0 b1 = true -> (128 <= code b1)%Z.
Proof.
  unfold second4. destruct b0; try apply isCont_high; unfold inRange; lia.
Qed.

(** The bytes a rune takes beyond its first are there, and none is ASCII. *)
Lemma decodeRune_more (b0 : byte) (t : str) (r : Z) (more : nat) :
  decodeRune b0 t = (r, more) ->
  exists u v, t = u ++ v /\ length u = more /\
              Forall (fun c => (128 <= code c)%Z) u.
Proof.
  unfold decodeRune. intros H.
  repeat match type of H with
  | (if ?c then _ else _) = _ => destruct c eqn:?
  | match ?l with [] => _ | _ :: _ => _ end = _ => destruct l
  end;
  inversion H; subst; clear H;
  repeat match goal with
  | H : _ && _ = true |- _ => apply andb_true_iff in H; destruct H
  end;
  try (exists []; eexists; split; [reflexivity|]; split; [reflexivity|];
       constructor).
  - exists [b]. eexists. split; [reflexivity|]. split; [reflexivity|].
    repeat constructor. now apply isCont_high.
  - exists [b; b1]. eexists. split; [reflexivity|]. split; [reflexivity|].
    repeat constructor; [eapply second3_high; eauto|now apply isCont_high].
  - exists [b; b1; b2]. eexists. split; [reflexivity|]. split; [reflexivity|].
    repeat constructor;
      [eapply second4_high; eauto|now apply isCont_high|now apply isCont_high].
Qed.

Lemma ToLower_step (b0 : byte) (t : str) :
  exists u v, t = u ++ v /\ Forall (fun c => (128 <= code c)%Z) u /\
    lower (b0 :: t) = lowered unicodeLower (fst (decodeRune b0 t)) ++ lower v.
Proof.
  destruct (decodeRune b0 t) as [r more] eqn:E.
  destruct (decodeRune_more _ _ E) as (u & v & -> & Hl & Hu).
  exists u, v. split; [reflexivity|]. split; [assumption|].
  cbn [ToLower]. rewrite E. cbn [fst]. f_equal.
  destruct u as [|u1 [|u2 [|u3 [|u4 u]]]]; simpl in Hl; subst more;
    try reflexivity.
  exfalso. unfold decodeRune in E.
  repeat match type of E with
  | (if ?c then _ else _) = _ => destruct c
  | match ?l with [] => _ | _ :: _ => _ end = _ => destruct l
  end; discriminate.
Qed.

Lemma ToLower_ascii (b0 : byte) (t : str) :
  (code b0 < 128)%Z ->
  lower (b0 :: t) = lowered unicodeLower (code b0) ++ lower t.
Proof.
  intros H. cbn [ToLower]. unfold decodeRune.
  replace (code b0 <? 128)%Z with true by (symmetry; now apply Z.ltb_lt).
  reflexivity.
Qed.

(** An ASCII byte is a rune of its own wherever it stands: what precedes it
    is lowered without it. *)
Lemma ToLower_before_ascii (b0 : byte) (t : str) :
  (code b0 < 128)%Z ->
  forall (n : nat) (a : str), length a <= n ->
    exists x, lower (a ++ b0 :: t) = x ++ lower (b0 :: t).
Proof.
  intros Hb. induction n as [|n IH]; intros a Hn.
  - destruct a; [|simpl in Hn; lia]. exists []. reflexivity.
  - destruct a as [|c a]; [exists []; reflexivity|].
    cbn [app]. destruct (ToLower_step c (a ++ b0 :: t)) as (u & v & E & Hu & ->).
    assert (exists a', a = u ++ a' /\ v = a' ++ b0 :: t) as (a' & -> & ->).
    { clear - E Hu Hb. revert a E. induction Hu as [|x u Hx Hu IHu]; intros a E.
      - exists a. auto.
      - destruct a as [|y a]; simpl in E; inversion E; subst.
        + lia.
        + destruct (IHu a H1) as (a' & -> & ->). exists a'. auto. }
    destruct (IH a') as (x & ->).
    { simpl in Hn. rewrite length_app in Hn. lia. }
    eexists. rewrite app_assoc. reflexivity.
Qed.

Lemma ToLower_rate_limit (a b : str) :
  Contains (lower (a ++ lit "Rate limit" ++ b)) (lit "rate limit") = true.
Proof.
  change (a ++ lit "Rate limit" ++ b)
    with (a ++ x52 :: (lit "ate limit" ++ b)).
  destruct (@ToLower_before_ascii x52 (lit "ate limit" ++ b)) with
      (n := length a) (a := a) as (x & ->); [vm_compute; reflexivity|lia|].
  change (x52 :: lit "ate limit" ++ b) with
    (x52 :: x61 :: x74 :: x65 :: x20 :: x6c :: x69 :: x6d :: x69 :: x74 :: b).
  repeat (rewrite ToLower_ascii by (vm_compute; reflexivity)).
  change (lowered unicodeLower (code x52)) with [x72].
  change (lowered unicodeLower (code x61)) with [x61].
  change (lowered unicodeLower (code x74)) with [x74].
  change (lowered unicodeLower (code x65)) with [x65].
  change (lowered unicodeLower (code x20)) with [x20].
  change (lowered unicodeLower (code x6c)) with [x6c].
  change (lowered unicodeLower (code x69)) with [x69].
  change (lowered unicodeLower (code x6d)) with [x6d].
  cbn [app].
  change (x72 :: x61 :: x74 :: x65 :: x20 :: x6c :: x69 :: x6d :: x69 :: x74
              :: lower b) with (lit "rate limit" ++ lower b).
  apply Contains_app.
Qed.

End LowerCase.

(** A text on which the rate-limit pattern matches holds its opening
    words. *)
Lemma rateRe_match (s : str) :
  FindStringSubmatch rateRe 9 s <> [] ->
  exists a b, s = a ++ lit "Rate limit" ++ b.
Proof.
  unfold FindStringSubmatch.
  destruct (search rateRe 9 0 s) as [caps|] eqn:H; [|congruence].
  intros _. apply search_sound in H.
  destruct H as (a & w & b & c' & -> & M & _).
  unfold rateRe in M. cbn [seq] in M.
  inversion M as [| | |? ? ? ? ? ? ? ? ? M0 M1| | | | | | |]; subst; clear M.
  inversion M0; subst; clear M0 M1.
  exists a. eexists.
  change (lit "Rate limit reached for ")
    with (lit "Rate limit" ++ lit " reached for ").
  repeat rewrite <- app_assoc. reflexivity.
Qed.

(** ** The plain header on a rendered error *)

Lemma notSpace_stops (u : str) :
  forallb notSpace u = true -> stops re_space u = true.
Proof.
  destruct u as [|b u]; [reflexivity|]. simpl. intros H.
  apply andb_true_iff in H. exact (proj1 H).
Qed.

(** On [METHOD URL: DDD REASON - MESSAGE], with a URL free of white space, a
    reason of letters and spaces that starts with a letter, and a message
    without newline that starts with no white space, the header of the plain
    dialect matches and captures the five pieces. *)
Lemma plainHeadRe_render (V U R M : str) (d1 d2 d3 : byte) :
  isVerb V ->
  U <> [] -> forallb notSpace U = true ->
  isDigit d1 = true -> isDigit d2 = true -> isDigit d3 = true ->
  R <> [] -> forallb letterOrSpace R = true -> stops re_space R = true ->
  stops re_space M = true -> forallb anyButNewline M = true ->
  let s := V ++ lit " " ++ U ++ lit ": " ++ [d1; d2; d3] ++ lit " " ++ R
             ++ lit " - " ++ M in
  FindStringSubmatch plainHeadRe 5 s = [s; V; U; [d1; d2; d3]; R; M].
Proof.
  intros HV HU0 HU H1 H2 H3 HR0 HR HRs HMs HM s.
  unfold FindStringSubmatch.
  assert (E : search plainHeadRe 5 0 s =
              Some (setCap 0 s
                      (setCap 5 M
                         (setCap 4 R
                            (setCap 3 [d1; d2; d3]
                               (setCap 2 U (setCap 1 V (repeat None 6)))))))).
  2: { rewrite E. reflexivity. }
  apply search_here. cbn [run].
  unfold plainHeadRe. cbn [seq].
  rewrite run_Cat_Bot.
  subst s. rewrite run_Cat_Grp_verbs by exact HV.
  apply run_Cat_Plus_max with (w := lit " ");
    [discriminate | reflexivity
    | apply stops_app; [exact HU0 | now apply notSpace_stops] |].
  change (lit ": " ++ [d1; d2; d3] ++ lit " " ++ R ++ lit " - " ++ M)
    with (x3a :: lit " " ++ [d1; d2; d3] ++ lit " " ++ R ++ lit " - " ++ M).
  apply run_Cat_GrpPlus_back1;
    [exact HU0 | exact HU | reflexivity | reflexivity | reflexivity |].
  change (x3a :: lit " " ++ [d1; d2; d3] ++ lit " " ++ R ++ lit " - " ++ M)
    with (lit ":" ++ lit " " ++ [d1; d2; d3] ++ lit " " ++ R ++ lit " - " ++ M).
  rewrite run_Cat_Lit.
  apply run_Cat_Plus_max with (w := lit " ");
    [discriminate | reflexivity
    | cbn [app stops]; unfold isDigit, inRange in H1;
      destruct d1; try discriminate H1; reflexivity |].
  rewrite run_Cat_Grp_threeDigits by assumption.
  apply run_Cat_Plus_max with (w := lit " ");
    [discriminate | reflexivity | apply stops_app; assumption |].
  change (lit " - " ++ M) with (x20 :: lit "- " ++ M).
  apply run_Cat_GrpPlus_back1;
    [exact HR0 | exact HR | reflexivity | reflexivity | reflexivity |].
  change (x20 :: lit "- " ++ M) with (lit " " ++ lit "-" ++ lit " " ++ M).
  apply run_Cat_Plus_max with (w := lit " ");
    [discriminate | reflexivity | reflexivity |].
  rewrite run_Cat_Lit.
  apply run_Cat_Plus_max with (w := lit " ");
    [discriminate | reflexivity | exact HMs |].
  rewrite <- (app_nil_r M) at 1.
  apply run_Cat_GrpStar_max; [exact HM | reflexivity |].
  cbn [run]. unfold accept.
  rewrite firstn_all2; [reflexivity|].
  repeat (rewrite length_app; cbn [length]). cbn [lit]. lia.
Qed.

(** ** What the plain header and the rate-limit pattern capture *)

Ltac inv_seq :=
  repeat match goal with
  | H : Matches (Cat _ _) _ _ _ _ _ |- _ => inversion H; clear H; subst
  end;
  repeat match goal with
  | H : Matches (Grp _ _) _ _ _ _ _ |- _ => inversion H; clear H; subst
  | H : Matches (Lit _) _ _ _ _ _ |- _ => inversion H; clear H; subst
  | H : Matches (Plus _) _ _ _ _ _ |- _ => inversion H; clear H; subst
  | H : Matches (Star _) _ _ _ _ _ |- _ => inversion H; clear H; subst
  | H : Matches (Alt _ _) _ _ _ _ _ |- _ => inversion H; clear H; subst
  | H : Matches Eot _ _ _ _ _ |- _ => inversion H; clear H; subst
  | H : Matches verbs _ _ _ _ _ |- _ =>
      apply Matches_verbs in H; destruct H as [? ->]
  | H : Matches threeDigits _ _ _ _ _ |- _ =>
      apply Matches_threeDigits in H; destruct H as [-> ?]
  end.

(** The shape of a text on which the header of the plain dialect matches. *)
Lemma plainHeadRe_match (s : str) :
  FindStringSubmatch plainHeadRe 5 s <> [] ->
  exists verb ws1 url ws2 digits ws3 reason ws4 ws5 msg,
    s = verb ++ ws1 ++ url ++ lit ":" ++ ws2 ++ digits ++ ws3 ++ reason
          ++ ws4 ++ lit "-" ++ ws5 ++ msg /\
    isVerb verb /\
    ws1 <> [] /\ forallb re_space ws1 = true /\
    url <> [] /\ forallb notSpace url = true /\
    ws2 <> [] /\ forallb re_space ws2 = true /\
    (exists d1 d2 d3, digits = [d1; d2; d3] /\ isDigit d1 = true /\
                      isDigit d2 = true /\ isDigit d3 = true) /\
    ws3 <> [] /\ forallb re_space ws3 = true /\
    reason <> [] /\ forallb letterOrSpace reason = true /\
    ws4 <> [] /\ forallb re_space ws4 = true /\
    ws5 <> [] /\ forallb re_space ws5 = true /\
    forallb anyButNewline msg = true /\
    FindStringSubmatch plainHeadRe 5 s = [s; verb; url; digits; reason; msg].
Proof.
  unfold FindStringSubmatch.
  destruct (search plainHeadRe 5 0 s) as [caps|] eqn:H; [|congruence].
  intros _. apply search_sound in H.
  destruct H as (a & w & b & c' & -> & M & ->).
  unfold plainHeadRe in M. cbn [seq] in M.
  inversion M as [| | |? ? ? ? ? ? ? ? ? M0 M1| | | | | | |]; subst; clear M.
  inversion M0; subst; clear M0.
  match goal with H : 0 = _ |- _ =>
    destruct a; [clear H|discriminate H] end.
  cbn [length Nat.add app] in *.
  inv_seq.
  repeat rewrite <- app_assoc. cbn [app]. rewrite ?app_nil_r.
  do 10 eexists.
  split; [reflexivity|].
  repeat (split; [eassumption|]).
  cbn. repeat rewrite <- app_assoc. reflexivity.
Qed.

Lemma Matches_Cat_Lit (l : str) (R : regex) pos w rest c c' :
  Matches (Cat (Lit l) R) pos w rest c c' ->
  exists w', w = l ++ w' /\ Matches R (pos + length l) w' rest c c'.
Proof.
  intros H. inversion H; subst; clear H.
  match goal with H : Matches (Lit _) _ _ _ _ _ |- _ =>
    inversion H; subst; clear H end.
  eauto.
Qed.

Lemma Matches_GrpPlus (i : nat) (p : byte -> bool) pos w rest c c' :
  Matches (Grp i (Plus p)) pos w rest c c' ->
  w <> [] /\ forallb p w = true /\ c' = setCap i w c.
Proof.
  intros H. inversion H; subst; clear H.
  match goal with H : Matches (Plus _) _ _ _ _ _ |- _ =>
    inversion H; subst; clear H end.
  auto.
Qed.

Lemma Matches_Cat_GrpPlus (i : nat) (p : byte -> bool) (R : regex)
      pos w rest c c' :
  Matches (Cat (Grp i (Plus p)) R) pos w rest c c' ->
  exists g w', w = g ++ w' /\ g <> [] /\ forallb p g = true /\
               Matches R (pos + length g) w' rest (setCap i g c) c'.
Proof.
  intros H. inversion H; subst; clear H.
  match goal with H : Matches (Grp _ _) _ _ _ _ _ |- _ =>
    apply Matches_GrpPlus in H; destruct H as (? & ? & ->) end.
  eauto 6.
Qed.

Lemma Matches_Cat_GrpAltLit (i : nat) (l1 l2 : str) (R : regex)
      pos w rest c c' :
  Matches (Cat (Grp i (Alt (Lit l1) (Lit l2))) R) pos w rest c c' ->
  exists g w', w = g ++ w' /\ (g = l1 \/ g = l2) /\
               Matches R (pos + length g) w' rest (setCap i g c) c'.
Proof.
  intros H. inversion H; subst; clear H.
  match goal with H : Matches (Grp _ _) _ _ _ _ _ |- _ =>
    inversion H; subst; clear H end.
  match goal with H : Matches (Alt _ _) _ _ _ _ _ |- _ =>
    inversion H; subst; clear H end;
  match goal with H : Matches (Lit _) _ _ _ _ _ |- _ =>
    inversion H; subst; clear H end; eauto 6.
Qed.

(** The shape of a text in which the rate-limit pattern matches, and the
    nine groups. *)
Lemma rateRe_captures (s : str) :
  FindStringSubmatch rateRe 9 s <> [] ->
  exists a model scope sid metric lim used req sec url b,
    s = a ++ lit "Rate limit reached for " ++ model ++ lit " in " ++ scope
          ++ lit " " ++ sid ++ lit " on " ++ metric ++ lit ": Limit " ++ lim
          ++ lit ", Used " ++ used ++ lit ", Requested " ++ req
          ++ lit ". Please try again in " ++ sec ++ lit "s. Visit " ++ url
          ++ b /\
    model <> [] /\ forallb wordDashDot model = true /\
    (scope = lit "organization" \/ scope = lit "project") /\
    sid <> [] /\ forallb wordDash sid = true /\
    metric <> [] /\ forallb notColon metric = true /\
    lim <> [] /\ forallb isDigit lim = true /\
    used <> [] /\ forallb isDigit used = true /\
    req <> [] /\ forallb isDigit req = true /\
    sec <> [] /\ forallb digitOrDot sec = true /\
    url <> [] /\ forallb notSpace url = true /\
    exists whole,
      FindStringSubmatch rateRe 9 s =
      [whole; model; scope; sid; metric; lim; used; req; sec; url].
Proof.
  unfold FindStringSubmatch.
  destruct (search rateRe 9 0 s) as [caps|] eqn:H; [|congruence].
  intros _. apply search_sound in H.
  destruct H as (a & w & b & c' & -> & M & ->).
  unfold rateRe in M. cbn [seq] in M.
  apply Matches_Cat_Lit in M. destruct M as (w1 & -> & M).
  apply Matches_Cat_GrpPlus in M.
  destruct M as (model & w2 & -> & Hm0 & Hm & M).
  apply Matches_Cat_Lit in M. destruct M as (w3 & -> & M).
  apply Matches_Cat_GrpAltLit in M.
  destruct M as (scope & w4 & -> & Hsc & M).
  apply Matches_Cat_Lit in M. destruct M as (w5 & -> & M).
  apply Matches_Cat_GrpPlus in M.
  destruct M as (sid & w6 & -> & Hs0 & Hs & M).
  apply Matches_Cat_Lit in M. destruct M as (w7 & -> & M).
  apply Matches_Cat_GrpPlus in M.
  destruct M as (metric & w8 & -> & Hme0 & Hme & M).
  apply Matches_Cat_Lit in M. destruct M as (w9 & -> & M).
  apply Matches_Cat_GrpPlus in M.
  destruct M as (lim & w10 & -> & Hl0 & Hl & M).
  apply Matches_Cat_Lit in M. destruct M as (w11 & -> & M).
  apply Matches_Cat_GrpPlus in M.
  destruct M as (used & w12 & -> & Hu0 & Hu & M).
  apply Matches_Cat_Lit in M. destruct M as (w13 & -> & M).
  apply Matches_Cat_GrpPlus in M.
  destruct M as (req & w14 & -> & Hr0 & Hr & M).
  apply Matches_Cat_Lit in M. destruct M as (w15 & -> & M).
  apply Matches_Cat_GrpPlus in M.
  destruct M as (sec & w16 & -> & Hse0 & Hse & M).
  apply Matches_Cat_Lit in M. destruct M as (url & -> & M).
  apply Matches_GrpPlus in M. destruct M as (Hur0 & Hur & ->).
  exists a, model, scope, sid, metric, lim, used, req, sec, url, b.
  split; [repeat rewrite <- app_assoc; reflexivity|].
  repeat (split; [assumption|]).
  eexists. reflexivity.
Qed.

(** [strconv.Atoi] on a run of digits: never negative, and the largest
    [int] when the number does not fit. *)
Lemma digitsVal_digits : forall (s : str) (acc : Z),
  forallb isDigit s = true -> (0 <= acc)%Z ->
  exists v, digitsVal s acc = Some v /\ (acc <= v)%Z.
Proof.
  induction s as [|b s IH]; intros acc H Ha.
  - exists acc. split; [reflexivity|lia].
  - simpl in H. apply andb_true_iff in H. destruct H as [Hb Hs].
    cbn [digitsVal]. rewrite Hb. pose proof (isDigit_code _ Hb).
    destruct (IH (acc * 10 + (code b - 48))%Z Hs) as (v & Ev & Hv); [lia|].
    rewrite Ev.
    exists v. split; [reflexivity|lia].
Qed.

Lemma Atoi_digits (s : str) :
  s <> [] -> forallb isDigit s = true ->
  exists v,
    digitsVal s 0 = Some v /\ (0 <= v)%Z /\
    atoiValue s = (if (maxInt64 <? v)%Z then maxInt64 else v).
Proof.
  intros Hs Hd. destruct (@digitsVal_digits s 0%Z Hd) as (v & Ev & Hv); [lia|].
  exists v. split; [exact Ev|]. split; [exact Hv|].
  destruct s as [|b t]; [congruence|].
  assert (E : Atoi (b :: t) =
              match digitsVal (b :: t) 0 with
              | None => (0%Z, false)
              | Some v =>
                  if (maxInt64 <? v)%Z then (maxInt64, false)
                  else if (v <? minInt64)%Z then (minInt64, false)
                  else (v, true)
              end).
  { simpl in Hd. apply andb_true_iff in Hd. destruct Hd as [Hb _].
    destruct b; try discriminate Hb; reflexivity. }
  unfold atoiValue. rewrite E, Ev.
  destruct (maxInt64 <? v)%Z; [reflexivity|].
  replace (v <? minInt64)%Z with false
    by (symmetry; apply Z.ltb_ge; unfold minInt64; lia).
  reflexivity.
Qed.
Section Properties.

Variable unicodeLower : Z -> Z.
Variable json_Unmarshal : str -> option shell.
Variable convOverflow : Z.

Local Abbreviation parseJson := (ParseOpenAIJsonError unicodeLower json_Unmarshal convOverflow).
Local Abbreviation parsePlain := (ParseOpenAIPlainError unicodeLower convOverflow).
Local Abbreviation lower := (ToLower unicodeLower).
Local Abbreviation finish := (jsonFinish unicodeLower convOverflow).
Local Abbreviation decode := (decodeBody json_Unmarshal).
Local Abbreviation rateLimited := (IsRateLimit unicodeLower).

(** ** The parser in terms of its stages *)

Lemma ParseOpenAIJsonError_stages raw :
  parseJson raw =
  match jsonHeader raw with
  | None => Fail (lit "unrecognized header format")
  | Some e =>
      match jsonBody raw with
      | None => Ok e
      | Some jsonPart =>
          match decode jsonPart with
          | Some sh => finish e sh
          | None => Ok (withMessage e (TrimSpace jsonPart))
          end
      end
  end.
Proof.
  unfold ParseOpenAIJsonError, jsonHeader, jsonBody, decodeBody.
  destruct (Nat.eqb _ 5); [|reflexivity].
  destruct (Z.eqb _ (-1)); [reflexivity|].
  destruct (json_Unmarshal _); [reflexivity|].
  destruct (Z.ltb 0 _); [|reflexivity].
  destruct (json_Unmarshal _); reflexivity.
Qed.

Lemma jsonHeader_body_empty raw e0 :
  jsonHeader raw = Some e0 ->
  Message e0 = [] /\ Type_ e0 = [] /\ Param e0 = None /\ Code e0 = [] /\
  RateInfo e0 = None.
Proof.
  unfold jsonHeader. destruct (Nat.eqb _ 5); [|discriminate].
  intros H. inversion H; subst. simpl. auto.
Qed.

Lemma jsonFinish_Ok e0 sh : exists e, finish e0 sh = Ok e.
Proof. unfold jsonFinish. eexists. reflexivity. Qed.

Lemma jsonFinish_fields e0 sh :
  RateInfo e0 = None ->
  exists e,
    finish e0 sh = Ok e /\
    Method e = Method e0 /\ URL e = URL e0 /\ Status e = Status e0 /\
    Reason e = Reason e0 /\
    Message e = shellMessage sh /\ Type_ e = shellType sh /\
    Param e = shellParam sh /\
    Code e =
      (if str_eqb (shellCode sh) [] && (Status e0 =? 429)%Z
          && Contains (lower (shellMessage sh)) (lit "rate limit")
       then lit "rate_limit_exceeded" else shellCode sh) /\
    (RateInfo e <> None <->
     length (FindStringSubmatch rateRe 9 (shellMessage sh)) = 10).
Proof.
  intros HR.
  unfold jsonFinish, shellMessage, shellType, shellParam, shellCode.
  destruct (sh_Error sh) as [inner|]; simpl.
  all: match goal with
       | |- context [Nat.eqb (length ?m) 10] =>
           destruct (Nat.eqb (length m) 10) eqn:Hm
       end; simpl.
  all: match goal with
       | |- context [if ?c then withCode _ _ else _] => destruct c eqn:Hc
       end.
  all: eexists; split; [reflexivity|]; simpl; repeat split; auto;
    try (intros _; now apply Nat.eqb_eq);
    try discriminate;
    try (intros H; exfalso; apply Nat.eqb_neq in Hm; contradiction);
    try congruence.
  all: try (simpl in Hc; rewrite Hc; reflexivity).
Qed.

(** C9: [IsRateLimit] on a non-nil error holds exactly when the status is
    429, or the code is rate_limit_exceeded, or the lowercased message
    contains [rate limit]; on a nil error the three classifiers answer
    false. *)
Theorem C9_classifier :
  (forall e : OpenAIError,
      rateLimited (Some e) = true <->
      (Status e = 429%Z \/ Code e = lit "rate_limit_exceeded" \/
       Contains (lower (Message e)) (lit "rate limit") = true)) /\
  rateLimited None = false /\ IsAuth None = false /\
  IsServerError None = false.
Proof.
  split; [|repeat split].
  intros e. unfold IsRateLimit.
  destruct (Z.eqb_spec (Status e) 429) as [Hs|Hs].
  - split; auto.
  - destruct (str_eqb (Code e) (lit "rate_limit_exceeded")) eqn:Hc.
    + apply str_eqb_eq in Hc. split; auto.
    + split; [auto|].
      intros [H|[H|H]];
        [contradiction | apply str_eqb_eq in H; congruence | exact H].
Qed.

(** C7: each parser fails, with its header error and no error value, exactly
    when its header pattern does not match the trimmed input; and when the
    header of the JSON dialect matches, [ParseOpenAIJsonError] returns an
    error value on every path: no body, a body that cannot be decoded, a
    decoded body. *)
Theorem C7_header_unrecognized :
  (forall raw,
      parseJson raw = Fail (lit "unrecognized header format") <->
      FindStringSubmatch jsonHeadRe 4 (TrimSpace raw) = []) /\
  (forall raw,
      parsePlain raw = Fail (lit "unrecognized error format") <->
      FindStringSubmatch plainHeadRe 5 (TrimSpace raw) = []) /\
  (forall raw err, parseJson raw = Fail err ->
      err = lit "unrecognized header format") /\
  (forall raw err, parsePlain raw = Fail err ->
      err = lit "unrecognized error format") /\
  (forall raw,
      FindStringSubmatch jsonHeadRe 4 (TrimSpace raw) <> [] ->
      exists e0, jsonHeader raw = Some e0 /\
        match jsonBody raw with
        | None => parseJson raw = Ok e0
        | Some jsonPart =>
            match decode jsonPart with
            | None => parseJson raw = Ok (withMessage e0 (TrimSpace jsonPart))
            | Some sh => exists e, parseJson raw = Ok e /\ finish e0 sh = Ok e
            end
        end).
Proof.
  assert (HJ : forall raw,
             FindStringSubmatch jsonHeadRe 4 (TrimSpace raw) <> [] ->
             exists e0, jsonHeader raw = Some e0).
  { intros raw H. unfold jsonHeader.
    destruct (FindStringSubmatch_length jsonHeadRe 4 (TrimSpace raw)) as [E|E];
      [contradiction|]. rewrite E. simpl. eauto. }
  assert (HN : forall raw,
             FindStringSubmatch jsonHeadRe 4 (TrimSpace raw) = [] ->
             jsonHeader raw = None).
  { intros raw H. unfold jsonHeader. now rewrite H. }
  assert (HO : forall raw e0, jsonHeader raw = Some e0 ->
             exists e, parseJson raw = Ok e).
  { intros raw e0 H. rewrite ParseOpenAIJsonError_stages, H.
    destruct (jsonBody raw); [|eauto].
    destruct (decode s); [|eauto].
    destruct (jsonFinish_Ok e0 s0) as (e & ->). eauto. }
  split; [|split; [|split; [|split]]].
  - intros raw. split.
    + intros H.
      destruct (FindStringSubmatch jsonHeadRe 4 (TrimSpace raw)) eqn:E; auto.
      destruct (HJ raw) as (e0 & H0); [congruence|].
      destruct (HO raw e0 H0) as (e & He). congruence.
    + intros H. rewrite ParseOpenAIJsonError_stages, (HN raw H). reflexivity.
  - intros raw. unfold ParseOpenAIPlainError. split.
    + intros H.
      destruct (FindStringSubmatch_length plainHeadRe 5 (TrimSpace raw))
        as [E|E]; auto.
      rewrite E in H. simpl in H. discriminate.
    + intros ->. reflexivity.
  - intros raw err. rewrite ParseOpenAIJsonError_stages.
    destruct (jsonHeader raw) as [e0|]; [|congruence].
    destruct (jsonBody raw); [|discriminate].
    destruct (decode s); [|discriminate].
    destruct (jsonFinish_Ok e0 s0) as (e & ->). discriminate.
  - intros raw err. unfold ParseOpenAIPlainError.
    destruct (negb _); [congruence|discriminate].
  - intros raw H. destruct (HJ raw H) as (e0 & H0). exists e0. split; auto.
    rewrite ParseOpenAIJsonError_stages, H0.
    destruct (jsonBody raw); [|reflexivity].
    destruct (decode s); [|reflexivity].
    destruct (jsonFinish_Ok e0 s0) as (e & E). eauto.
Qed.


(** C3: when the decoded body carries a non-empty code, the parser returns
    that code unchanged; the code the parser returns differs from the code of
    the body only when the latter is empty, the status is 429 and the
    lowercased message contains [rate limit], and it is then
    rate_limit_exceeded. *)
Theorem C3_upstream_code_kept :
  forall (raw body : str) (e0 : OpenAIError) (sh : shell),
    jsonHeader raw = Some e0 ->
    jsonBody raw = Some body ->
    decodeBody json_Unmarshal body = Some sh ->
    exists e,
      ParseOpenAIJsonError unicodeLower json_Unmarshal convOverflow raw = Ok e /\
      (shellCode sh <> [] -> Code e = shellCode sh) /\
      (Code e <> shellCode sh ->
       shellCode sh = [] /\ Status e = 429%Z /\
       Contains (lower (Message e)) (lit "rate limit") = true /\
       Code e = lit "rate_limit_exceeded").
Proof.
  intros raw body e0 sh Hh Hb Hd.
  rewrite ParseOpenAIJsonError_stages, Hh, Hb, Hd.
  destruct (@jsonHeader_body_empty raw e0 Hh) as (_ & _ & _ & _ & HR).
  destruct (jsonFinish_fields e0 sh HR)
    as (e & -> & _ & _ & Hs & _ & Hm & _ & _ & Hc & _).
  exists e. split; [reflexivity|]. rewrite Hc, Hs, Hm.
  destruct (str_eqb (shellCode sh) []) eqn:E1; simpl.
  - apply str_eqb_eq in E1.
    destruct (Z.eqb_spec (Status e0) 429) as [E2|E2]; simpl.
    + destruct (Contains _ _) eqn:E3; split; intros H; try contradiction; auto.
    + split; intros H; try contradiction; auto.
  - split; intros H; try contradiction; auto.
Qed.

(** C8: when the first decoding fails, the parser decodes the prefix that
    ends at the last closing brace, if there is one past the first byte.  If
    there is none, or that decoding fails too, the message is the trimmed
    body text, and type, param, code and the rate-limit details stay empty.
    If it succeeds, message, type, param and code come from the prefix (the
    code through the default-code rule). *)
Theorem C8_truncated_body :
  forall (raw body : str) (e0 : OpenAIError),
    jsonHeader raw = Some e0 ->
    jsonBody raw = Some body ->
    json_Unmarshal body = None ->
    let last := LastIndex body (lit "}") in
    let prefix := sliceTo body (last + 1) in
    (* the prefix ends at the last closing brace *)
    ((0 < last)%Z ->
     exists a t, body = a ++ lit "}" ++ t /\ ~ In x7d t /\
                 prefix = a ++ lit "}" /\ a <> []) /\
    ((last <= 0)%Z -> ~ In x7d (skipn 1 body)) /\
    (* no brace, or the second decoding fails *)
    ((last <= 0)%Z \/ json_Unmarshal prefix = None ->
     exists e,
       ParseOpenAIJsonError unicodeLower json_Unmarshal convOverflow raw = Ok e /\
       Message e = TrimSpace body /\ Type_ e = [] /\ Param e = None /\
       Code e = [] /\ RateInfo e = None) /\
    (* the second decoding succeeds *)
    (forall sh,
       (0 < last)%Z -> json_Unmarshal prefix = Some sh ->
       exists e,
         ParseOpenAIJsonError unicodeLower json_Unmarshal convOverflow raw = Ok e /\
         Message e = shellMessage sh /\ Type_ e = shellType sh /\
         Param e = shellParam sh /\
         Code e =
           (if str_eqb (shellCode sh) [] && (Status e =? 429)%Z
               && Contains (lower (shellMessage sh)) (lit "rate limit")
            then lit "rate_limit_exceeded" else shellCode sh)).
Proof.
  intros raw body e0 Hh Hb Hu last prefix.
  destruct (@jsonHeader_body_empty raw e0 Hh) as (_ & Ht & Hp & Hc & HR).
  assert (Hparse :
            ParseOpenAIJsonError unicodeLower json_Unmarshal convOverflow raw =
            match (if (0 <? last)%Z then json_Unmarshal prefix else None) with
            | Some sh => finish e0 sh
            | None => Ok (withMessage e0 (TrimSpace body))
            end).
  { rewrite ParseOpenAIJsonError_stages, Hh, Hb. unfold decodeBody.
    rewrite Hu. reflexivity. }
  pose proof (LastIndex_byte x7d body) as HL.
  change (LastIndex body [x7d]) with last in HL.
  change (sliceTo body (last + 1)) with prefix in HL.
  destruct HL as [[Hn E]|(a & t & Eb & Hnt & E & Es)].
  - repeat split.
    + intros H. lia.
    + intros _ F. apply Hn. destruct body; simpl in F; [contradiction|].
      now right.
    + intros _. rewrite Hparse.
      replace (0 <? last)%Z with false by (symmetry; apply Z.ltb_ge; lia).
      eexists. split; [reflexivity|]. simpl. auto.
    + intros sh H. lia.
  - repeat split.
    + intros H. exists a, t. repeat split; auto.
      intros ->. simpl in E. lia.
    + intros H F. destruct a as [|x a]; [|simpl in E; lia].
      subst body. simpl in F. contradiction.
    + intros [H|H]; rewrite Hparse.
      * replace (0 <? last)%Z with false by (symmetry; apply Z.ltb_ge; lia).
        eexists. split; [reflexivity|]. simpl. auto.
      * rewrite H. destruct (0 <? last)%Z;
          (eexists; split; [reflexivity|]; simpl; auto).
    + intros sh H Hs. rewrite Hparse.
      replace (0 <? last)%Z with true by (symmetry; apply Z.ltb_lt; lia).
      rewrite Hs.
      destruct (jsonFinish_fields e0 sh HR)
        as (e & -> & _ & _ & Hst & _ & Hm & Hty & Hpa & Hco & _).
      exists e. rewrite Hst. auto.
Qed.


(** ** The rate-limit details and the default code *)

Lemma json_rate_info (raw : str) (e : OpenAIError) :
  ParseOpenAIJsonError unicodeLower json_Unmarshal convOverflow raw = Ok e ->
  RateInfo e <> None ->
  length (FindStringSubmatch rateRe 9 (Message e)) = 10.
Proof.
  rewrite ParseOpenAIJsonError_stages.
  destruct (jsonHeader raw) as [e0|] eqn:Hh; [|discriminate].
  destruct (@jsonHeader_body_empty raw e0 Hh) as (_ & _ & _ & _ & HR).
  destruct (jsonBody raw) as [body|].
  - destruct (decode body) as [sh|].
    + destruct (jsonFinish_fields e0 sh HR)
        as (e' & -> & _ & _ & _ & _ & Hm & _ & _ & _ & Hi).
      intros H. inversion H; subst. rewrite Hm. apply Hi.
    + intros H. inversion H; subst. simpl. congruence.
  - intros H. inversion H; subst. congruence.
Qed.

Lemma plain_rate_info (raw : str) (e : OpenAIError) :
  ParseOpenAIPlainError unicodeLower convOverflow raw = Ok e ->
  RateInfo e <> None ->
  length (FindStringSubmatch rateRe 9 (Message e)) = 10 /\
  (Status e = 429%Z -> Code e = lit "rate_limit_exceeded").
Proof.
  unfold ParseOpenAIPlainError. destruct (negb _); [discriminate|].
  cbv zeta. cbn [Message].
  set (m := FindStringSubmatch plainHeadRe 5 (TrimSpace raw)).
  set (msg := TrimSpace (at_ m 5)).
  destruct (Nat.eqb (length (FindStringSubmatch rateRe 9 msg)) 10) eqn:Hm.
  - apply Nat.eqb_eq in Hm. intros H _.
    assert (HC : Contains (ToLower unicodeLower msg) (lit "rate limit") = true).
    { destruct (@rateRe_match msg) as (a & b & Em);
        [intros F; rewrite F in Hm; discriminate|].
      rewrite Em. apply ToLower_rate_limit. }
    revert H.
    repeat match goal with
    | |- context [if Contains ?x (lit "token") then _ else _] =>
        destruct (Contains x (lit "token"))
    | |- context [if Contains ?x (lit "requests") then _ else _] =>
        destruct (Contains x (lit "requests"))
    end; cbn [Status Message withType withRateInfo withCode].
    all: fold msg; rewrite HC, andb_true_r.
    all: destruct (Z.eqb_spec (atoiValue (at_ m 3)) 429) as [E|E];
      intros H; inversion H; subst; clear H;
      cbn [Status Message Code withCode withType withRateInfo];
      (split; [exact Hm | intros E'; try reflexivity; contradiction]).
  - intros H HR. inversion H; subst. simpl in HR. congruence.
Qed.

(** C1, as the code has it: when the rate-limit details are present, the
    message matched the rate-limit pattern and the classifier reports a rate
    limit.  The status is the one of the header, whatever it is. *)
Theorem C1_rate_info_is_rate_limit :
  forall (raw : str) (e : OpenAIError),
    ParseOpenAIJsonError unicodeLower json_Unmarshal convOverflow raw = Ok e \/
    ParseOpenAIPlainError unicodeLower convOverflow raw = Ok e ->
    RateInfo e <> None ->
    IsRateLimit unicodeLower (Some e) = true /\
    length (FindStringSubmatch rateRe 9 (Message e)) = 10.
Proof.
  intros raw e H HR.
  assert (Hm : length (FindStringSubmatch rateRe 9 (Message e)) = 10).
  { destruct H as [H|H];
      [exact (@json_rate_info raw e H HR)
      | exact (proj1 (@plain_rate_info raw e H HR))]. }
  split; [|exact Hm].
  destruct (@rateRe_match (Message e)) as (a & b & Em).
  { intros F. rewrite F in Hm. discriminate. }
  unfold IsRateLimit.
  destruct (Status e =? 429)%Z; [reflexivity|].
  destruct (str_eqb (Code e) (lit "rate_limit_exceeded")); [reflexivity|].
  rewrite Em. apply ToLower_rate_limit.
Qed.

(** C2, as the code has it by design: for a status of 429 and a message
    that contains [rate limit] once lowercased, the code is
    rate_limit_exceeded, unless the body supplied a code of its own, which is
    kept.  The JSON parser: the input has a body, and when the body was
    decoded the code is that of the decoded body if it is not empty and
    rate_limit_exceeded otherwise.  The plain parser, which reads no code
    from its input: rate_limit_exceeded when it extracted the rate-limit
    details.  The two paths that return before the rule (a body that cannot
    be decoded, a plain message without the details) are not part of the
    statement. *)
Theorem C2_default_code :
  forall (raw : str) (e : OpenAIError),
    Status e = 429%Z ->
    Contains (ToLower unicodeLower (Message e)) (lit "rate limit") = true ->
    (ParseOpenAIJsonError unicodeLower json_Unmarshal convOverflow raw = Ok e ->
     exists body,
       jsonBody raw = Some body /\
       forall sh,
         decodeBody json_Unmarshal body = Some sh ->
         Code e = if str_eqb (shellCode sh) [] then lit "rate_limit_exceeded"
                  else shellCode sh) /\
    (ParseOpenAIPlainError unicodeLower convOverflow raw = Ok e ->
     RateInfo e <> None ->
     Code e = lit "rate_limit_exceeded").
Proof.
  intros raw e Hs Hc. split.
  - rewrite ParseOpenAIJsonError_stages.
    destruct (jsonHeader raw) as [e0|] eqn:Hh; [|discriminate].
    destruct (@jsonHeader_body_empty raw e0 Hh) as (Hm0 & _ & _ & _ & HR).
    destruct (jsonBody raw) as [body|] eqn:Hb.
    + intros H. exists body. split; [reflexivity|]. intros sh Hd.
      rewrite Hd in H.
      destruct (jsonFinish_fields e0 sh HR)
        as (e' & E & _ & _ & Hst & _ & Hm & _ & _ & Hco & _).
      rewrite E in H. inversion H; subst e'; clear H.
      rewrite Hco, <- Hst, Hs, <- Hm, Hc.
      destruct (str_eqb (shellCode sh) []); reflexivity.
    + intros H. inversion H; subst e0; clear H.
      rewrite Hm0 in Hc. cbn in Hc. discriminate Hc.
  - intros H HR. exact (proj2 (@plain_rate_info raw e H HR) Hs).
Qed.

(** ** The retry loop *)

Variable Completion : Type.
Variable api : nat -> response Completion.

Local Abbreviation parseRaw :=
  (parseRawError unicodeLower json_Unmarshal convOverflow).
Local Abbreviation retryable :=
  (Retryable unicodeLower json_Unmarshal convOverflow).
Local Abbreviation loop :=
  (retryLoop unicodeLower json_Unmarshal convOverflow api).

(** The sleep that follows the error text, computed as the loop does. *)
Definition retryDelay (rawError : str) : option Z :=
  match parseRaw rawError with
  | Ok e =>
      match RateInfo e with
      | Some ri =>
          if (Status e =? 429)%Z && str_eqb (Code e) (lit "rate_limit_exceeded")
          then Some (wrap64 (RetryAfter ri + 100 * Millisecond))
          else None
      | None => None
      end
  | Fail _ => None
  end.

Lemma retryDelay_Some (raw : str) (d : Z) :
  retryDelay raw = Some d <-> retryable raw d.
Proof.
  unfold retryDelay, Retryable. split.
  - destruct (parseRaw raw) as [e|]; [|discriminate].
    destruct (RateInfo e) as [ri|] eqn:Hr; [|discriminate].
    destruct (Z.eqb_spec (Status e) 429) as [Hs|]; [|discriminate].
    destruct (str_eqb (Code e) (lit "rate_limit_exceeded")) eqn:Hc;
      [|discriminate].
    apply str_eqb_eq in Hc. intros H. inversion H; subst.
    exists e, ri. auto.
  - intros (e & ri & -> & Hs & Hc & -> & ->).
    rewrite Hs, Hc, str_eqb_refl. reflexivity.
Qed.

Lemma retryDelay_None (raw : str) :
  retryDelay raw = None -> forall d, ~ retryable raw d.
Proof.
  intros H d F. apply retryDelay_Some in F. congruence.
Qed.

Lemma retryLoop_step (n : nat) (c : option Completion) (err : option str)
      (w : world) :
  loop (S n) c err w =
  let w1 := mkWorld (S (calls w)) (trace w ++ [EvCall]) in
  match api (calls w) with
  | Answer a => (Proceeds (Some a), w1)
  | Failure raw =>
      match retryDelay raw with
      | Some d => loop n None (Some raw) (sleep d w1)
      | None => (Returned raw, w1)
      end
  end.
Proof.
  cbn [retryLoop]. unfold callApi, retryDelay, parseRawError. cbv zeta.
  destruct (api (calls w)) as [a|raw]; [reflexivity|].
  destruct (ParseOpenAIJsonError _ _ _ raw) as [e|];
    [|destruct (ParseOpenAIPlainError _ _ raw) as [e|]];
    try reflexivity;
    destruct (RateInfo e); try reflexivity;
    destruct (_ && _); reflexivity.
Qed.

Lemma retryable_unique (raw : str) (d d' : Z) :
  retryable raw d -> retryable raw d' -> d = d'.
Proof.
  intros H H'. apply retryDelay_Some in H, H'. congruence.
Qed.

(** The failures the loop does not retry: both parsers reject the header,
    an authentication error, a server error, no rate-limit details. *)
Lemma not_retryable_kinds (raw : str) :
  (exists err, parseRaw raw = Fail err) \/
  (exists e, parseRaw raw = Ok e /\
             (IsAuth (Some e) = true \/ IsServerError (Some e) = true \/
              RateInfo e = None)) ->
  forall d, ~ retryable raw d.
Proof.
  intros H d (e & ri & He & Hs & Hc & Hr & _).
  destruct H as [(err & H)|(e' & H & K)]; [congruence|].
  rewrite He in H. inversion H; subst e'; clear H.
  destruct K as [K|[K|K]].
  - unfold IsAuth in K. rewrite Hs, Hc in K. discriminate K.
  - unfold IsServerError in K. rewrite Hs in K. discriminate K.
  - congruence.
Qed.

Ltac c4_leaf :=
  cbn [fst snd calls trace sleep app length];
  repeat split; try lia;
  intros;
  repeat match goal with
  | k : nat |- _ =>
      destruct k as [|[|[|k]]];
      cbn [Nat.mul Nat.add nth_error length] in *; try lia
  end;
  repeat match goal with
  | H : api ?k = _, H' : api ?k = _ |- _ =>
      rewrite H in H'; inversion H'; subst; clear H'
  | H : Failure _ = Failure _ |- _ => inversion H; subst; clear H
  | H : Answer _ = Answer _ |- _ => inversion H; subst; clear H
  end;
  try discriminate;
  try match goal with
  | H : retryDelay ?r = Some ?d, F : forall d, ~ retryable ?r d |- _ =>
      exfalso; apply (F d); now apply retryDelay_Some
  end;
  try match goal with
  | H : retryDelay ?r = None, F : retryable ?r ?d |- _ =>
      exfalso; apply retryDelay_Some in F; congruence
  end;
  try (do 2 eexists; split; [first [eassumption | reflexivity]|];
       split; [apply retryDelay_Some; eassumption|];
       repeat split; reflexivity);
  auto.

(** The clauses that say the loop retries: in each case of the run, the
    failures named by the clause are those of the case. *)
Ltac c4_retry :=
  cbn [fst snd calls trace sleep app length];
  intros;
  repeat match goal with
  | k : nat |- _ =>
      destruct k as [|[|k]];
      cbn [Nat.mul Nat.add nth_error length] in *; try lia
  end;
  repeat match goal with
  | H : api ?k = _, H' : api ?k = _ |- _ => rewrite H in H'
  | H : Failure _ = Failure _ |- _ => inversion H; subst; clear H
  | H : Answer _ = Answer _ |- _ => inversion H; subst; clear H
  end;
  try discriminate;
  repeat match goal with
  | F : Retryable _ _ _ ?r ?d |- _ => apply retryDelay_Some in F
  end;
  repeat match goal with
  | H : retryDelay ?r = _, H' : retryDelay ?r = _ |- _ =>
      rewrite H in H'; inversion H'; subst; clear H'
  end;
  try discriminate;
  cbn [Nat.mul Nat.add nth_error length];
  repeat split; try lia; try reflexivity.

(** C4: the loop makes at most three calls.  A call is followed by another
    one only after a failure whose parsed error has status 429, code
    rate_limit_exceeded and rate-limit details, and after a sleep of
    RetryAfter plus 100 ms.  A failure of any other kind, or an answer, ends
    the loop at once: the failure is returned without a sleep.  After a third
    failure the error is returned.  And the loop does retry: a failure of the
    first or the second call that is of the retried kind is followed by the
    sleep of RetryAfter plus 100 ms and by another call; of the third call,
    by the sleep and the return of the error.  A first call that fails in
    this way and a second that answers give two calls, one sleep between
    them, and the answer. *)
Theorem C4_retry_driver :
  let r := generateJsonContent_retry unicodeLower json_Unmarshal convOverflow
             api in
  let out := fst r in
  let w := snd r in
  1 <= calls w <= 3 /\
  (forall k, S k < calls w ->
     exists raw d,
       api k = Failure raw /\
       Retryable unicodeLower json_Unmarshal convOverflow raw d /\
       nth_error (trace w) (2 * k) = Some EvCall /\
       nth_error (trace w) (2 * k + 1) = Some (EvSleep d) /\
       nth_error (trace w) (2 * k + 2) = Some EvCall) /\
  (forall k raw, k < calls w -> api k = Failure raw ->
     (forall d, ~ Retryable unicodeLower json_Unmarshal convOverflow raw d) ->
     out = Returned raw /\ calls w = S k /\ length (trace w) = 2 * k + 1) /\
  (forall k c, k < calls w -> api k = Answer c ->
     out = Proceeds (Some c) /\ calls w = S k /\
     length (trace w) = 2 * k + 1) /\
  (forall raw, calls w = 3 -> api 2 = Failure raw -> out = Returned raw) /\
  (forall k raw d, k < 2 -> k < calls w -> api k = Failure raw ->
     Retryable unicodeLower json_Unmarshal convOverflow raw d ->
     S k < calls w /\
     nth_error (trace w) (2 * k + 1) = Some (EvSleep d) /\
     nth_error (trace w) (2 * k + 2) = Some EvCall) /\
  (forall raw d, calls w = 3 -> api 2 = Failure raw ->
     Retryable unicodeLower json_Unmarshal convOverflow raw d ->
     out = Returned raw /\
     nth_error (trace w) 5 = Some (EvSleep d) /\ length (trace w) = 6) /\
  (forall raw d c, api 0 = Failure raw ->
     Retryable unicodeLower json_Unmarshal convOverflow raw d ->
     api 1 = Answer c ->
     out = Proceeds (Some c) /\ calls w = 2 /\
     trace w = [EvCall; EvSleep d; EvCall]) /\
  (forall raw,
     (exists err,
        parseRawError unicodeLower json_Unmarshal convOverflow raw = Fail err) \/
     (exists e,
        parseRawError unicodeLower json_Unmarshal convOverflow raw = Ok e /\
        (IsAuth (Some e) = true \/ IsServerError (Some e) = true \/
         RateInfo e = None)) ->
     forall d, ~ Retryable unicodeLower json_Unmarshal convOverflow raw d).
Proof.
  cbv zeta. unfold generateJsonContent_retry.
  rewrite retryLoop_step; cbv zeta; cbn [calls trace sleep app].
  destruct (api 0) as [a0|r0] eqn:A0;
    [|destruct (retryDelay r0) as [d0|] eqn:D0;
      [rewrite retryLoop_step; cbv zeta; cbn [calls trace sleep app];
       destruct (api 1) as [a1|r1] eqn:A1;
       [|destruct (retryDelay r1) as [d1|] eqn:D1;
         [rewrite retryLoop_step; cbv zeta; cbn [calls trace sleep app];
          destruct (api 2) as [a2|r2] eqn:A2;
          [|destruct (retryDelay r2) as [d2|] eqn:D2]|]]|]].
  all: cbn [retryLoop].
  all: split; [cbn; lia|].
  all: split; [c4_leaf|].
  all: split; [c4_leaf|].
  all: split; [c4_leaf|].
  all: split; [c4_leaf|].
  all: split; [c4_retry|].
  all: split; [c4_retry|].
  all: split; [c4_retry|].
  all: exact not_retryable_kinds.
Qed.

(** X12: how the loop ends.  It returns the error text of its last call, or
    goes on with the completion of its last call, never with a nil
    completion.  After three failures that are all retried, the error of the
    third is returned only after a third sleep: the trace is call, sleep,
    call, sleep, call, sleep. *)
Theorem X12_loop_end :
  let r := generateJsonContent_retry unicodeLower json_Unmarshal convOverflow
             api in
  let out := fst r in
  let w := snd r in
  ((exists raw, out = Returned raw /\ api (calls w - 1) = Failure raw) \/
   (exists c, out = Proceeds (Some c) /\ api (calls w - 1) = Answer c)) /\
  (forall raw0 raw1 raw2 d0 d1 d2,
     api 0 = Failure raw0 -> api 1 = Failure raw1 -> api 2 = Failure raw2 ->
     Retryable unicodeLower json_Unmarshal convOverflow raw0 d0 ->
     Retryable unicodeLower json_Unmarshal convOverflow raw1 d1 ->
     Retryable unicodeLower json_Unmarshal convOverflow raw2 d2 ->
     out = Returned raw2 /\
     trace w = [EvCall; EvSleep d0; EvCall; EvSleep d1; EvCall; EvSleep d2]).
Proof.
  cbv zeta. unfold generateJsonContent_retry.
  rewrite retryLoop_step; cbv zeta; cbn [calls trace sleep app].
  destruct (api 0) as [a0|r0] eqn:A0;
    [|destruct (retryDelay r0) as [d0|] eqn:D0;
      [rewrite retryLoop_step; cbv zeta; cbn [calls trace sleep app];
       destruct (api 1) as [a1|r1] eqn:A1;
       [|destruct (retryDelay r1) as [d1|] eqn:D1;
         [rewrite retryLoop_step; cbv zeta; cbn [calls trace sleep app];
          destruct (api 2) as [a2|r2] eqn:A2;
          [|destruct (retryDelay r2) as [d2|] eqn:D2]|]]|]].
  all: cbn [retryLoop fst snd calls trace sleep app Nat.sub].
  all: split;
    [ first [ left; eexists; split; [reflexivity|eassumption]
            | right; eexists; split; [reflexivity|eassumption] ] | ].
  all: intros raw0 raw1 raw2 e0 e1 e2 B0 B1 B2 R0 R1 R2.
  all: try discriminate.
  all: inversion B0; subst; clear B0;
       try discriminate; try (inversion B1; subst; clear B1);
       try discriminate; try (inversion B2; subst; clear B2).
  all: apply retryDelay_Some in R0, R1, R2; try congruence.
  split; [reflexivity|]. congruence.
Qed.

(** ** Rendering an error and parsing it again *)

Lemma json_header_fields (raw : str) (t : OpenAIError) :
  ParseOpenAIJsonError unicodeLower json_Unmarshal convOverflow raw = Ok t ->
  exists e0,
    jsonHeader raw = Some e0 /\
    Method t = Method e0 /\ URL t = URL e0 /\ Status t = Status e0 /\
    Reason t = Reason e0.
Proof.
  rewrite ParseOpenAIJsonError_stages.
  destruct (jsonHeader raw) as [e0|] eqn:Hh; [|discriminate].
  destruct (@jsonHeader_body_empty raw e0 Hh) as (_ & _ & _ & _ & HR).
  intros H. exists e0. split; [reflexivity|].
  destruct (jsonBody raw) as [body|].
  - destruct (decode body) as [sh|].
    + destruct (jsonFinish_fields e0 sh HR)
        as (e' & E & Hm & Hu & Hs & Hr & _).
      rewrite E in H. inversion H; subst. auto.
    + inversion H; subst. simpl. auto.
  - inversion H; subst. auto.
Qed.

Lemma plain_header_fields (raw : str) :
  let m := FindStringSubmatch plainHeadRe 5 (TrimSpace raw) in
  length m = 6 ->
  exists e,
    ParseOpenAIPlainError unicodeLower convOverflow raw = Ok e /\
    Method e = at_ m 1 /\ URL e = at_ m 2 /\
    Status e = atoiValue (at_ m 3) /\
    Reason e = TrimSpace (at_ m 4) /\ Message e = TrimSpace (at_ m 5).
Proof.
  intros m Hm. unfold ParseOpenAIPlainError. fold m. rewrite Hm.
  cbn [Nat.eqb negb]. cbv zeta.
  repeat match goal with
  | |- context [if ?c then _ else _] => destruct c
  end; eexists; (split; [reflexivity|]); cbn; auto.
Qed.

(** The trimmed reason phrase of a matching header. *)
Lemma trimmed_reason (reason : str) :
  forallb letterOrSpace reason = true ->
  forallb letterOrSpace (TrimSpace reason) = true /\
  TrimSpace (TrimSpace reason) = TrimSpace reason /\
  (TrimSpace reason <> [] -> stops re_space (TrimSpace reason) = true).
Proof.
  intros H. destruct (TrimSpace_split reason) as (a & b & E).
  split; [|split].
  - rewrite E in H. rewrite !forallb_app in H.
    apply andb_true_iff in H. destruct H as [_ H].
    apply andb_true_iff in H. exact (proj1 H).
  - apply TrimSpace_idempotent.
  - pose proof (TrimSpace_leading reason) as L.
    destruct (TrimSpace reason) as [|x r]; [congruence|]. intros _.
    cbn [stops]. now rewrite (leadingSpace_head _ _ L).
Qed.

Lemma isVerb_leading (v rest : str) :
  isVerb v -> leadingSpace (v ++ rest) = 0.
Proof.
  intros [ -> | [ -> | [ -> | [ -> | -> ] ] ] ]; reflexivity.
Qed.

(** The rendering of an error with a non-empty trimmed message is a trimmed
    text. *)
Lemma render_trimmed (e : OpenAIError) :
  isVerb (Method e) -> Message e <> [] -> TrimSpace (Message e) = Message e ->
  TrimSpace (Error (Some e)) = Error (Some e).
Proof.
  intros HV HM HT. apply TrimSpace_fixed.
  - unfold Error. now apply isVerb_leading.
  - unfold Error. rewrite !app_assoc. rewrite rev_app_distr.
    rewrite <- !app_assoc.
    match goal with
    | |- trailingSpaceRev (rev (Message e) ++ rev ?x) = 0 =>
        assert (K : exists y, rev x = x20 :: y)
    end.
    { rewrite !rev_app_distr. cbn [lit rev app]. eexists. reflexivity. }
    destruct K as (y & ->).
    apply trailingSpaceRev_context.
    + intros F. apply HM. apply (f_equal (@rev byte)) in F.
      now rewrite rev_involutive in F.
    + rewrite <- HT. apply TrimSpace_trailing.
Qed.

Lemma render_parse_plain :
  forall e : OpenAIError,
    isVerb (Method e) ->
    URL e <> [] -> forallb notSpace (URL e) = true ->
    (100 <= Status e <= 999)%Z ->
    Reason e <> [] -> forallb letterOrSpace (Reason e) = true ->
    TrimSpace (Reason e) = Reason e ->
    Message e <> [] -> forallb anyButNewline (Message e) = true ->
    TrimSpace (Message e) = Message e ->
    exists e',
      ParseOpenAIPlainError unicodeLower convOverflow (Error (Some e)) = Ok e' /\
      Method e' = Method e /\ URL e' = URL e /\ Status e' = Status e /\
      Reason e' = Reason e /\ Message e' = Message e.
Proof.
  intros e HV HU0 HU HS HR0 HR HRt HM0 HM HMt.
  destruct (@Itoa_Atoi_three (Status e) HS) as (d1 & d2 & d3 & Ei & D1 & D2 & D3 & Ea).
  assert (HRs : stops re_space (Reason e) = true).
  { pose proof (TrimSpace_leading (Reason e)) as L. rewrite HRt in L.
    destruct (Reason e) as [|x r]; [congruence|].
    cbn [stops]. now rewrite (leadingSpace_head _ _ L). }
  assert (HMs : stops re_space (Message e) = true).
  { pose proof (TrimSpace_leading (Message e)) as L. rewrite HMt in L.
    destruct (Message e) as [|x r]; [congruence|].
    cbn [stops]. now rewrite (leadingSpace_head _ _ L). }
  pose proof (@plainHeadRe_render (Method e) (URL e) (Reason e) (Message e)
                d1 d2 d3 HV HU0 HU D1 D2 D3 HR0 HR HRs HMs HM) as Hm.
  cbv zeta in Hm.
  assert (Er : Error (Some e) =
               Method e ++ lit " " ++ URL e ++ lit ": " ++ [d1; d2; d3]
                 ++ lit " " ++ Reason e ++ lit " - " ++ Message e).
  { unfold Error. now rewrite Ei. }
  destruct (plain_header_fields (Error (Some e))) as (e' & Hp & F1 & F2 & F3 & F4 & F5).
  { rewrite (@render_trimmed e HV HM0 HMt), Er, Hm. reflexivity. }
  rewrite (@render_trimmed e HV HM0 HMt), Er, Hm in F1, F2, F3, F4, F5.
  cbn [at_ nth] in F1, F2, F3, F4, F5.
  exists e'. split; [exact Hp|].
  repeat split; try congruence.
  rewrite F3. unfold atoiValue. now rewrite Ea.
Qed.

Lemma json_header_shape :
  forall (raw : str) (t : OpenAIError),
    ParseOpenAIJsonError unicodeLower json_Unmarshal convOverflow raw = Ok t ->
    isVerb (Method t) /\ (0 <= Status t <= 999)%Z /\
    URL t <> [] /\ forallb notQuote (URL t) = true /\
    forallb letterOrSpace (Reason t) = true /\
    TrimSpace (Reason t) = Reason t.
Proof.
  intros raw t H.
  destruct (@json_header_fields raw t H) as (e0 & Hh & -> & -> & -> & ->).
  destruct (@jsonHeader_match raw e0 Hh) as
      (verb & ws1 & url & ws2 & ws3 & digits & ws4 & reason & ws5 & rest & Es
       & H1 & H2 & H3 & H4 & H5 & H6 & H7 & (d1 & d2 & d3 & -> & D1 & D2 & D3)
       & H9 & H10 & H11 & H12 & H13 & H14 & ->).
  cbn [Method URL Status Reason].
  destruct (trimmed_reason _ H12) as (R1 & R2 & _).
  rewrite (Atoi_three _ _ _ D1 D2 D3).
  pose proof (isDigit_code _ D1). pose proof (isDigit_code _ D2).
  pose proof (isDigit_code _ D3).
  repeat split; auto; lia.
Qed.

(** X1: an error whose fields have the shape the parsers produce is read
    back from its rendering.  If the method is one of the five verbs, the URL
    is not empty and free of white space, the status has three digits, the
    reason is a non-empty trimmed run of letters and spaces, and the message
    is non-empty, trimmed and without newline, then [ParseOpenAIPlainError]
    accepts [Error] of it and returns the same method, URL, status, reason
    and message. *)
Theorem X1_render_then_parse_plain :
  forall e : OpenAIError,
    isVerb (Method e) ->
    URL e <> [] -> forallb notSpace (URL e) = true ->
    (100 <= Status e <= 999)%Z ->
    Reason e <> [] -> forallb letterOrSpace (Reason e) = true ->
    TrimSpace (Reason e) = Reason e ->
    Message e <> [] -> forallb anyButNewline (Message e) = true ->
    TrimSpace (Message e) = Message e ->
    exists e',
      ParseOpenAIPlainError unicodeLower convOverflow (Error (Some e)) = Ok e' /\
      Method e' = Method e /\ URL e' = URL e /\ Status e' = Status e /\
      Reason e' = Reason e /\ Message e' = Message e.
Proof. exact render_parse_plain. Qed.

(** X2: what [ParseOpenAIJsonError] returns after a matching header: the
    method is one of the five verbs, the status lies between 0 and 999, the
    URL is not empty and holds no double quote, the reason is a trimmed run
    of letters and spaces. *)
Theorem X2_json_header_invariants :
  forall (raw : str) (t : OpenAIError),
    ParseOpenAIJsonError unicodeLower json_Unmarshal convOverflow raw = Ok t ->
    isVerb (Method t) /\ (0 <= Status t <= 999)%Z /\
    URL t <> [] /\ forallb notQuote (URL t) = true /\
    forallb letterOrSpace (Reason t) = true /\
    TrimSpace (Reason t) = Reason t.
Proof. exact json_header_shape. Qed.

(** X3: the two together.  An error that [ParseOpenAIJsonError] returned is
    read back by [ParseOpenAIPlainError] from its rendering, with the same
    method, URL, status, reason and message, when its status is at least 100,
    its URL is free of white space, its reason is not empty and its message
    is non-empty, trimmed and without newline. *)
Theorem X3_json_render_plain :
  forall (raw : str) (t : OpenAIError),
    ParseOpenAIJsonError unicodeLower json_Unmarshal convOverflow raw = Ok t ->
    (100 <= Status t)%Z ->
    forallb notSpace (URL t) = true ->
    Reason t <> [] ->
    Message t <> [] -> forallb anyButNewline (Message t) = true ->
    TrimSpace (Message t) = Message t ->
    exists t',
      ParseOpenAIPlainError unicodeLower convOverflow (Error (Some t)) = Ok t' /\
      Method t' = Method t /\ URL t' = URL t /\ Status t' = Status t /\
      Reason t' = Reason t /\ Message t' = Message t.
Proof.
  intros raw t H HS HU HR HM0 HM HMt.
  destruct (@json_header_shape raw t H) as (I1 & I2 & I3 & _ & I5 & I6).
  apply render_parse_plain; auto. lia.
Qed.

(** C5, as the code has it: every error that [ParseOpenAIJsonError] returns
    has one of the five verbs as method and a status between 0 and 999, the
    value of the three digits of the header.  And when the status is at
    least 100, the URL holds no white space, the reason is not empty and the
    message is not empty, holds no newline and neither starts nor ends with
    white space, [ParseOpenAIPlainError] accepts the rendering [Error] of it
    and returns the same method, URL, status, reason and message. *)
Theorem C5_json_round_trip :
  forall (raw : str) (t : OpenAIError),
    ParseOpenAIJsonError unicodeLower json_Unmarshal convOverflow raw = Ok t ->
    isVerb (Method t) /\ (0 <= Status t <= 999)%Z /\
    ((100 <= Status t)%Z ->
     forallb notSpace (URL t) = true ->
     Reason t <> [] ->
     Message t <> [] -> forallb anyButNewline (Message t) = true ->
     TrimSpace (Message t) = Message t ->
     exists t',
       ParseOpenAIPlainError unicodeLower convOverflow (Error (Some t))
         = Ok t' /\
       Method t' = Method t /\ URL t' = URL t /\ Status t' = Status t /\
       Reason t' = Reason t /\ Message t' = Message t).
Proof.
  intros raw t H.
  destruct (@json_header_shape raw t H) as (I1 & I2 & I3 & _ & I5 & I6).
  split; [exact I1|]. split; [exact I2|].
  intros HS HU HR HM0 HM HMt.
  apply render_parse_plain; auto. lia.
Qed.

(** ** The rate-limit details *)

(** The fields of the details in terms of the groups of the pattern, for
    both parsers; [rounded] tells whether the seconds went through
    [math.Round]. *)
Definition detailsFrom (rm : list str) (ri : OpenAIRateInfo) (rounded : bool)
  : Prop :=
  Model ri = at_ rm 1 /\ ScopeType ri = at_ rm 2 /\ ScopeID ri = at_ rm 3 /\
  Metric ri = TrimSpace (at_ rm 4) /\
  Limit ri = atoiValue (at_ rm 5) /\ Used ri = atoiValue (at_ rm 6) /\
  Requested ri = atoiValue (at_ rm 7) /\
  DocsURL ri = at_ rm 9 /\
  RetryAfter ri =
    secondsToDuration convOverflow
      (let sec := fst (ParseFloat (at_ rm 8)) in
       if rounded && fpositive sec then math_Round sec else sec).

Lemma json_details (raw : str) (e : OpenAIError) (ri : OpenAIRateInfo) :
  ParseOpenAIJsonError unicodeLower json_Unmarshal convOverflow raw = Ok e ->
  RateInfo e = Some ri ->
  detailsFrom (FindStringSubmatch rateRe 9 (Message e)) ri false.
Proof.
  rewrite ParseOpenAIJsonError_stages.
  destruct (jsonHeader raw) as [e0|] eqn:Hh; [|discriminate].
  destruct (@jsonHeader_body_empty raw e0 Hh) as (_ & _ & _ & _ & HR).
  assert (K : forall sh, finish e0 sh = Ok e -> RateInfo e = Some ri ->
              detailsFrom (FindStringSubmatch rateRe 9 (Message e)) ri false).
  { intros sh. unfold jsonFinish.
    set (e1 := match sh_Error sh with
               | Some inner => _ | None => _ end).
    assert (R1 : RateInfo e1 = None).
    { subst e1. destruct (sh_Error sh); cbn; exact HR. }
    cbv zeta.
    destruct (Nat.eqb (length (FindStringSubmatch rateRe 9 (Message e1))) 10).
    - match goal with
      | |- Ok (if ?c then _ else _) = _ -> _ => destruct c
      end; intros H; inversion H; subst e; clear H; cbn;
        intros H; inversion H; subst ri; clear H;
        unfold detailsFrom; cbn; repeat split; reflexivity.
    - match goal with
      | |- Ok (if ?c then _ else _) = _ -> _ => destruct c
      end; intros H; inversion H; subst e; clear H; cbn;
        rewrite R1; discriminate. }
  destruct (jsonBody raw) as [body|].
  - destruct (decode body) as [sh|]; [apply K|].
    intros H. inversion H; subst. cbn. rewrite HR. discriminate.
  - intros H. inversion H; subst. rewrite HR. discriminate.
Qed.

Lemma plain_details (raw : str) (e : OpenAIError) (ri : OpenAIRateInfo) :
  ParseOpenAIPlainError unicodeLower convOverflow raw = Ok e ->
  RateInfo e = Some ri ->
  detailsFrom (FindStringSubmatch rateRe 9 (Message e)) ri true.
Proof.
  unfold ParseOpenAIPlainError. destruct (negb _); [discriminate|].
  cbv zeta. cbn [Message].
  set (m := FindStringSubmatch plainHeadRe 5 (TrimSpace raw)).
  set (msg := TrimSpace (at_ m 5)).
  destruct (Nat.eqb (length (FindStringSubmatch rateRe 9 msg)) 10).
  - repeat match goal with
    | |- context [if ?c then _ else _] =>
        lazymatch c with
        | fpositive _ => fail
        | _ => destruct c
        end
    end; intros H; inversion H; subst e; clear H; cbn [RateInfo Message
      withCode withType withRateInfo];
      intros H; inversion H; subst ri; clear H;
      unfold detailsFrom;
      cbn [Model ScopeType ScopeID Metric Limit Used Requested RetryAfter
           DocsURL andb];
      repeat split; reflexivity.
  - intros H. inversion H; subst. cbn. discriminate.
Qed.

Lemma trimmed_sub (p : byte -> bool) (s : str) :
  forallb p s = true -> forallb p (TrimSpace s) = true.
Proof.
  intros H. destruct (TrimSpace_split s) as (a & b & E).
  rewrite E in H. rewrite !forallb_app in H.
  apply andb_true_iff in H. destruct H as [_ H].
  apply andb_true_iff in H. exact (proj1 H).
Qed.

Lemma atoi_bounds (s : str) :
  s <> [] -> forallb isDigit s = true ->
  (0 <= atoiValue s <= maxInt64)%Z.
Proof.
  intros H0 H. destruct (@Atoi_digits s H0 H) as (v & _ & Hv & ->).
  destruct (Z.ltb_spec maxInt64 v); unfold maxInt64 in *; lia.
Qed.

(** X4: the rate-limit details either parser returns.  The scope type is
    [organization] or [project]; model and scope id are non-empty runs of
    word characters, dashes (and dots for the model); the metric is trimmed
    and holds no colon; limit, used and requested are never negative and at
    most the largest 64-bit integer; the docs URL is not empty and free of
    white space; and the message holds these pieces in the order of the
    rate-limit sentence. *)
Theorem X4_rate_info_fields :
  forall (raw : str) (e : OpenAIError) (ri : OpenAIRateInfo),
    ParseOpenAIJsonError unicodeLower json_Unmarshal convOverflow raw = Ok e \/
    ParseOpenAIPlainError unicodeLower convOverflow raw = Ok e ->
    RateInfo e = Some ri ->
    (ScopeType ri = lit "organization" \/ ScopeType ri = lit "project") /\
    Model ri <> [] /\ forallb wordDashDot (Model ri) = true /\
    ScopeID ri <> [] /\ forallb wordDash (ScopeID ri) = true /\
    forallb notColon (Metric ri) = true /\
    TrimSpace (Metric ri) = Metric ri /\
    (0 <= Limit ri <= maxInt64)%Z /\ (0 <= Used ri <= maxInt64)%Z /\
    (0 <= Requested ri <= maxInt64)%Z /\
    DocsURL ri <> [] /\ forallb notSpace (DocsURL ri) = true /\
    exists a metric lim used req sec b,
      Message e =
        a ++ lit "Rate limit reached for " ++ Model ri ++ lit " in "
          ++ ScopeType ri ++ lit " " ++ ScopeID ri ++ lit " on " ++ metric
          ++ lit ": Limit " ++ lim ++ lit ", Used " ++ used
          ++ lit ", Requested " ++ req ++ lit ". Please try again in " ++ sec
          ++ lit "s. Visit " ++ DocsURL ri ++ b /\
      Metric ri = TrimSpace metric /\
      Limit ri = atoiValue lim /\ Used ri = atoiValue used /\
      Requested ri = atoiValue req.
Proof.
  intros raw e ri H HR.
  assert (Hd : exists r,
             detailsFrom (FindStringSubmatch rateRe 9 (Message e)) ri r).
  { destruct H as [H|H];
      [exists false; exact (@json_details raw e ri H HR)
      |exists true; exact (@plain_details raw e ri H HR)]. }
  assert (Hm : FindStringSubmatch rateRe 9 (Message e) <> []).
  { assert (L : length (FindStringSubmatch rateRe 9 (Message e)) = 10).
    { destruct H as [H|H];
        [apply (@json_rate_info raw e H)
        |apply (proj1 (@plain_rate_info raw e H
                         ltac:(rewrite HR; discriminate)))];
        rewrite HR; discriminate. }
    intros F. rewrite F in L. discriminate. }
  destruct Hd as (r & D).
  destruct (@rateRe_captures (Message e) Hm) as
      (a & model & scope & sid & metric & lim & used & req & sec & url & b
       & Es & M0 & M1 & Sc & S0 & S1 & Me0 & Me1 & L0 & L1 & U0 & U1 & R0 & R1
       & Se0 & Se1 & Ur0 & Ur1 & whole & Erm).
  unfold detailsFrom in D. rewrite Erm in D. cbn [at_ nth] in D.
  destruct D as (-> & -> & -> & DM & DL & DU & DR & -> & _).
  rewrite DM, DL, DU, DR.
  repeat split; auto using trimmed_sub, TrimSpace_idempotent, atoi_bounds;
    try (apply atoi_bounds; assumption).
  exists a, metric, lim, used, req, sec, b. auto.
Qed.

(** ** The range of RetryAfter *)

Lemma wrap64_small (z : Z) :
  (0 <= z <= maxInt64)%Z -> wrap64 z = z.
Proof.
  unfold wrap64, maxInt64. intros H. rewrite Z.mod_small; lia.
Qed.

(** X13: the wait of the rate-limit details.  RetryAfter is never negative,
    unless the conversion of the float to int64 overflowed and gave the
    implementation-dependent value.  When the seconds of the message have at
    most nine digits before the dot, there is no overflow: RetryAfter lies
    between 0 and 2^60 ns, and the RetryAfter + 100 ms that the retry loop
    sleeps does not wrap around. *)
Theorem X13_retry_after_range :
  forall (raw : str) (e : OpenAIError) (ri : OpenAIRateInfo),
    ParseOpenAIJsonError unicodeLower json_Unmarshal convOverflow raw = Ok e \/
    ParseOpenAIPlainError unicodeLower convOverflow raw = Ok e ->
    RateInfo e = Some ri ->
    (RetryAfter ri = convOverflow \/ (0 <= RetryAfter ri <= maxInt64)%Z) /\
    (length (fst (splitDot (at_ (FindStringSubmatch rateRe 9 (Message e)) 8)))
       <= 9 ->
     (0 <= RetryAfter ri <= 2 ^ 60)%Z /\
     wrap64 (RetryAfter ri + 100 * Millisecond) =
       (RetryAfter ri + 100 * Millisecond)%Z).
Proof.
  intros raw e ri H HR.
  set (secs := at_ (FindStringSubmatch rateRe 9 (Message e)) 8).
  assert (D : exists x,
             RetryAfter ri = secondsToDuration convOverflow x /\
             nonneg x /\
             (length (fst (splitDot secs)) <= 9 -> atMost x 30)).
  { pose proof (ParseFloat_nonneg secs) as N.
    destruct H as [H|H].
    - destruct (@json_details raw e ri H HR)
        as (_ & _ & _ & _ & _ & _ & _ & _ & E).
      fold secs in E. cbn [andb] in E. cbv zeta in E.
      eexists. split; [exact E|]. split; [exact N|].
      apply ParseFloat_atMost.
    - destruct (@plain_details raw e ri H HR)
        as (_ & _ & _ & _ & _ & _ & _ & _ & E).
      fold secs in E. cbn [andb] in E. cbv zeta in E.
      eexists. split; [exact E|].
      destruct (fpositive (fst (ParseFloat secs))).
      + split; [now apply math_Round_nonneg|]. intros L.
        apply math_Round_atMost; [lia|]. now apply ParseFloat_atMost.
      + split; [exact N|]. apply ParseFloat_atMost. }
  destruct D as (x & -> & N & A). split.
  - now apply secondsToDuration_range.
  - intros L. specialize (A L).
    pose proof (@toInt64_atMost convOverflow _
                  (@fmulInt_Second_atMost x A)) as B.
    fold (secondsToDuration convOverflow x) in B.
    split; [exact B|]. apply wrap64_small.
    assert (2 ^ 60 = 1152921504606846976)%Z by reflexivity.
    unfold Millisecond, maxInt64. lia.
Qed.

(** ** The precision of RetryAfter *)

(** X17: the JSON parser keeps the fraction of the seconds.  When the
    seconds of the message denote the decimal mant/D with at most five
    digits before the dot, RetryAfter, in nanoseconds, is at most 33/32
    below and at most 1/32 above mant/D * 10^9: it is the decimal in
    nanoseconds up to the two float roundings and the cut of the
    conversion. *)
Theorem X17_json_retry_after_precision :
  forall (raw : str) (e : OpenAIError) (ri : OpenAIRateInfo) (mant D : Z),
    ParseOpenAIJsonError unicodeLower json_Unmarshal convOverflow raw = Ok e ->
    RateInfo e = Some ri ->
    decimalOf (at_ (FindStringSubmatch rateRe 9 (Message e)) 8)
      = Some (mant, D) ->
    integerDigits (at_ (FindStringSubmatch rateRe 9 (Message e)) 8) <= 5 ->
    (- 33 * D <= 32 * (RetryAfter ri * D - mant * 10 ^ 9) <= D)%Z.
Proof.
  intros raw e ri mant D H HR Hd Hl.
  destruct (@json_details raw e ri H HR)
    as (_ & _ & _ & _ & _ & _ & _ & _ & E).
  cbn [andb] in E. cbv zeta in E. rewrite E.
  destruct (@decimalOf_value _ mant D Hd Hl) as (-> & M0 & D0 & Mb).
  now apply json_seconds_precision.
Qed.



(** ** What the plain-text parser returns *)

Lemma plain_accepts (raw : str) (e : OpenAIError) :
  ParseOpenAIPlainError unicodeLower convOverflow raw = Ok e ->
  length (FindStringSubmatch plainHeadRe 5 (TrimSpace raw)) = 6.
Proof.
  unfold ParseOpenAIPlainError.
  destruct (Nat.eqb (length (FindStringSubmatch plainHeadRe 5 (TrimSpace raw)))
                    6) eqn:E; cbn [negb]; [|discriminate].
  intros _. now apply Nat.eqb_eq.
Qed.

(** The fields the plain-text parser only sets from the rate-limit
    sentence. *)
Lemma plain_inferred_fields (raw : str) (e : OpenAIError) :
  ParseOpenAIPlainError unicodeLower convOverflow raw = Ok e ->
  Param e = None /\
  (Type_ e = [] \/ Type_ e = lit "tokens" \/ Type_ e = lit "requests") /\
  (Code e = [] \/ Code e = lit "rate_limit_exceeded" /\ Status e = 429%Z) /\
  (RateInfo e = None -> Type_ e = [] /\ Code e = []).
Proof.
  unfold ParseOpenAIPlainError. destruct (negb _); [discriminate|].
  cbv zeta. cbn [Message].
  set (m := FindStringSubmatch plainHeadRe 5 (TrimSpace raw)).
  set (msg := TrimSpace (at_ m 5)).
  destruct (Nat.eqb (length (FindStringSubmatch rateRe 9 msg)) 10).
  - repeat match goal with
    | |- context [if Contains ?x (lit "token") then _ else _] =>
        destruct (Contains x (lit "token"))
    | |- context [if Contains ?x (lit "requests") then _ else _] =>
        destruct (Contains x (lit "requests"))
    end; cbn [Status Message withType withRateInfo withCode].
    all: destruct (Z.eqb_spec (atoiValue (at_ m 3)) 429) as [E|E];
      cbn [andb];
      try destruct (Contains (ToLower unicodeLower msg) (lit "rate limit"));
      intros H; inversion H; subst e; clear H;
      cbn [Status Message Code Type_ Param RateInfo withCode withType
           withRateInfo];
      (split; [reflexivity|]); (split; [auto|]);
      (split; [auto|]); discriminate.
  - intros H. inversion H; subst e; clear H. cbn. auto.
Qed.

Lemma plain_shape :
  forall (raw : str) (e : OpenAIError),
    ParseOpenAIPlainError unicodeLower convOverflow raw = Ok e ->
    isVerb (Method e) /\
    URL e <> [] /\ forallb notSpace (URL e) = true /\
    (0 <= Status e <= 999)%Z /\
    forallb letterOrSpace (Reason e) = true /\
    TrimSpace (Reason e) = Reason e /\
    forallb anyButNewline (Message e) = true /\
    TrimSpace (Message e) = Message e.
Proof.
  intros raw e H.
  pose proof (@plain_accepts raw e H) as L.
  destruct (@plain_header_fields raw L) as (e' & He' & F1 & F2 & F3 & F4 & F5).
  rewrite H in He'. inversion He'; subst e'; clear He'.
  destruct (@plainHeadRe_match (TrimSpace raw)) as
      (verb & ws1 & url & ws2 & digits & ws3 & reason & ws4 & ws5 & msg & Es
       & H1 & H2 & H3 & H4 & H5 & H6 & H7 & (d1 & d2 & d3 & Ed & D1 & D2 & D3)
       & H9 & H10 & H11 & H12 & H13 & H14 & H15 & H16 & H17 & Em).
  { intros F. rewrite F in L. discriminate. }
  rewrite Em in F1, F2, F3, F4, F5. cbn [at_ nth] in F1, F2, F3, F4, F5.
  rewrite F1, F2, F3, F4, F5. subst digits.
  unfold atoiValue. rewrite (Atoi_three _ _ _ D1 D2 D3). cbn [fst].
  pose proof (isDigit_code _ D1). pose proof (isDigit_code _ D2).
  pose proof (isDigit_code _ D3).
  repeat split; auto using trimmed_sub, TrimSpace_idempotent; lia.
Qed.

(** X5: the shape of every error [ParseOpenAIPlainError] returns.  The
    method is one of the five verbs; the URL is not empty and holds no white
    space; the status lies between 0 and 999; the reason is a trimmed run of
    letters and spaces; the message is trimmed and holds no newline; the
    parameter is never set; the type is empty, [tokens] or [requests]; the
    code is empty or [rate_limit_exceeded], the latter only with status 429;
    and without rate-limit details type and code are both empty. *)
Theorem X5_plain_output_shape :
  forall (raw : str) (e : OpenAIError),
    ParseOpenAIPlainError unicodeLower convOverflow raw = Ok e ->
    isVerb (Method e) /\
    URL e <> [] /\ forallb notSpace (URL e) = true /\
    (0 <= Status e <= 999)%Z /\
    forallb letterOrSpace (Reason e) = true /\
    TrimSpace (Reason e) = Reason e /\
    forallb anyButNewline (Message e) = true /\
    TrimSpace (Message e) = Message e /\
    Param e = None /\
    (Type_ e = [] \/ Type_ e = lit "tokens" \/ Type_ e = lit "requests") /\
    (Code e = [] \/ Code e = lit "rate_limit_exceeded" /\ Status e = 429%Z) /\
    (RateInfo e = None -> Type_ e = [] /\ Code e = []).
Proof.
  intros raw e H.
  destruct (@plain_shape raw e H) as (A1 & A2 & A3 & A4 & A5 & A6 & A7 & A8).
  destruct (@plain_inferred_fields raw e H) as (B1 & B2 & B3 & B4).
  repeat (split; [assumption|]). exact B4.
Qed.

(** ** The two dialects in the retry loop *)

Lemma isVerb_prefix_unique (v v' r r' : str) :
  isVerb v -> isVerb v' -> v ++ r = v' ++ r' -> v = v' /\ r = r'.
Proof.
  unfold isVerb.
  intros [ -> | [ -> | [ -> | [ -> | -> ] ] ] ]
         [ -> | [ -> | [ -> | [ -> | -> ] ] ] ] H;
    cbn in H; try discriminate H;
    (split; [reflexivity|]); congruence.
Qed.

(** A run of bytes of a class followed by a byte outside the class is cut
    in one way only. *)
Lemma run_unique (p : byte -> bool) : forall (w w' : str) (x x' : byte)
    (t t' : str),
  forallb p w = true -> forallb p w' = true -> p x = false -> p x' = false ->
  w ++ x :: t = w' ++ x' :: t' -> w = w' /\ x = x' /\ t = t'.
Proof.
  induction w as [|b w IH]; intros w' x x' t t' Hw Hw' Hx Hx' E.
  - destruct w' as [|b' w'].
    + cbn in E. inversion E. auto.
    + cbn in E. inversion E; subst. cbn in Hw'.
      apply andb_true_iff in Hw'. destruct Hw' as [F _]. congruence.
  - destruct w' as [|b' w'].
    + cbn in E. inversion E; subst. cbn in Hw.
      apply andb_true_iff in Hw. destruct Hw as [F _]. congruence.
    + cbn in E. inversion E; subst. cbn in Hw, Hw'.
      apply andb_true_iff in Hw, Hw'.
      destruct (IH w' x x' t t' (proj2 Hw) (proj2 Hw') Hx Hx' H1)
        as (-> & -> & ->).
      auto.
Qed.

(** X14: an input of the plain dialect whose URL does not start with a
    double quote is rejected by the JSON parser, so that the retry loop
    reads it with the plain parser: [parseRawError] returns the result of
    [ParseOpenAIPlainError]. *)
Theorem X14_plain_dialect_falls_back :
  forall (raw : str) (e : OpenAIError),
    ParseOpenAIPlainError unicodeLower convOverflow raw = Ok e ->
    (forall t, URL e <> dquote ++ t) ->
    ParseOpenAIJsonError unicodeLower json_Unmarshal convOverflow raw
      = Fail (lit "unrecognized header format") /\
    parseRawError unicodeLower json_Unmarshal convOverflow raw = Ok e.
Proof.
  intros raw e Hp Hq.
  assert (J : jsonHeader raw = None).
  { destruct (jsonHeader raw) as [e0|] eqn:Hh; [exfalso|reflexivity].
    destruct (@jsonHeader_match raw e0 Hh) as
        (verb' & ws1' & url' & ws2' & ws3' & digits' & ws4' & reason' & ws5'
         & rest' & Es' & V' & W0' & W1' & _).
    pose proof (@plain_accepts raw e Hp) as L.
    destruct (@plain_header_fields raw L) as (e1 & He1 & _ & F2 & _).
    rewrite Hp in He1. inversion He1; subst e1; clear He1.
    destruct (@plainHeadRe_match (TrimSpace raw)) as
        (verb & ws1 & url & ws2 & digits & ws3 & reason & ws4 & ws5 & msg
         & Es & V & W0 & W1 & U0 & U1 & _ & _ & _ & _ & _ & _ & _ & _ & _
         & _ & _ & _ & Em).
    { intros F. rewrite F in L. discriminate. }
    rewrite Em in F2. cbn [at_ nth] in F2.
    rewrite Es in Es'.
    destruct (@isVerb_prefix_unique _ _ _ _ V V' Es') as (_ & E1).
    destruct url as [|u url]; [congruence|].
    cbn [forallb] in U1. apply andb_true_iff in U1. destruct U1 as [Uh _].
    unfold notSpace in Uh. apply negb_true_iff in Uh.
    cbn [app dquote] in E1.
    destruct (@run_unique re_space ws1 ws1' u x22 _ _ W1 W1' Uh eq_refl E1)
      as (_ & -> & _).
    apply (Hq url). rewrite F2. reflexivity. }
  assert (E : ParseOpenAIJsonError unicodeLower json_Unmarshal convOverflow raw
              = Fail (lit "unrecognized header format")).
  { rewrite ParseOpenAIJsonError_stages, J. reflexivity. }
  split; [exact E|]. unfold parseRawError. rewrite E. exact Hp.
Qed.

(** ** White space around the input, and an input without a body *)

(** X6: ASCII white space before and after the raw text changes the result
    of neither parser. *)
Theorem X6_surrounding_space_ignored :
  forall (a raw b : str),
    forallb asciiSpace a = true -> forallb asciiSpace b = true ->
    ParseOpenAIJsonError unicodeLower json_Unmarshal convOverflow
      (a ++ raw ++ b) =
    ParseOpenAIJsonError unicodeLower json_Unmarshal convOverflow raw /\
    ParseOpenAIPlainError unicodeLower convOverflow (a ++ raw ++ b) =
    ParseOpenAIPlainError unicodeLower convOverflow raw.
Proof.
  intros a raw b Ha Hb.
  unfold ParseOpenAIJsonError, ParseOpenAIPlainError.
  rewrite (@TrimSpace_pad a raw b Ha Hb). split; reflexivity.
Qed.

(** X7: when the raw text holds no opening brace and the header is
    recognised, the JSON parser returns the header alone: message, type and
    code are empty, and neither a parameter nor rate-limit details are
    set. *)
Theorem X7_no_brace_header_only :
  forall (raw : str) (t : OpenAIError),
    ~ In "{"%byte raw ->
    ParseOpenAIJsonError unicodeLower json_Unmarshal convOverflow raw = Ok t ->
    jsonHeader raw = Some t /\
    Message t = [] /\ Type_ t = [] /\ Param t = None /\ Code t = [] /\
    RateInfo t = None.
Proof.
  intros raw t Hb. rewrite ParseOpenAIJsonError_stages.
  destruct (jsonHeader raw) as [e0|] eqn:Hh; [|discriminate].
  assert (E : jsonBody raw = None).
  { unfold jsonBody, Index. cbv zeta.
    destruct (TrimSpace_split raw) as (a & b & Es).
    change (lit "{") with ["{"%byte].
    rewrite (@indexFrom_absent "{"%byte (TrimSpace raw) 0%Z); [reflexivity|].
    intros F. apply Hb. rewrite Es. apply in_or_app. right.
    apply in_or_app. now left. }
  rewrite E. intros H. inversion H; subst e0; clear H.
  split; [reflexivity|]. exact (@jsonHeader_body_empty raw t Hh).
Qed.

End Properties.

(* ================================================================== *)
(** ** Lines: Split and Join at a single byte *)
(* ================================================================== *)

Lemma first_occurrence (c : byte) : forall s : str,
  In c s -> exists a t, s = a ++ c :: t /\ ~ In c a.
Proof.
  induction s as [|b s IH]; [intros []|]. intros H.
  destruct (Byte.byte_eq_dec b c) as [->|N].
  - exists [], s. split; [reflexivity|]. intros [].
  - destruct H as [H|H]; [contradiction|].
    destruct (IH H) as (a & t & -> & Ha). exists (b :: a), t.
    split; [reflexivity|]. intros [F|F]; [contradiction|auto].
Qed.

Lemma Index_byte_absent (c : byte) (s : str) :
  ~ In c s -> Index s [c] = (-1)%Z.
Proof. intros H. unfold Index. now apply indexFrom_absent. Qed.

Lemma Index_byte_first (c : byte) (a t : str) :
  ~ In c a -> Index (a ++ c :: t) [c] = Z.of_nat (length a).
Proof. intros H. unfold Index. now rewrite indexFrom_byte. Qed.

Lemma splitLoop_absent (c : byte) (f : nat) (s : str) :
  ~ In c s -> splitLoop f s [c] = [s].
Proof.
  intros H. destruct f; [reflexivity|]. cbn [splitLoop].
  now rewrite (@Index_byte_absent c s H).
Qed.

Lemma splitLoop_first (c : byte) (f : nat) (a t : str) :
  ~ In c a ->
  splitLoop (S f) (a ++ c :: t) [c] = a :: splitLoop f t [c].
Proof.
  intros H. cbn [splitLoop]. rewrite (@Index_byte_first c a t H).
  replace (Z.of_nat (length a) <? 0)%Z with false by (symmetry; apply Z.ltb_ge; lia).
  unfold sliceTo, sliceFrom. cbn [length].
  replace (Z.to_nat (Z.of_nat (length a) + Z.of_nat 1)) with (length a + 1)
    by lia.
  rewrite Nat2Z.id, firstn_app, firstn_all, Nat.sub_diag. cbn [firstn].
  rewrite app_nil_r. f_equal. f_equal.
  rewrite skipn_app, skipn_all2 by lia.
  replace (length a + 1 - length a) with 1 by lia. reflexivity.
Qed.

(** Joining the pieces of a split gives the text back; no piece holds the
    separator, and there is at least one piece. *)
Lemma splitLoop_spec (c : byte) : forall (f : nat) (s : str),
  length s <= f ->
  splitLoop f s [c] <> [] /\
  Join (splitLoop f s [c]) [c] = s /\
  Forall (fun l => ~ In c l) (splitLoop f s [c]).
Proof.
  induction f as [|f IH]; intros s Hf.
  - destruct s; [|simpl in Hf; lia]. cbn. repeat split; try discriminate.
    constructor; [intros []|constructor].
  - destruct (in_dec Byte.byte_eq_dec c s) as [Hin|Hn].
    + destruct (@first_occurrence c s Hin) as (a & t & -> & Ha).
      rewrite (@splitLoop_first c f a t Ha).
      destruct (IH t) as (H1 & H2 & H3).
      { rewrite length_app in Hf. cbn [length] in Hf. lia. }
      split; [discriminate|]. split; [|constructor; assumption].
      cbn [Join]. destruct (splitLoop f t [c]) as [|l ls]; [congruence|].
      rewrite H2. reflexivity.
    + rewrite (@splitLoop_absent c (S f) s Hn). split; [discriminate|].
      split; [reflexivity|]. constructor; [assumption|constructor].
Qed.

Lemma Split_byte_spec (c : byte) (s : str) :
  Split s [c] <> [] /\ Join (Split s [c]) [c] = s /\
  Forall (fun l => ~ In c l) (Split s [c]).
Proof. unfold Split. now apply splitLoop_spec. Qed.

Lemma splitLoop_Join (c : byte) : forall (ls : list str) (f : nat),
  ls <> [] -> Forall (fun l => ~ In c l) ls ->
  length (Join ls [c]) <= f ->
  splitLoop f (Join ls [c]) [c] = ls.
Proof.
  induction ls as [|l ls IH]; intros f H0 HF Hf; [congruence|].
  inversion HF as [|? ? Hl HF']; subst.
  destruct ls as [|l2 ls].
  - cbn [Join]. now apply splitLoop_absent.
  - change (Join (l :: l2 :: ls) [c]) with (l ++ c :: Join (l2 :: ls) [c])
      in *.
    rewrite length_app in Hf. cbn [length] in Hf.
    destruct f as [|f]; [lia|].
    rewrite (@splitLoop_first c f l _ Hl). f_equal.
    apply IH; [discriminate|assumption|lia].
Qed.

Lemma Split_Join (c : byte) (ls : list str) :
  ls <> [] -> Forall (fun l => ~ In c l) ls ->
  Split (Join ls [c]) [c] = ls.
Proof. intros H0 HF. unfold Split. now apply splitLoop_Join. Qed.

Lemma Join_element (sep : str) : forall (ls : list str) (l : str),
  In l ls -> exists a b, Join ls sep = a ++ l ++ b.
Proof.
  induction ls as [|x ls IH]; intros l H; [destruct H|].
  destruct ls as [|y ls].
  - destruct H as [->|[]]. exists [], []. cbn. now rewrite app_nil_r.
  - change (Join (x :: y :: ls) sep) with (x ++ sep ++ Join (y :: ls) sep).
    destruct H as [->|H].
    + exists [], (sep ++ Join (y :: ls) sep). reflexivity.
    + destruct (IH l H) as (a & b & E). rewrite E.
      exists (x ++ sep ++ a), b. now rewrite <- !app_assoc.
Qed.

(** The last piece of a split, and what stands before it. *)
Lemma Join_last (sep : str) : forall (ls : list str),
  ls <> [] ->
  exists dir, Join ls sep = dir ++ nth (length ls - 1) ls [] /\
              (dir = [] \/ exists d, dir = d ++ sep).
Proof.
  induction ls as [|x ls IH]; intros H; [congruence|].
  destruct ls as [|y ls].
  - exists []. cbn. auto.
  - destruct IH as (dir & E & Hd); [discriminate|].
    change (Join (x :: y :: ls) sep) with (x ++ sep ++ Join (y :: ls) sep).
    rewrite E. exists (x ++ sep ++ dir). split.
    + rewrite <- !app_assoc. f_equal. f_equal. f_equal.
      replace (length (x :: y :: ls) - 1) with (S (length (y :: ls) - 1))
        by (cbn [length]; lia).
      reflexivity.
    + right. destruct Hd as [->|(d & ->)].
      * exists x. now rewrite app_nil_r.
      * exists (x ++ sep ++ d). now rewrite <- !app_assoc.
Qed.

(* ================================================================== *)
(** ** stripJSONWrapper *)
(* ================================================================== *)

Lemma opens_not_closes (l : str) : opens l -> ~ closes l.
Proof. unfold opens, closes. intros -> F. discriminate. Qed.

Lemma skipn_next (A : Type) : forall (n : nat) (l : list A) (h : A) (t : list A),
  skipn n l = h :: t -> skipn (S n) l = t /\ n < length l.
Proof.
  induction n as [|n IH]; intros l h t H.
  - cbn in H. subst. cbn. split; [reflexivity|lia].
  - destruct l as [|x l]; [discriminate|]. cbn [skipn] in H.
    destruct (IH l h t H) as (E & L). split; [exact E|cbn [length]; lia].
Qed.

(** The inner loop over lines of which none closes. *)
Lemma closingFence_skip (msgList : list str) (x : nat) :
  forall (pre rest : list str) (y : nat),
    Forall (fun l => ~ closes l) pre ->
    closingFence msgList x y (pre ++ rest) =
    closingFence msgList x (y + length pre) rest.
Proof.
  induction pre as [|l pre IH]; intros rest y H.
  - cbn. now rewrite Nat.add_0_r.
  - inversion H as [|? ? Hl Hp]; subst. cbn [app closingFence].
    destruct (str_eqb (TrimSpace l) (lit "```")) eqn:E.
    + apply str_eqb_eq in E. contradiction.
    + rewrite (IH rest (S y) Hp). cbn [length]. f_equal. lia.
Qed.

Lemma closingFence_none (msgList : list str) (x : nat) :
  forall (rest : list str) (y : nat),
    Forall (fun l => ~ closes l) rest ->
    closingFence msgList x y rest = Goes.
Proof.
  intros rest y H. rewrite <- (app_nil_r rest).
  now rewrite closingFence_skip.
Qed.

(** The inner loop never slices out of range: it returns only at an index
    [y] of at least 1. *)
Lemma closingFence_safe (msgList : list str) (x : nat) :
  forall (rest : list str) (y : nat),
    skipn (x + y) msgList = rest -> 1 <= y ->
    closingFence msgList x y rest = Goes \/
    exists r, closingFence msgList x y rest = Return (Some r).
Proof.
  induction rest as [|l rest IH]; intros y Hs Hy; [left; reflexivity|].
  cbn [closingFence].
  destruct (@skipn_next str (x + y) msgList l rest Hs) as (Hn & Hl).
  destruct (str_eqb (TrimSpace l) (lit "```")).
  - right. unfold sliceList.
    replace (x + 1 <=? x + y) with true by (symmetry; apply Nat.leb_le; lia).
    replace (x + y <=? length msgList) with true
      by (symmetry; apply Nat.leb_le; lia).
    cbn. eauto.
  - apply IH; [|lia]. rewrite <- Hn. f_equal. lia.
Qed.

Lemma openingFence_safe (data : str) (msgList : list str) :
  forall (rest : list str) (x : nat),
    skipn x msgList = rest ->
    exists r, openingFence data msgList x rest = Some r.
Proof.
  induction rest as [|l rest IH]; intros x Hs; [exists data; reflexivity|].
  cbn [openingFence].
  destruct (@skipn_next str x msgList l rest Hs) as (Hn & Hl).
  destruct (str_eqb (TrimSpace l) (lit "```json")) eqn:E; [|now apply IH].
  apply str_eqb_eq in E. rewrite Hs. cbn [closingFence].
  destruct (str_eqb (TrimSpace l) (lit "```")) eqn:E2.
  - apply str_eqb_eq in E2. rewrite E in E2. discriminate.
  - destruct (@closingFence_safe msgList x rest 1) as [G|(r & G)];
      [rewrite <- Hn; f_equal; lia | lia | | ]; rewrite G.
    + now apply IH.
    + now exists r.
Qed.

Lemma openingFence_none (data : str) (msgList : list str) :
  forall (rest : list str) (x : nat),
    Forall (fun l => ~ opens l) rest ->
    openingFence data msgList x rest = Some data.
Proof.
  induction rest as [|l rest IH]; intros x H; [reflexivity|].
  inversion H as [|? ? Hl Hr]; subst. cbn [openingFence].
  destruct (str_eqb (TrimSpace l) (lit "```json")) eqn:E.
  - apply str_eqb_eq in E. contradiction.
  - now apply IH.
Qed.

Lemma Forall_skipn (A : Type) (P : A -> Prop) (n : nat) (l : list A) :
  Forall P l -> Forall P (skipn n l).
Proof.
  intros H. rewrite <- (firstn_skipn n l) in H.
  apply Forall_app in H. exact (proj2 H).
Qed.

Lemma openingFence_unclosed (data : str) (msgList : list str) :
  Forall (fun l => ~ closes l) msgList ->
  forall (rest : list str) (x : nat),
    openingFence data msgList x rest = Some data.
Proof.
  intros H. induction rest as [|l rest IH]; intros x; [reflexivity|].
  cbn [openingFence].
  rewrite (@closingFence_none msgList x (skipn x msgList) 0
             (@Forall_skipn _ _ x msgList H)).
  destruct (str_eqb (TrimSpace l) (lit "```json")); apply IH.
Qed.

(** The outer loop over lines of which none opens. *)
Lemma openingFence_skip (data : str) (msgList : list str) :
  forall (pre rest : list str) (x : nat),
    Forall (fun l => ~ opens l) pre ->
    openingFence data msgList x (pre ++ rest) =
    openingFence data msgList (x + length pre) rest.
Proof.
  induction pre as [|l pre IH]; intros rest x H.
  - cbn. now rewrite Nat.add_0_r.
  - inversion H as [|? ? Hl Hp]; subst. cbn [app openingFence].
    destruct (str_eqb (TrimSpace l) (lit "```json")) eqn:E.
    + apply str_eqb_eq in E. contradiction.
    + rewrite (IH rest (S x) Hp). cbn [length]. f_equal. lia.
Qed.

Lemma closes_fence (l : str) : closes l -> exists a b, l = a ++ lit "```" ++ b.
Proof.
  unfold closes. intros H. destruct (TrimSpace_split l) as (a & b & E).
  rewrite H in E. eauto.
Qed.

(** X8: [stripJSONWrapper] returns for every text: the slice it takes
    between the two fences is always within bounds. *)
Theorem X8_strip_never_panics :
  forall data : str, exists r, stripJSONWrapper data = Some r.
Proof.
  intros data. unfold stripJSONWrapper. now apply openingFence_safe.
Qed.

(** X9: a text is returned unchanged when none of its lines is the opening
    fence, or none is the closing fence (a line is compared after trimming
    its white space); in particular when the text holds no run of three
    backquotes at all. *)
Theorem X9_strip_unfenced :
  forall data : str,
    Forall (fun l => TrimSpace l <> lit "```json") (Split data newline) \/
    Forall (fun l => TrimSpace l <> lit "```") (Split data newline) \/
    (forall a b, data <> a ++ lit "```" ++ b) ->
    stripJSONWrapper data = Some data.
Proof.
  intros data H. unfold stripJSONWrapper.
  destruct H as [H|[H|H]].
  - now apply openingFence_none.
  - now apply openingFence_unclosed.
  - apply openingFence_unclosed. apply Forall_forall. intros l Hl Hc.
    destruct (closes_fence Hc) as (a & b & El).
    destruct (Split_byte_spec x0a data) as (_ & Hj & _).
    destruct (@Join_element [x0a] (Split data [x0a]) l Hl) as (u & v & E).
    rewrite Hj in E. apply (H (u ++ a) (b ++ v)).
    rewrite E, El. now rewrite <- !app_assoc.
Qed.

(** X10: from a text made of lines, the lines between the first opening
    fence and the first closing fence after it are returned, joined by
    newlines; what stands before the opening fence and after the closing
    fence is dropped. *)
Theorem X10_strip_fenced :
  forall (before body after : list str) (opening closing : str),
    Forall (fun l => ~ In x0a l)
           (before ++ opening :: body ++ closing :: after) ->
    Forall (fun l => TrimSpace l <> lit "```json") before ->
    TrimSpace opening = lit "```json" ->
    Forall (fun l => TrimSpace l <> lit "```") body ->
    TrimSpace closing = lit "```" ->
    stripJSONWrapper
      (Join (before ++ opening :: body ++ closing :: after) newline)
    = Some (Join body newline).
Proof.
  intros before body after opening closing Hn Hb Ho Hy Hc.
  unfold stripJSONWrapper. cbv zeta.
  set (msgList := before ++ opening :: body ++ closing :: after).
  assert (Es : Split (Join msgList newline) newline = msgList).
  { apply Split_Join; [|exact Hn]. subst msgList.
    destruct before; discriminate. }
  rewrite Es. unfold msgList at 3.
  rewrite (@openingFence_skip _ msgList before _ 0 Hb).
  cbn [Nat.add openingFence]. rewrite Ho, str_eqb_refl.
  assert (Ek : skipn (length before) msgList
               = opening :: body ++ closing :: after).
  { subst msgList. rewrite skipn_app, skipn_all, Nat.sub_diag. reflexivity. }
  rewrite Ek.
  change (opening :: body ++ closing :: after)
    with (([opening] ++ body) ++ closing :: after).
  rewrite closingFence_skip.
  - cbn [closingFence Nat.add]. rewrite Hc, str_eqb_refl.
    unfold sliceList. rewrite length_app. cbn [length].
    replace (length before + 1 <=? length before + (1 + length body))
      with true by (symmetry; apply Nat.leb_le; lia).
    replace (length before + (1 + length body) <=? length msgList) with true.
    + cbn [andb option_map]. f_equal. f_equal.
      replace (length before + (1 + length body) - (length before + 1))
        with (length body) by lia.
      replace (length before + 1) with (S (length before)) by lia.
      destruct (@skipn_next str (length before) msgList _ _ Ek) as (-> & _).
      now rewrite firstn_app, firstn_all, Nat.sub_diag, app_nil_r.
    + symmetry. apply Nat.leb_le. subst msgList.
      rewrite length_app. cbn [length]. rewrite length_app. cbn [length]. lia.
  - constructor; [|exact Hy]. apply opens_not_closes. exact Ho.
Qed.

(* ================================================================== *)
(** ** The name of an uploaded file *)
(* ================================================================== *)

(** X11: the name under which [getFilePart] uploads a file is the part of
    the file name after its last slash.  The split of the file name is never
    empty, so that the closure always takes its first branch and returns
    the last element; the file name is a directory part, empty or ending
    with a slash, followed by that name; and the name holds no slash. *)
Theorem X11_upload_name_is_base_name :
  forall fileName : str,
    0 < length (Split fileName (lit "/")) /\
    uploadName fileName = last (Split fileName (lit "/")) [] /\
    ~ In "/"%byte (uploadName fileName) /\
    exists dir,
      fileName = dir ++ uploadName fileName /\
      (dir = [] \/ exists d, dir = d ++ lit "/").
Proof.
  intros fileName. unfold uploadName, lastElement.
  change (lit "/") with ["/"%byte].
  destruct (Split_byte_spec "/"%byte fileName) as (H0 & Hj & Hf).
  destruct (Split fileName ["/"%byte]) as [|l ls] eqn:E; [congruence|].
  cbn [length Nat.ltb Nat.leb].
  split; [lia|]. split.
  { replace (S (length ls) - 1) with (length ls) by lia.
    clear. revert l. induction ls as [|x ls IH]; intros l; [reflexivity|].
    change (nth (length ls) (x :: ls) [] = last (x :: ls) []). apply IH. }
  split.
  - rewrite Forall_forall in Hf. apply Hf. apply nth_In. cbn [length]. lia.
  - destruct (@Join_last ["/"%byte] (l :: ls) H0) as (dir & Ed & Hd).
    exists dir. split; [|exact Hd]. now rewrite <- Hj.
Qed.

(* ================================================================== *)
(** ** The name of a converted file *)
(* ================================================================== *)

(** X15: [convertFile] hands [srcFolder + "/" + fileName] to
    [GenerateContentWithPDF]; when the file name holds no slash, as the name
    of a directory entry, [getFilePart] uploads the file under that very
    name, whatever the source folder. *)
Theorem X15_converted_file_keeps_its_name :
  forall (srcFolder fileName : str),
    ~ In "/"%byte fileName ->
    uploadName (srcFolder ++ lit "/" ++ fileName) = fileName.
Proof.
  intros srcFolder fileName Hf.
  set (s := srcFolder ++ lit "/" ++ fileName).
  unfold uploadName, lastElement. change (lit "/") with ["/"%byte] in *.
  destruct (Split_byte_spec "/"%byte s) as (H0 & Hj & Hn).
  destruct (Split s ["/"%byte]) as [|l ls] eqn:E; [congruence|].
  cbn [length Nat.ltb Nat.leb].
  set (name := nth (length (l :: ls) - 1) (l :: ls) []).
  assert (Hl : ~ In "/"%byte name).
  { rewrite Forall_forall in Hn. apply Hn. apply nth_In. cbn [length]. lia. }
  destruct (@Join_last ["/"%byte] (l :: ls) H0) as (dir & Ed & Hd).
  fold name in Ed. rewrite Hj in Ed.
  destruct Hd as [->|(d & ->)].
  - exfalso. apply Hl. cbn [app] in Ed. rewrite <- Ed. subst s.
    apply in_or_app. right. now left.
  - subst s. rewrite <- app_assoc in Ed. cbn [app] in Ed.
    apply (f_equal (@rev byte)) in Ed.
    rewrite !rev_app_distr in Ed. cbn [rev] in Ed.
    rewrite <- !app_assoc in Ed. cbn [app] in Ed.
    assert (P : forall t : str, ~ In "/"%byte t ->
                forallb (fun b => negb (Byte.eqb b "/"%byte)) (rev t) = true).
    { intros t Ht. apply forallb_forall. intros b Hb.
      apply negb_true_iff. destruct (Byte.eqb b "/"%byte) eqn:Eb; [|reflexivity].
      apply Byte.byte_dec_bl in Eb. subst b. apply in_rev in Hb. contradiction. }
    destruct (@run_unique (fun b => negb (Byte.eqb b "/"%byte))
                (rev fileName) (rev name) "/"%byte "/"%byte _ _
                (P _ Hf) (P _ Hl) eq_refl eq_refl Ed) as (Er & _).
    apply (f_equal (@rev byte)) in Er. rewrite !rev_involutive in Er.
    now symmetry.
Qed.

(* ================================================================== *)
(** ** Costs *)
(* ================================================================== *)

Section CostProperties.

Variable F : Type.
Variable ofInt64 : Z -> F.
Variable fdiv fmul fadd : F -> F -> F.
Variable f0 f1000 f0_005 f0_015 : F.

Local Abbreviation add :=
  (AddCosts ofInt64 fdiv fmul fadd f1000 f0_005 f0_015).
Local Abbreviation total := (TotalCosts fadd f0).

(** X16: adding the usage of a call appends one entry and leaves the
    entries before it as they were; the entry holds the token counts of the
    usage and the two prices; and the total after the call is the total
    before it plus the cost of the new entry, so that the total of a
    service is the running sum of the costs in the order of the calls. *)
Theorem X16_costs_accumulate :
  forall (Costs : list (chatCosts F)) (usage : CompletionUsage),
    exists c,
      add Costs usage = Costs ++ [c] /\
      PromptTokens c = u_PromptTokens usage /\
      CompletionTokens c = u_CompletionTokens usage /\
      PromptPrice c = f0_005 /\ CompletionPrice c = f0_015 /\
      total (add Costs usage) = fadd (total Costs) (TotalCost c) /\
      (forall i, i < length Costs ->
         nth_error (add Costs usage) i = nth_error Costs i) /\
      length (add Costs usage) = S (length Costs).
Proof.
  intros Costs usage. eexists. split; [reflexivity|].
  cbn [PromptTokens CompletionTokens PromptPrice CompletionPrice TotalCost].
  repeat split.
  - unfold TotalCosts, AddCosts. cbv zeta. rewrite fold_left_app. reflexivity.
  - intros i Hi. unfold AddCosts. cbv zeta. now rewrite nth_error_app1.
  - unfold AddCosts. cbv zeta. rewrite length_app. cbn [length]. lia.
Qed.

End CostProperties.

(* ================================================================== *)
(** ** The theorems at concrete inputs *)
(* ================================================================== *)

Lemma C3_witness :
  exists e,
    ParseOpenAIJsonError exampleLower refUnmarshal minInt64 quotaInput = Ok e /\
    Code e = lit "quota".
Proof.
  edestruct (@C3_upstream_code_kept exampleLower refUnmarshal minInt64
               quotaInput) as (e & He & Hk & _);
    [ vm_compute; reflexivity | vm_compute; reflexivity
    | vm_compute; reflexivity | ].
  exists e. split; [exact He|]. apply Hk. discriminate.
Defined.

Lemma C8_witness :
  exists e,
    ParseOpenAIJsonError exampleLower refUnmarshal minInt64 truncatedInput
      = Ok e /\
    Message e = lit "Rate limit hit".
Proof.
  edestruct (@C8_truncated_body exampleLower refUnmarshal minInt64
               truncatedInput) as (_ & _ & _ & H);
    [ vm_compute; reflexivity | vm_compute; reflexivity
    | vm_compute; reflexivity | ].
  edestruct H as (e & He & Hm & _);
    [ vm_compute; reflexivity | vm_compute; reflexivity | ].
  exists e. split; [exact He | exact Hm].
Defined.

(** C1 fails as stated: the plain parser extracts the rate-limit details
    from a message under status 503. *)
Lemma C1_counterexample :
  exists e,
    ParseOpenAIPlainError exampleLower minInt64 rateLimit503Input = Ok e /\
    RateInfo e <> None /\ Status e = 503%Z /\ Status e <> 429%Z.
Proof.
  eexists. split; [vm_compute; reflexivity|].
  cbn [RateInfo Status]. repeat split; discriminate.
Qed.

Lemma C1_counterexample_parse :
  exists e,
    ParseOpenAIPlainError exampleLower minInt64 rateLimit503Input = Ok e /\
    RateInfo e <> None.
Proof.
  eexists. split; [vm_compute; reflexivity|]. discriminate.
Defined.

Lemma C1_witness :
  exists e,
    ParseOpenAIPlainError exampleLower minInt64 rateLimit503Input = Ok e /\
    IsRateLimit exampleLower (Some e) = true.
Proof.
  destruct C1_counterexample_parse as (e & He & Hr).
  exists e. split; [exact He|].
  exact (proj1 (@C1_rate_info_is_rate_limit exampleLower refUnmarshal minInt64
                  rateLimit503Input e (or_intror He) Hr)).
Defined.

(** C2 fails as stated.  By design: the code [quota] of the body is kept
    under status 429 with a message that contains [rate limit].  And on the
    two paths that return before the rule the code stays empty: a plain
    message that names the rate limit without the sentence of the details,
    and a body without its closing brace. *)
Lemma C2_counterexample :
  (exists e,
     ParseOpenAIJsonError exampleLower refUnmarshal minInt64 quotaInput
       = Ok e /\
     Status e = 429%Z /\
     Contains (ToLower exampleLower (Message e)) (lit "rate limit") = true /\
     Code e = lit "quota" /\ Code e <> lit "rate_limit_exceeded") /\
  (exists e,
     ParseOpenAIPlainError exampleLower minInt64 plainNoDetailsInput = Ok e /\
     Status e = 429%Z /\
     Contains (ToLower exampleLower (Message e)) (lit "rate limit") = true /\
     RateInfo e = None /\
     Code e = [] /\ Code e <> lit "rate_limit_exceeded") /\
  (exists e,
     ParseOpenAIJsonError exampleLower refUnmarshal minInt64 unclosedBodyInput
       = Ok e /\
     Status e = 429%Z /\
     Contains (ToLower exampleLower (Message e)) (lit "rate limit") = true /\
     (exists body, jsonBody unclosedBodyInput = Some body /\
                   decodeBody refUnmarshal body = None) /\
     Code e = [] /\ Code e <> lit "rate_limit_exceeded").
Proof.
  split; [|split].
  - eexists. split; [vm_compute; reflexivity|].
    cbn [Status Message Code].
    repeat split; try discriminate; try (vm_compute; reflexivity).
  - eexists. split; [vm_compute; reflexivity|].
    cbn [Status Message Code RateInfo].
    split; [reflexivity|]. split; [vm_compute; reflexivity|].
    split; [reflexivity|]. split; [reflexivity|discriminate].
  - eexists. split; [vm_compute; reflexivity|].
    cbn [Status Message Code].
    split; [reflexivity|]. split; [vm_compute; reflexivity|].
    split; [eexists; split; [vm_compute; reflexivity|vm_compute; reflexivity]|].
    split; [reflexivity|discriminate].
Qed.

Lemma C2_witness_parse :
  exists e,
    ParseOpenAIJsonError exampleLower refUnmarshal minInt64 truncatedInput
      = Ok e /\
    Status e = 429%Z /\
    Contains (ToLower exampleLower (Message e)) (lit "rate limit") = true.
Proof.
  eexists. split; [vm_compute; reflexivity|].
  split; vm_compute; reflexivity.
Defined.

Lemma C2_witness_body :
  jsonBody truncatedInput =
  Some (lit "{" ++ dquote ++ lit "message" ++ dquote ++ lit ": " ++ dquote
          ++ lit "Rate limit hit" ++ dquote ++ lit "} and more").
Proof. vm_compute. reflexivity. Defined.

Lemma C2_witness_decode :
  decodeBody refUnmarshal
    (lit "{" ++ dquote ++ lit "message" ++ dquote ++ lit ": " ++ dquote
       ++ lit "Rate limit hit" ++ dquote ++ lit "} and more")
  = Some (mkShell None (lit "Rate limit hit") [] None []).
Proof. vm_compute. reflexivity. Defined.

Lemma C2_witness :
  exists e,
    ParseOpenAIJsonError exampleLower refUnmarshal minInt64 truncatedInput
      = Ok e /\
    Code e = lit "rate_limit_exceeded".
Proof.
  destruct C2_witness_parse as (e & He & Hs & Hc).
  exists e. split; [exact He|].
  edestruct (@C2_default_code exampleLower refUnmarshal minInt64
               truncatedInput e Hs Hc) as (H & _).
  destruct (H He) as (body & Hb & Hk).
  rewrite C2_witness_body in Hb. inversion Hb; subst body; clear Hb.
  rewrite (Hk _ C2_witness_decode). reflexivity.
Defined.

(** The retry loop on a service that fails once and then answers. *)
Lemma rateLimitJson_retryable :
  Retryable exampleLower refUnmarshal minInt64 rateLimitJsonInput
    3582000000%Z.
Proof.
  do 2 eexists. split; [vm_compute; reflexivity|].
  repeat split; vm_compute; reflexivity.
Defined.

Lemma C4_witness :
  fst (generateJsonContent_retry exampleLower refUnmarshal minInt64 failsOnce)
    = Proceeds (Some tt) /\
  calls (snd (generateJsonContent_retry exampleLower refUnmarshal minInt64
                failsOnce)) = 2 /\
  trace (snd (generateJsonContent_retry exampleLower refUnmarshal minInt64
                failsOnce))
    = [EvCall; EvSleep 3582000000%Z; EvCall].
Proof.
  pose proof (@C4_retry_driver exampleLower refUnmarshal minInt64 unit
                failsOnce) as H.
  cbv zeta in H. destruct H as (_ & _ & _ & _ & _ & _ & _ & H & _).
  exact (H rateLimitJsonInput 3582000000%Z tt eq_refl
           rateLimitJson_retryable eq_refl).
Defined.

(** C5 fails as stated.  A server error whose body has no message is
    rendered with nothing after the dash, which the plain parser rejects.
    The further inputs show the other conditions of the round trip: three
    digits outside 100..599, a URL with a space, a blank reason, a message
    that starts with a space, a message of two lines. *)
Lemma C5_counterexample :
  (exists t,
     ParseOpenAIJsonError exampleLower refUnmarshal minInt64 noMessageInput
       = Ok t /\
     Status t = 500%Z /\ Message t = [] /\
     ParseOpenAIPlainError exampleLower minInt64 (Error (Some t))
       = Fail (lit "unrecognized error format")) /\
  (exists t,
     ParseOpenAIJsonError exampleLower refUnmarshal minInt64 status999Input
       = Ok t /\
     Status t = 999%Z /\ ~ (Status t <= 599)%Z) /\
  (exists t,
     ParseOpenAIJsonError exampleLower refUnmarshal minInt64 status042Input
       = Ok t /\
     Status t = 42%Z /\ ~ (100 <= Status t)%Z /\
     ParseOpenAIPlainError exampleLower minInt64 (Error (Some t))
       = Fail (lit "unrecognized error format")) /\
  (exists t,
     ParseOpenAIJsonError exampleLower refUnmarshal minInt64 urlSpaceInput
       = Ok t /\
     URL t = lit "http://x/a b" /\
     ParseOpenAIPlainError exampleLower minInt64 (Error (Some t))
       = Fail (lit "unrecognized error format")) /\
  (exists t,
     ParseOpenAIJsonError exampleLower refUnmarshal minInt64 blankReasonInput
       = Ok t /\
     Reason t = [] /\
     ParseOpenAIPlainError exampleLower minInt64 (Error (Some t))
       = Fail (lit "unrecognized error format")) /\
  (exists t t',
     ParseOpenAIJsonError exampleLower refUnmarshal minInt64
       paddedMessageInput = Ok t /\
     Message t = lit " m" /\
     ParseOpenAIPlainError exampleLower minInt64 (Error (Some t)) = Ok t' /\
     Message t' = lit "m" /\ Message t' <> Message t) /\
  (exists t,
     ParseOpenAIJsonError exampleLower refUnmarshal minInt64 twoLineBodyInput
       = Ok t /\
     Message t = lit "{upstream" ++ newline ++ lit "failed" /\
     ParseOpenAIPlainError exampleLower minInt64 (Error (Some t))
       = Fail (lit "unrecognized error format")).
Proof.
  split; [|split; [|split; [|split; [|split; [|split]]]]].
  - eexists. split; [vm_compute; reflexivity|].
    split; [reflexivity|]. split; [reflexivity|]. vm_compute. reflexivity.
  - eexists. split; [vm_compute; reflexivity|].
    split; [reflexivity|]. cbn [Status]. lia.
  - eexists. split; [vm_compute; reflexivity|].
    split; [reflexivity|]. split; [cbn [Status]; lia|].
    vm_compute. reflexivity.
  - eexists. split; [vm_compute; reflexivity|].
    split; [reflexivity|]. vm_compute. reflexivity.
  - eexists. split; [vm_compute; reflexivity|].
    split; [reflexivity|]. vm_compute. reflexivity.
  - do 2 eexists. split; [vm_compute; reflexivity|].
    split; [reflexivity|]. split; [vm_compute; reflexivity|].
    split; [reflexivity|]. cbn [Message]. discriminate.
  - eexists. split; [vm_compute; reflexivity|].
    split; [reflexivity|]. vm_compute. reflexivity.
Qed.

Lemma C5_witness_input :
  exists t,
    ParseOpenAIJsonError exampleLower refUnmarshal minInt64 rateLimitJsonInput
      = Ok t /\
    (100 <= Status t)%Z /\ forallb notSpace (URL t) = true /\
    Reason t <> [] /\ Message t <> [] /\
    forallb anyButNewline (Message t) = true /\
    TrimSpace (Message t) = Message t.
Proof.
  eexists. split; [vm_compute; reflexivity|].
  cbn [Status URL Reason Message].
  split; [lia|]. split; [vm_compute; reflexivity|].
  split; [discriminate|]. split; [discriminate|].
  split; vm_compute; reflexivity.
Defined.

Lemma C5_witness :
  exists t t',
    ParseOpenAIJsonError exampleLower refUnmarshal minInt64 rateLimitJsonInput
      = Ok t /\
    isVerb (Method t) /\ (0 <= Status t <= 999)%Z /\
    ParseOpenAIPlainError exampleLower minInt64 (Error (Some t)) = Ok t' /\
    Method t' = Method t /\ URL t' = URL t /\ Status t' = Status t /\
    Reason t' = Reason t /\ Message t' = Message t.
Proof.
  destruct C5_witness_input as (t & Ht & H1 & H2 & H3 & H4 & H5 & H6).
  destruct (@C5_json_round_trip exampleLower refUnmarshal minInt64
              rateLimitJsonInput t Ht) as (V & S & R).
  destruct (R H1 H2 H3 H4 H5 H6) as (t' & Hp & E).
  exists t, t'. split; [exact Ht|]. split; [exact V|]. split; [exact S|].
  split; [exact Hp|exact E].
Defined.




(** ** The further properties at concrete inputs *)

Lemma X1_witness :
  exists e',
    ParseOpenAIPlainError exampleLower minInt64 (Error (Some exampleError))
      = Ok e' /\
    Method e' = lit "POST" /\ Status e' = 429%Z /\
    Reason e' = lit "Too Many Requests" /\
    Message e' = lit "Rate limit reached".
Proof.
  destruct (@X1_render_then_parse_plain exampleLower minInt64 exampleError)
    as (e' & He & Hm & _ & Hs & Hr & Hg);
    [ right; left; reflexivity | discriminate | vm_compute; reflexivity
    | cbn [Status exampleError]; lia | discriminate | vm_compute; reflexivity
    | vm_compute; reflexivity | discriminate | vm_compute; reflexivity
    | vm_compute; reflexivity | ].
  exists e'. split; [exact He|]. repeat split; assumption.
Defined.

Lemma rateLimitJson_parse :
  exists e ri,
    ParseOpenAIJsonError exampleLower refUnmarshal minInt64 rateLimitJsonInput
      = Ok e /\
    RateInfo e = Some ri.
Proof. do 2 eexists. split; vm_compute; reflexivity. Defined.

Lemma rateLimitPlain_parse :
  exists e,
    ParseOpenAIPlainError exampleLower minInt64 rateLimitPlainInput = Ok e.
Proof. eexists. vm_compute; reflexivity. Defined.

Lemma headerOnly_parse :
  exists e,
    ParseOpenAIJsonError exampleLower refUnmarshal minInt64 headerOnlyInput
      = Ok e.
Proof. eexists. vm_compute; reflexivity. Defined.

Lemma X2_witness :
  exists t,
    ParseOpenAIJsonError exampleLower refUnmarshal minInt64 rateLimitJsonInput
      = Ok t /\
    isVerb (Method t) /\ (0 <= Status t <= 999)%Z /\ URL t <> [].
Proof.
  destruct rateLimitJson_parse as (t & ri & Ht & _).
  exists t. split; [exact Ht|].
  destruct (@X2_json_header_invariants exampleLower refUnmarshal minInt64
              rateLimitJsonInput t Ht) as (H1 & H2 & H3 & _).
  repeat split; solve [assumption | apply H2].
Defined.

Lemma X3_witness :
  exists t t',
    ParseOpenAIJsonError exampleLower refUnmarshal minInt64 rateLimitJsonInput
      = Ok t /\
    ParseOpenAIPlainError exampleLower minInt64 (Error (Some t)) = Ok t' /\
    Message t' = Message t.
Proof.
  assert (P : exists t,
             ParseOpenAIJsonError exampleLower refUnmarshal minInt64
               rateLimitJsonInput = Ok t /\
             (100 <= Status t)%Z /\ forallb notSpace (URL t) = true /\
             Reason t <> [] /\ Message t <> [] /\
             forallb anyButNewline (Message t) = true /\
             TrimSpace (Message t) = Message t).
  { eexists. split; [vm_compute; reflexivity|].
    cbn [Status URL Reason Message].
    repeat split; try discriminate; try (vm_compute; reflexivity). }
  destruct P as (t & Ht & H1 & H2 & H3 & H4 & H5 & H6).
  destruct (@X3_json_render_plain exampleLower refUnmarshal minInt64
              rateLimitJsonInput t Ht H1 H2 H3 H4 H5 H6)
    as (t' & Hp & _ & _ & _ & _ & Hm).
  exists t, t'. repeat split; assumption.
Defined.

Lemma X4_witness :
  exists e ri,
    ParseOpenAIJsonError exampleLower refUnmarshal minInt64 rateLimitJsonInput
      = Ok e /\
    RateInfo e = Some ri /\
    (ScopeType ri = lit "organization" \/ ScopeType ri = lit "project") /\
    (0 <= Limit ri <= maxInt64)%Z.
Proof.
  destruct rateLimitJson_parse as (e & ri & He & Hr).
  exists e, ri. split; [exact He|]. split; [exact Hr|].
  destruct (@X4_rate_info_fields exampleLower refUnmarshal minInt64
              rateLimitJsonInput e ri (or_introl He) Hr)
    as (H1 & _ & _ & _ & _ & _ & _ & H2 & _).
  split; assumption.
Defined.

Lemma X5_witness :
  exists e,
    ParseOpenAIPlainError exampleLower minInt64 rateLimitPlainInput = Ok e /\
    Param e = None /\
    (Code e = [] \/ Code e = lit "rate_limit_exceeded" /\ Status e = 429%Z).
Proof.
  destruct rateLimitPlain_parse as (e & He).
  exists e. split; [exact He|].
  destruct (@X5_plain_output_shape exampleLower minInt64
              rateLimitPlainInput e He)
    as (_ & _ & _ & _ & _ & _ & _ & _ & H1 & _ & H2 & _).
  split; assumption.
Defined.

Lemma X6_witness :
  ParseOpenAIPlainError exampleLower minInt64
    (lit "  " ++ rateLimitPlainInput ++ newline) =
  ParseOpenAIPlainError exampleLower minInt64 rateLimitPlainInput.
Proof.
  exact (proj2 (@X6_surrounding_space_ignored exampleLower refUnmarshal
                  minInt64 (lit "  ") rateLimitPlainInput newline
                  eq_refl eq_refl)).
Defined.

Lemma X7_witness :
  exists t,
    ParseOpenAIJsonError exampleLower refUnmarshal minInt64 headerOnlyInput
      = Ok t /\
    Message t = [] /\ RateInfo t = None.
Proof.
  destruct headerOnly_parse as (t & Ht).
  exists t. split; [exact Ht|].
  destruct (@X7_no_brace_header_only exampleLower refUnmarshal minInt64
              headerOnlyInput t) as (_ & H1 & _ & _ & _ & H2);
    [ vm_compute; intuition discriminate | exact Ht | ].
  split; assumption.
Defined.
Lemma X9_witness :
  stripJSONWrapper unfencedReply = Some unfencedReply.
Proof.
  apply X9_strip_unfenced. left. vm_compute.
  repeat constructor; discriminate.
Defined.

Lemma X10_witness :
  stripJSONWrapper (Join fencedLines newline)
  = Some (lit "{" ++ newline ++ lit "}").
Proof.
  apply (@X10_strip_fenced [lit "Here is the result:"] [lit "{"; lit "}"]
           [lit "Done."] (lit "```json") (lit "```")).
  - repeat constructor; vm_compute; intuition discriminate.
  - repeat constructor; vm_compute; discriminate.
  - vm_compute; reflexivity.
  - repeat constructor; vm_compute; discriminate.
  - vm_compute; reflexivity.
Defined.

Lemma rateLimitJson_seconds :
  exists e ri,
    ParseOpenAIJsonError exampleLower refUnmarshal minInt64 rateLimitJsonInput
      = Ok e /\
    RateInfo e = Some ri /\
    length (fst (splitDot (at_ (FindStringSubmatch rateRe 9 (Message e)) 8)))
      <= 9.
Proof.
  do 2 eexists. split; [vm_compute; reflexivity|].
  split; [vm_compute; reflexivity|]. vm_compute. repeat constructor.
Defined.

Lemma X13_witness :
  exists e ri,
    ParseOpenAIJsonError exampleLower refUnmarshal minInt64 rateLimitJsonInput
      = Ok e /\
    RateInfo e = Some ri /\
    (0 <= RetryAfter ri <= 2 ^ 60)%Z /\
    wrap64 (RetryAfter ri + 100 * Millisecond) =
      (RetryAfter ri + 100 * Millisecond)%Z.
Proof.
  destruct rateLimitJson_seconds as (e & ri & He & Hr & Hl).
  exists e, ri. split; [exact He|]. split; [exact Hr|].
  exact (proj2 (@X13_retry_after_range exampleLower refUnmarshal minInt64
                  rateLimitJsonInput e ri (or_introl He) Hr) Hl).
Defined.

Lemma rateLimitPlain_url :
  exists e,
    ParseOpenAIPlainError exampleLower minInt64 rateLimitPlainInput = Ok e /\
    (forall t, URL e <> dquote ++ t).
Proof.
  eexists. split; [vm_compute; reflexivity|]. intros t. cbn. discriminate.
Defined.

Lemma X14_witness :
  exists e,
    ParseOpenAIPlainError exampleLower minInt64 rateLimitPlainInput = Ok e /\
    parseRawError exampleLower refUnmarshal minInt64 rateLimitPlainInput
      = Ok e.
Proof.
  destruct rateLimitPlain_url as (e & He & Hu).
  exists e. split; [exact He|].
  exact (proj2 (@X14_plain_dialect_falls_back exampleLower refUnmarshal
                  minInt64 rateLimitPlainInput e He Hu)).
Defined.

Lemma X15_witness :
  uploadName (lit "in" ++ lit "/" ++ lit "report.pdf") = lit "report.pdf".
Proof.
  apply X15_converted_file_keeps_its_name.
  vm_compute. intuition discriminate.
Defined.
Lemma rateLimitJson_decimal :
  exists e ri,
    ParseOpenAIJsonError exampleLower refUnmarshal minInt64 rateLimitJsonInput
      = Ok e /\
    RateInfo e = Some ri /\
    decimalOf (at_ (FindStringSubmatch rateRe 9 (Message e)) 8)
      = Some (3482, 1000)%Z /\
    integerDigits (at_ (FindStringSubmatch rateRe 9 (Message e)) 8) <= 5.
Proof.
  do 2 eexists. split; [vm_compute; reflexivity|].
  split; [vm_compute; reflexivity|].
  split; [vm_compute; reflexivity|]. vm_compute. repeat constructor.
Defined.

Lemma X17_witness :
  exists e ri,
    ParseOpenAIJsonError exampleLower refUnmarshal minInt64 rateLimitJsonInput
      = Ok e /\
    RateInfo e = Some ri /\
    (- 33 * 1000 <= 32 * (RetryAfter ri * 1000 - 3482 * 10 ^ 9) <= 1000)%Z.
Proof.
  destruct rateLimitJson_decimal as (e & ri & He & Hr & Hd & Hl).
  exists e, ri. split; [exact He|]. split; [exact Hr|].
  exact (@X17_json_retry_after_precision exampleLower refUnmarshal minInt64
           rateLimitJsonInput e ri 3482 1000 He Hr Hd Hl).
Defined.


